(** * Dubu_AI_Snake: the search-and-scoring engine, embedded and verified

    The development follows the Python sources:
    - [safety_logic.py]     : [is_collision], [is_future_isolated]
    - [state_perception.py] : [find_reachable_areas_bfs], [has_path_to_target_bfs]
      (both are repeated verbatim in [safety_logic.py])
    - [path_planning.py]    : [heuristic], [a_star_search]
    - [cost_function.py]    : [turn_cost], [calculate_action_cost]
    - [policy_agent.py]     : [get_safe_actions], [choose_best_action]

    Python integers are unbounded, so coordinates, sizes and costs are [Z].
    A [set] is a [gset], the [g_costs] dictionary is a [gmap], a [deque] used
    as a FIFO queue is a list consumed at its head, and the [heapq] frontier is
    a list from which [heappop] extracts the least tuple.  Loops that the
    source writes as [while] take a fuel argument; the fuel each entry point
    supplies is shown to be sufficient, so the fuel never decides a result. *)

From stdpp Require Import gmap list strings sorting.

Set Warnings "-clear-no-such-hyp".
Local Open Scope Z_scope.

(** ** Outcomes of a call *)

(** The exceptions the modelled functions can raise. *)
Inductive exn : Type :=
  | NameError (name : string)
  | IndexError.

(** A call returns a value, raises, or (for the model only) runs out of
    loop fuel. *)
Inductive result (A : Type) : Type :=
  | Ok (a : A)
  | Raise (e : exn)
  | OutOfFuel.
Arguments Ok {A} a.
Arguments Raise {A} e.
Arguments OutOfFuel {A}.

#[global] Instance result_ret : MRet result := λ A a, Ok a.
#[global] Instance result_bind : MBind result := λ A B k m,
  match m with
  | Ok a => k a
  | Raise e => Raise e
  | OutOfFuel => OutOfFuel
  end.

Definition raises {A} (r : result A) : Prop :=
  match r with Raise _ => True | _ => False end.

(** ** Grid model *)

Abbreviation cell := (Z * Z)%type.

(** [class Direction(Enum)]; the constructors are in declaration order, which
    is the order [for d in Direction] iterates in. *)
Inductive Direction : Type := UP | DOWN | LEFT | RIGHT.

#[global] Instance Direction_eq_dec : EqDecision Direction.
Proof. solve_decision. Defined.

Definition value (d : Direction) : Z * Z :=
  match d with
  | UP => (0, -1)
  | DOWN => (0, 1)
  | LEFT => (-1, 0)
  | RIGHT => (1, 0)
  end.

Definition all_directions : list Direction := [UP; DOWN; LEFT; RIGHT].

(** [(pos[0] + dx, pos[1] + dy)] *)
Definition move (pos : cell) (d : Direction) : cell :=
  (pos.1 + (value d).1, pos.2 + (value d).2).

(** [0 <= x < size and 0 <= y < size] *)
Definition in_bounds (size : Z) (pos : cell) : bool :=
  (0 <=? pos.1) && (pos.1 <? size) && (0 <=? pos.2) && (pos.2 <? size).

(** ** safety_logic.py *)

(** [list(snake_body)[:-1]] is [removelast snake_body]. *)
Definition is_collision (pos : cell) (size : Z) (snake_body : list cell) : bool :=
  if negb (in_bounds size pos) then true
  else if bool_decide (pos ∈ removelast snake_body) then true
  else false.

(** ** cost_function.py: turn_cost

    Here on the members of the module's own [Direction] class, which is what
    its annotations name; [turn_cost_obj] below is the function on any
    direction object. *)

Definition opposite_directions : list (Direction * Direction) :=
  [(UP, DOWN); (DOWN, UP); (LEFT, RIGHT); (RIGHT, LEFT)].

(** [dict.get]: the value bound to the key, or [None]. *)
Fixpoint dict_get (dict : list (Direction * Direction)) (k : Direction)
  : option Direction :=
  match dict with
  | [] => None
  | (k', v) :: dict => if bool_decide (k' = k) then Some v else dict_get dict k
  end.

Definition turn_cost (current_dir next_dir : Direction) : Z :=
  if bool_decide (current_dir = next_dir) then 0
  else if bool_decide (dict_get opposite_directions current_dir = Some next_dir)
       then 1000000
       else 1.

(** The addend of [cost += turn_cost(current_direction, proposed_action) * 5]. *)
Definition turn_term (current_direction proposed_action : Direction) : Z :=
  turn_cost current_direction proposed_action * 5.

(** ** Direction objects

    cost_function.py, snake_env.py, safety_logic.py, path_planning.py,
    state_perception.py and evaluation_logger.py each have their own
    [class Direction(Enum)].  A member of one class is no member of another:
    [==] on enum members is identity, and a dict keyed by the members of one
    class has no entry for the members of another (the hash of a member is
    the hash of its name, so the slot is found, and the key in it differs).
    [.value] and [.name] are the same in all six.  policy_agent.py and the
    test of cost_function.py take their directions from snake_env.py. *)
Inductive enum_class : Type :=
  | cost_function_Direction
  | snake_env_Direction
  | safety_logic_Direction
  | path_planning_Direction
  | state_perception_Direction
  | evaluation_logger_Direction.

#[global] Instance enum_class_eq_dec : EqDecision enum_class.
Proof. solve_decision. Defined.

Record direction_object : Type := Member {
  class_of : enum_class;
  member_of : Direction
}.

#[global] Instance direction_object_eq_dec : EqDecision direction_object.
Proof. solve_decision. Defined.

(** The dict that [turn_cost] builds: [Direction] there is the class of
    cost_function.py. *)
Definition opposite_objects : list (direction_object * direction_object) :=
  [(Member cost_function_Direction UP, Member cost_function_Direction DOWN);
   (Member cost_function_Direction DOWN, Member cost_function_Direction UP);
   (Member cost_function_Direction LEFT, Member cost_function_Direction RIGHT);
   (Member cost_function_Direction RIGHT, Member cost_function_Direction LEFT)].

Fixpoint dict_get_obj (dict : list (direction_object * direction_object))
    (k : direction_object) : option direction_object :=
  match dict with
  | [] => None
  | (k', v) :: dict =>
    if bool_decide (k' = k) then Some v else dict_get_obj dict k
  end.

(** [turn_cost] on the objects it is called with, of whatever class;
    [turn_cost] above is its restriction to the class of cost_function.py. *)
Definition turn_cost_obj (current_dir next_dir : direction_object) : Z :=
  if bool_decide (current_dir = next_dir) then 0
  else if bool_decide
            (dict_get_obj opposite_objects current_dir = Some next_dir)
       then 1000000
       else 1.

(** ** state_perception.py (and its verbatim copy in safety_logic.py) *)

(** [obstacles = set(snake_body)], then [obstacles.remove(p)] for each exempt
    cell [p] that is a member. *)
Definition obstacle_set (snake_body : list cell) (exempt : list cell) : gset cell :=
  foldl (λ obstacles p, if bool_decide (p ∈ obstacles) then obstacles ∖ {[p]}
                        else obstacles)
        (list_to_set snake_body) exempt.

(** The body of [for dx, dy in [d.value for d in Direction]] of both
    breadth-first searches: a neighbour that is in bounds, not visited and not
    an obstacle is marked visited and appended to the queue.  [mk] builds the
    queue item ([next_pos] itself, or [(next_pos, path + [next_pos])]). *)
Definition bfs_visit {A} (mk : cell → A) (size : Z) (obstacles : gset cell)
    (curr : cell) (st : list A * gset cell) (d : Direction)
  : list A * gset cell :=
  let next_pos := move curr d in
  if in_bounds size next_pos
     && bool_decide (next_pos ∉ st.2)
     && bool_decide (next_pos ∉ obstacles)
  then (st.1 ++ [mk next_pos], {[next_pos]} ∪ st.2)
  else st.

(** [while q:] of [find_reachable_areas_bfs]. *)
Fixpoint reachable_loop (fuel : nat) (size : Z) (obstacles : gset cell)
    (q : list cell) (visited : gset cell)
    (reachable_count : Z) (reachable_cells : list cell)
  : result (Z * list cell) :=
  match fuel with
  | O => OutOfFuel
  | S fuel =>
    match q with
    | [] => Ok (reachable_count, reachable_cells)
    | curr :: q =>
      let st := foldl (bfs_visit id size obstacles curr) (q, visited)
                      all_directions in
      reachable_loop fuel size obstacles st.1 st.2
                     (reachable_count + 1) (reachable_cells ++ [curr])
    end
  end.

(** Every iteration dequeues one cell and every cell of the board is enqueued
    at most once, so [size * size + 2] iterations are never used up. *)
Definition bfs_fuel (size : Z) : nat := Z.to_nat (size * size) + 2.

Definition find_reachable_areas_bfs (start_pos : cell) (size : Z)
    (snake_body : list cell) (food_pos : cell) : result (Z * list cell) :=
  reachable_loop (bfs_fuel size) size (obstacle_set snake_body [food_pos])
                 [start_pos] {[start_pos]} 0 [].

(** [while q:] of [has_path_to_target_bfs]; queue items are
    [(position, path_taken)]. *)
Fixpoint has_path_loop (fuel : nat) (target_pos : cell) (size : Z)
    (obstacles : gset cell) (q : list (cell * list cell)) (visited : gset cell)
  : result bool :=
  match fuel with
  | O => OutOfFuel
  | S fuel =>
    match q with
    | [] => Ok false
    | (curr_pos, path) :: q =>
      if bool_decide (curr_pos = target_pos) then Ok true
      else
        let st := foldl (bfs_visit (λ next_pos, (next_pos, path ++ [next_pos]))
                                   size obstacles curr_pos)
                        (q, visited) all_directions in
        has_path_loop fuel target_pos size obstacles st.1 st.2
    end
  end.

Definition has_path_to_target_bfs (start_pos target_pos : cell) (size : Z)
    (snake_body : list cell) : result bool :=
  has_path_loop (bfs_fuel size) target_pos size
                (obstacle_set snake_body [target_pos; start_pos])
                [(start_pos, [])] {[start_pos]}.

(** [is_future_isolated] of safety_logic.py. *)
Definition is_future_isolated (head_pos food_pos : cell) (size : Z)
    (snake_body : list cell) (tail_pos : cell) : result bool :=
  to_food ← has_path_to_target_bfs head_pos food_pos size snake_body;
  if to_food : bool then Ok false
  else
    to_tail ← has_path_to_target_bfs head_pos tail_pos size snake_body;
    if to_tail : bool then Ok false else Ok true.

(** ** path_planning.py *)

Definition heuristic (a b : cell) : Z :=
  Z.abs (a.1 - b.1) + Z.abs (a.2 - b.2).

(** A frontier entry [(f_cost, g_cost, node, path_so_far)]. *)
Abbreviation entry := (Z * Z * cell * list cell)%type.

Definition entry_f (e : entry) : Z := e.1.1.1.
Definition entry_g (e : entry) : Z := e.1.1.2.
Definition entry_node (e : entry) : cell := e.1.2.
Definition entry_path (e : entry) : list cell := e.2.

(** Python orders tuples and lists lexicographically. *)
Definition lex (c1 c2 : comparison) : comparison :=
  match c1 with Eq => c2 | _ => c1 end.

Definition cell_compare (a b : cell) : comparison :=
  lex (a.1 ?= b.1) (a.2 ?= b.2).

Fixpoint path_compare (p q : list cell) : comparison :=
  match p, q with
  | [], [] => Eq
  | [], _ :: _ => Lt
  | _ :: _, [] => Gt
  | a :: p, b :: q => lex (cell_compare a b) (path_compare p q)
  end.

Definition entry_compare (a b : entry) : comparison :=
  lex (entry_f a ?= entry_f b)
      (lex (entry_g a ?= entry_g b)
           (lex (cell_compare (entry_node a) (entry_node b))
                (path_compare (entry_path a) (entry_path b)))).

Definition entry_lt (a b : entry) : bool :=
  match entry_compare a b with Lt => true | _ => false end.

(** [heapq]: the heap is kept as the list of its items; [heappush] adds an
    item and [heappop] removes and returns a least one. *)
Definition heappush (heap : list entry) (item : entry) : list entry :=
  heap ++ [item].

Fixpoint heap_least (best : entry) (heap : list entry) : entry :=
  match heap with
  | [] => best
  | e :: heap => heap_least (if entry_lt e best then e else best) heap
  end.

Fixpoint heap_remove (item : entry) (heap : list entry) : list entry :=
  match heap with
  | [] => []
  | e :: heap => if bool_decide (e = item) then heap
                 else e :: heap_remove item heap
  end.

Definition heappop (heap : list entry) : option (entry * list entry) :=
  match heap with
  | [] => None
  | e :: rest => let least := heap_least e rest in
                 Some (least, heap_remove least heap)
  end.

(** The body of the neighbour loop of [a_star_search] for the popped entry
    [(_, g_cost, current_pos, path)]. *)
Definition a_star_relax (goal : cell) (size : Z) (obstacles : gset cell)
    (g_cost : Z) (current_pos : cell) (path : list cell)
    (st : list entry * gmap cell Z) (d : Direction)
  : list entry * gmap cell Z :=
  let neighbor_pos := move current_pos d in
  if negb (in_bounds size neighbor_pos) then st
  else if bool_decide (neighbor_pos ∈ obstacles) then st
  else
    let new_g_cost := g_cost + 1 in
    if match st.2 !! neighbor_pos with
       | None => true
       | Some old => new_g_cost <? old
       end
    then
      let h_cost := heuristic neighbor_pos goal in
      let f_cost := new_g_cost + h_cost in
      (heappush st.1 (f_cost, new_g_cost, neighbor_pos, path ++ [current_pos]),
       <[neighbor_pos := new_g_cost]> st.2)
    else st.

(** [while open_set:] of [a_star_search]. *)
Fixpoint a_star_loop (fuel : nat) (goal : cell) (size : Z)
    (obstacles : gset cell) (open_set : list entry) (g_costs : gmap cell Z)
  : result (option (list cell)) :=
  match fuel with
  | O => OutOfFuel
  | S fuel =>
    match heappop open_set with
    | None => Ok None
    | Some ((_, g_cost, current_pos, path), open_set) =>
      if bool_decide (current_pos = goal) then Ok (Some (path ++ [current_pos]))
      else
        let st := foldl (a_star_relax goal size obstacles g_cost current_pos path)
                        (open_set, g_costs) all_directions in
        a_star_loop fuel goal size obstacles st.1 st.2
    end
  end.

(** A push lowers the recorded cost of a board cell, and recorded costs stay
    below the number of board cells; this bounds the iterations. *)
Definition a_star_fuel (size : Z) : nat :=
  Z.to_nat ((size * size + 1) * (size * size + 1) + 1).

Definition a_star_search (start goal : cell) (size : Z)
    (snake_body : list cell) : result (option (list cell)) :=
  a_star_loop (a_star_fuel size) goal size
              (obstacle_set snake_body [goal; start])
              [(0, 0, start, [])] {[start := 0]}.

(** ** cost_function.py: calculate_action_cost *)

(** The extended-real cost: [float('inf')] or a finite number.  Every finite
    cost the function builds is an integer-valued float. *)
Inductive cost : Type :=
  | Finite (c : Z)
  | Infinity.

#[global] Instance cost_eq_dec : EqDecision cost.
Proof. solve_decision. Defined.

(** Truth value of an [a_star_search] result: [None] and the empty list are
    false. *)
Definition truthy (path : option (list cell)) : bool :=
  match path with
  | Some (_ :: _) => true
  | _ => false
  end.

Definition len (path : option (list cell)) : Z :=
  match path with
  | Some p => Z.of_nat (length p)
  | None => 0
  end.

(** Names bound at module level in cost_function.py when it is imported:
    [from typing import List, Tuple], [from enum import Enum], the class and
    the two functions.  [deque] is not among them (nor a builtin). *)
Definition cost_function_globals : list string :=
  ["List"; "Tuple"; "Enum"; "Direction"; "turn_cost"; "calculate_action_cost"]%string.

(** Evaluating a global name: unbound names raise [NameError]. *)
Definition load_global (globals : list string) (name : string) : result unit :=
  if bool_decide (name ∈ globals) then Ok () else Raise (NameError name).

(** Section 3 of the function, "Path to Food". *)
Definition path_term (cost : Z) (path_to_food : option (list cell)) : Z :=
  if truthy path_to_food then
    let cost := cost + len path_to_food in
    if len path_to_food =? 1 then cost - 100 else cost
  else cost + 1000.

(** [calculate_action_cost], with the module globals it runs in made
    explicit.  The four helpers are parameters in the source ("passed as
    parameters for loose coupling"); [is_future_isolated_func] is accepted and
    never called. *)
Definition calculate_action_cost_in {isolated_func : Type}
    (globals : list string)
    (current_head : cell) (current_direction proposed_action : Direction)
    (snake_body : list cell) (food_position : cell) (board_size : Z)
    (is_collision_func : cell → Z → list cell → result bool)
    (a_star_search_func :
       cell → cell → Z → list cell → result (option (list cell)))
    (is_future_isolated_func : isolated_func)
    (find_reachable_areas_bfs_func :
       cell → Z → list cell → cell → result (Z * list cell))
  : result cost :=
  let cost := 0 in
  let next_head := move current_head proposed_action in
  collided ← is_collision_func next_head board_size snake_body;
  if collided : bool then Ok Infinity
  else
    let cost := cost + turn_term current_direction proposed_action in
    path_to_food ←
      a_star_search_func next_head food_position board_size snake_body;
    let cost := path_term cost path_to_food in
    _ ← load_global globals "deque";
    let temp_snake_body := next_head :: snake_body in
    let temp_snake_body :=
      if bool_decide (next_head ≠ food_position)
      then removelast temp_snake_body else temp_snake_body in
    next_tail ← match last temp_snake_body with
                | Some t => Ok t
                | None => Raise IndexError
                end;
    to_food ←
      a_star_search_func next_head food_position board_size temp_snake_body;
    no_way ←
      (if truthy to_food then Ok false
       else
         to_tail ←
           a_star_search_func next_head next_tail board_size temp_snake_body;
         Ok (negb (truthy to_tail)));
    cost ←
      (if no_way : bool then
         area ← find_reachable_areas_bfs_func
                  next_head board_size temp_snake_body food_position;
         if area.1 <? Z.of_nat (length temp_snake_body) * 2
         then Ok (cost + 500) else Ok cost
       else Ok cost);
    Ok (Finite cost).

(** The function as cost_function.py defines it: its free names are looked up
    in that module's globals. *)
Definition calculate_action_cost {isolated_func} :=
  @calculate_action_cost_in isolated_func cost_function_globals.

(** [calculate_action_cost] on direction objects of whatever class;
    [calculate_action_cost_in] above is its restriction to the class of
    cost_function.py. *)
Definition calculate_action_cost_obj {isolated_func : Type}
    (globals : list string)
    (current_head : cell) (current_direction proposed_action : direction_object)
    (snake_body : list cell) (food_position : cell) (board_size : Z)
    (is_collision_func : cell → Z → list cell → result bool)
    (a_star_search_func :
       cell → cell → Z → list cell → result (option (list cell)))
    (is_future_isolated_func : isolated_func)
    (find_reachable_areas_bfs_func :
       cell → Z → list cell → cell → result (Z * list cell))
  : result cost :=
  let cost := 0 in
  let next_head := move current_head (member_of proposed_action) in
  collided ← is_collision_func next_head board_size snake_body;
  if collided : bool then Ok Infinity
  else
    let cost := cost + turn_cost_obj current_direction proposed_action * 5 in
    path_to_food ←
      a_star_search_func next_head food_position board_size snake_body;
    let cost := path_term cost path_to_food in
    _ ← load_global globals "deque";
    let temp_snake_body := next_head :: snake_body in
    let temp_snake_body :=
      if bool_decide (next_head ≠ food_position)
      then removelast temp_snake_body else temp_snake_body in
    next_tail ← match last temp_snake_body with
                | Some t => Ok t
                | None => Raise IndexError
                end;
    to_food ←
      a_star_search_func next_head food_position board_size temp_snake_body;
    no_way ←
      (if truthy to_food then Ok false
       else
         to_tail ←
           a_star_search_func next_head next_tail board_size temp_snake_body;
         Ok (negb (truthy to_tail)));
    cost ←
      (if no_way : bool then
         area ← find_reachable_areas_bfs_func
                  next_head board_size temp_snake_body food_position;
         if area.1 <? Z.of_nat (length temp_snake_body) * 2
         then Ok (cost + 500) else Ok cost
       else Ok cost);
    Ok (Finite cost).

(** ** policy_agent.py *)

Definition get_safe_actions (board_size : Z) (current_head : cell)
    (snake_body : list cell) : list Direction :=
  foldl (λ safe_actions action,
           let next_head := move current_head action in
           if negb (is_collision next_head board_size snake_body)
           then safe_actions ++ [action] else safe_actions)
        [] all_directions.

(** [x < y] on costs, as floats compare. *)
Definition cost_lt (a b : cost) : bool :=
  match a, b with
  | Finite x, Finite y => x <? y
  | Finite _, Infinity => true
  | Infinity, _ => false
  end.

(** [list.sort(key=...)] is stable: an item goes after the items already
    placed whose key is not greater. *)
Fixpoint insert_by_cost (x : Direction * cost) (l : list (Direction * cost))
  : list (Direction * cost) :=
  match l with
  | [] => [x]
  | y :: l' => if cost_lt x.2 y.2 then x :: l else y :: insert_by_cost x l'
  end.

Definition sort_by_cost (l : list (Direction * cost)) : list (Direction * cost) :=
  foldl (λ sorted x, insert_by_cost x sorted) [] l.

(** The last-resort scan of the "no safe actions" branch. *)
Fixpoint first_non_colliding (board_size : Z) (current_head : cell)
    (snake_body : list cell) (actions : list Direction) : option Direction :=
  match actions with
  | [] => None
  | action :: actions =>
    let next_head := move current_head action in
    if negb (is_collision next_head board_size snake_body) then Some action
    else first_non_colliding board_size current_head snake_body actions
  end.

Definition choose_best_action (board_size : Z) (current_head : cell)
    (current_direction : Direction) (snake_body : list cell)
    (food_position : cell) : result Direction :=
  let possible_actions := get_safe_actions board_size current_head snake_body in
  match possible_actions with
  | [] =>
    match first_non_colliding board_size current_head snake_body
                              all_directions with
    | Some action => Ok action
    | None => Ok current_direction
    end
  | _ =>
    action_costs ←
      mapM (λ action,
              cost ← calculate_action_cost
                       current_head current_direction action
                       snake_body food_position board_size
                       (λ pos size body, Ok (is_collision pos size body))
                       a_star_search
                       is_future_isolated
                       find_reachable_areas_bfs;
              Ok (action, cost))
           possible_actions;
    match sort_by_cost action_costs with
    | best :: _ => Ok best.1
    | [] => Raise IndexError
    end
  end.

(** * Specification vocabulary *)

(** The obstacle set of a query: the body's cells minus the exempt ones. *)
Definition exempted (snake_body exempt : list cell) : gset cell :=
  list_to_set snake_body ∖ list_to_set exempt.

(** Cells at distance one on the 4-connected grid. *)
Definition adjacent (a b : cell) : Prop := ∃ d, b = move a d.

(** One move of a search: onto an adjacent cell that is in bounds and not an
    obstacle. *)
Definition step (size : Z) (obstacles : gset cell) (a b : cell) : Prop :=
  adjacent a b ∧ in_bounds size b = true ∧ b ∉ obstacles.

Definition stepb (size : Z) (obstacles : gset cell) (a b : cell) : bool :=
  bool_decide (b ∈ move a <$> all_directions)
  && in_bounds size b && bool_decide (b ∉ obstacles).

(** A list of cells in which every cell after the first is one move from its
    predecessor. *)
Fixpoint chain (size : Z) (obstacles : gset cell) (p : list cell) : bool :=
  match p with
  | a :: (b :: _) as rest => stepb size obstacles a b && chain size obstacles rest
  | _ => true
  end.

(** [p] is a path from [start] to [goal]: it includes both ends. *)
Definition path_between (size : Z) (obstacles : gset cell)
    (start goal : cell) (p : list cell) : Prop :=
  head p = Some start ∧ last p = Some goal ∧ chain size obstacles p = true.

(** Number of edges of a path given as its list of cells. *)
Definition steps_of (p : list cell) : Z := Z.of_nat (length p) - 1.

(** [walk start path c]: [path ++ [c]] is a path from [start]; this is the
    shape in which both searches carry paths ([path_so_far], [current]). *)
Inductive walk (size : Z) (obstacles : gset cell) (start : cell)
  : list cell → cell → Prop :=
  | walk_start : walk size obstacles start [] start
  | walk_snoc path c n :
      walk size obstacles start path c →
      step size obstacles c n →
      walk size obstacles start (path ++ [c]) n.

(** Cells reachable from [start] by any number of moves. *)
Definition reachable (size : Z) (obstacles : gset cell) (start c : cell) : Prop :=
  rtc (step size obstacles) start c.

(** Geometry of two directions, from their deltas. *)
Definition is_opposite (a b : Direction) : Prop :=
  (value b).1 = - (value a).1 ∧ (value b).2 = - (value a).2.

Definition is_perpendicular (a b : Direction) : Prop :=
  (value a).1 * (value b).1 + (value a).2 * (value b).2 = 0.

(** The cells of the board, row by row. *)
Definition board_cells (size : Z) : list cell :=
  list_prod (seqZ 0 size) (seqZ 0 size).

(** ** Flood fill, for any traversal order

    A worklist flood fill from [start]: [push] says where a newly found cell
    enters the frontier and [dirs] in which order neighbours are tried. *)
Section flood.
Variable push : list cell → cell → list cell.
Variable dirs : list Direction.

Definition flood_visit (size : Z) (obstacles : gset cell) (curr : cell)
    (st : list cell * gset cell) (d : Direction) : list cell * gset cell :=
  let next := move curr d in
  if in_bounds size next
     && bool_decide (next ∉ st.2)
     && bool_decide (next ∉ obstacles)
  then (push st.1 next, {[next]} ∪ st.2)
  else st.

Fixpoint flood_loop (fuel : nat) (size : Z) (obstacles : gset cell)
    (frontier : list cell) (seen : gset cell) (filled : list cell)
  : result (list cell) :=
  match fuel with
  | O => OutOfFuel
  | S fuel =>
    match frontier with
    | [] => Ok filled
    | curr :: frontier =>
      let st := foldl (flood_visit size obstacles curr) (frontier, seen) dirs in
      flood_loop fuel size obstacles st.1 st.2 (filled ++ [curr])
    end
  end.

Definition flood_fill (start : cell) (size : Z) (obstacles : gset cell)
  : result (list cell) :=
  flood_loop (bfs_fuel size) size obstacles [start] {[start]} [].
End flood.

(** The reference flood fill: depth-first (the frontier is a stack) and with
    the neighbours tried in the reverse of the enum order. *)
Definition flood_fill_reference (start : cell) (size : Z)
    (snake_body : list cell) (exempt : cell) : result (list cell) :=
  flood_fill (λ stack c, c :: stack) [RIGHT; LEFT; DOWN; UP]
             start size (exempted snake_body [exempt]).

(** A snapshot the error-handling section calls invalid. *)
Definition invalid_snapshot (size : Z) (snake_body : list cell) (goal : cell)
  : Prop :=
  snake_body = [] ∨ in_bounds size goal = false ∨ size ≤ 0.

(** "Every core operation fails on every invalid snapshot", for the
    operations that can fail at all in this model. *)
Definition rejects_invalid_snapshots : Prop :=
  ∀ size snake_body goal start current_direction proposed_action,
    invalid_snapshot size snake_body goal →
    raises (find_reachable_areas_bfs start size snake_body goal)
    ∧ raises (has_path_to_target_bfs start goal size snake_body)
    ∧ raises (a_star_search start goal size snake_body)
    ∧ raises (calculate_action_cost start current_direction proposed_action
                snake_body goal size
                (λ pos size body, Ok (is_collision pos size body))
                a_star_search is_future_isolated find_reachable_areas_bfs)
    ∧ raises (choose_best_action size start current_direction snake_body goal).

(** ** Breadth-first shortest path, the reference for [a_star_search]

    A plain breadth-first search over the same grid: first in, first out, each
    cell enqueued once with the path that led to it. *)
Fixpoint bfs_path_loop (fuel : nat) (goal : cell) (size : Z)
    (obstacles : gset cell) (q : list (cell * list cell)) (seen : gset cell)
  : result (option (list cell)) :=
  match fuel with
  | O => OutOfFuel
  | S fuel =>
    match q with
    | [] => Ok None
    | (curr, path) :: q =>
      if bool_decide (curr = goal) then Ok (Some (path ++ [curr]))
      else
        let st := foldl (bfs_visit (λ next, (next, path ++ [curr]))
                                   size obstacles curr)
                        (q, seen) all_directions in
        bfs_path_loop fuel goal size obstacles st.1 st.2
    end
  end.

Definition bfs_shortest_path (start goal : cell) (size : Z)
    (snake_body : list cell) : result (option (list cell)) :=
  bfs_path_loop (bfs_fuel size) goal size (exempted snake_body [goal; start])
                [(start, [])] {[start]}.

(** One iteration of the [while open_set:] loop that does not return: the
    popped node is not the goal and its neighbours are relaxed. *)
Definition a_star_iter (goal : cell) (size : Z) (obstacles : gset cell)
    (st st' : list entry * gmap cell Z) : Prop :=
  ∃ f g c path rest,
    heappop st.1 = Some ((f, g, c, path), rest)
    ∧ c ≠ goal
    ∧ st' = foldl (a_star_relax goal size obstacles g c path)
                  (rest, st.2) all_directions.

(** The frontier empties before the goal is popped. *)
Definition frontier_empties (goal : cell) (size : Z) (obstacles : gset cell)
    (st : list entry * gmap cell Z) : Prop :=
  ∃ g_costs, rtc (a_star_iter goal size obstacles) st ([], g_costs).

(** ** Invariants of the flood fill *)

(** Board cells not yet seen: the part of the termination measure that a
    newly seen cell lowers. *)
Definition unseen (size : Z) (seen : gset cell) : nat :=
  length (filter (λ c, c ∉ seen) (board_cells size)).

(** What trying some neighbours of [curr] does to (frontier, seen): the
    cells [new] enter both, each one unseen before and one move from
    [curr]. *)
Definition grows (size : Z) (obstacles : gset cell) (curr : cell)
    (st st' : list cell * gset cell) : Prop :=
  ∃ new : list cell,
    st'.1 ≡ₚ new ++ st.1
    ∧ st'.2 = list_to_set new ∪ st.2
    ∧ NoDup new
    ∧ (∀ n, n ∈ new → (n ∉ st.2) ∧ step size obstacles curr n)
    ∧ (unseen size st'.2 + length st'.1 ≤ unseen size st.2 + length st.1)%nat.

Definition flood_inv (size : Z) (obstacles : gset cell) (start : cell)
    (frontier : list cell) (seen : gset cell) (filled : list cell) : Prop :=
  NoDup (filled ++ frontier)
  ∧ (∀ c, c ∈ seen ↔ c ∈ filled ++ frontier)
  ∧ (∀ c, c ∈ filled ++ frontier → reachable size obstacles start c)
  ∧ (∀ c n, c ∈ filled → step size obstacles c n → n ∈ seen)
  ∧ start ∈ seen.

(** The outcome every flood fill must produce: each reachable cell once. *)
Definition fills (size : Z) (obstacles : gset cell) (start : cell)
    (filled : list cell) : Prop :=
  NoDup filled ∧ ∀ c, c ∈ filled ↔ reachable size obstacles start c.

(** ** Invariants of a_star_search *)

Definition sumZ (f : cell → Z) (l : list cell) : Z :=
  foldr (λ c acc, f c + acc) 0 l.

(** The cost recorded for a cell, or [bound] when none is. *)
Definition slot (bound : Z) (g_costs : gmap cell Z) (c : cell) : Z :=
  default bound (g_costs !! c).

(** Every push lowers the slot of a board cell, so the sum of the slots over
    the board bounds the pushes still to come. *)
Definition potential (size : Z) (g_costs : gmap cell Z) : Z :=
  sumZ (slot (Z.of_nat (length (board_cells size)) + 1) g_costs)
       (board_cells size).

(** Board cells with a recorded cost; no recorded cost exceeds this number. *)
Definition recorded (size : Z) (g_costs : gmap cell Z) : nat :=
  length (filter (λ c, is_Some (g_costs !! c)) (board_cells size)).

Definition bounded (size : Z) (st : list entry * gmap cell Z) (g : Z) : Prop :=
  0 ≤ g ≤ Z.of_nat (recorded size st.2).

Definition measure (size : Z) (st : list entry * gmap cell Z) : Z :=
  potential size st.2 + Z.of_nat (length st.1).

(** A frontier entry carries a real path of [g] moves, and its key lies
    between [g] and [g + h]. *)
Definition entry_ok (goal : cell) (size : Z) (obstacles : gset cell)
    (start : cell) (e : entry) : Prop :=
  walk size obstacles start (entry_path e) (entry_node e)
  ∧ entry_g e = Z.of_nat (length (entry_path e))
  ∧ entry_g e ≤ entry_f e ≤ entry_g e + heuristic (entry_node e) goal.

(** The recorded cost [v] of [c] is accounted for: an entry with that cost
    waits in the frontier, or [c] was expanded at that cost. *)
Definition settled (goal : cell) (size : Z) (obstacles : gset cell)
    (st : list entry * gmap cell Z) (c : cell) (v : Z) : Prop :=
  (∃ f path, (f, v, c, path) ∈ st.1)
  ∨ (c ≠ goal
     ∧ ∀ n, step size obstacles c n → ∃ v', st.2 !! n = Some v' ∧ v' ≤ v + 1).

(** The loop invariant; [pending] is the popped cell and cost while its
    neighbours are being relaxed. *)
Definition a_star_inv (goal : cell) (size : Z) (obstacles : gset cell)
    (start : cell) (pending : option (cell * Z))
    (st : list entry * gmap cell Z) : Prop :=
  (∀ e, e ∈ st.1 →
        entry_ok goal size obstacles start e ∧ bounded size st (entry_g e))
  ∧ st.2 !! start = Some 0
  ∧ (∀ c v, st.2 !! c = Some v →
            bounded size st v
            ∧ (settled goal size obstacles st c v ∨ pending = Some (c, v))).

(** Recorded costs only go down. *)
Definition lowers (st st' : list entry * gmap cell Z) : Prop :=
  ∀ c v, st.2 !! c = Some v → ∃ v', st'.2 !! c = Some v' ∧ v' ≤ v.

(** What [a_star_search] must return: a shortest path, or [None] when there
    is no path at all. *)
Definition shortest_or_none (size : Z) (obstacles : gset cell)
    (start goal : cell) (r : option (list cell)) : Prop :=
  match r with
  | Some p =>
      ∃ path, p = path ++ [goal]
              ∧ walk size obstacles start path goal
              ∧ ∀ path', walk size obstacles start path' goal →
                         (length path ≤ length path')%nat
  | None => ∀ path', ¬ walk size obstacles start path' goal
  end.

(** * The rest of the engine *)

(** Exceptions raised by the code below, beside those of [exn]. *)
Inductive error : Type :=
  | ValueError (message : string)
  | RuntimeError (message : string)
  | Builtin (e : exn).

(** A call returns, raises, or (for the model only) is still waiting for the
    random source when the supplied draws run out. *)
Inductive outcome (A : Type) : Type :=
  | Return (a : A)
  | Fail (e : error)
  | Pending.
Arguments Return {A} a.
Arguments Fail {A} e.
Arguments Pending {A}.

(** ** path_planning.py: find_safe_path *)

(** [list(obstacles)] for [obstacles = set(snake_body)]: the elements of the
    set, in the set's own order. *)
Definition set_as_list (snake_body : list cell) : list cell :=
  elements (list_to_set snake_body : gset cell).

Definition find_safe_path (start target : cell) (size : Z)
    (snake_body : list cell) (current_tail : cell)
  : result (option (list cell)) :=
  let obstacles := set_as_list snake_body in
  if bool_decide (target = current_tail) then
    path ← a_star_search start target size obstacles;
    if truthy path then Ok path else Ok None
  else
    a_star_search start target size obstacles.

(** ** path_planning.py: find_longest_path_bfs *)

(** The neighbour loop of [find_longest_path_bfs]: out of bounds, obstacle
    and visited neighbours are skipped, in that order. *)
Definition longest_visit (path_so_far : list cell) (size : Z)
    (obstacles : gset cell) (current_pos : cell)
    (st : list (cell * list cell) * gset cell) (d : Direction)
  : list (cell * list cell) * gset cell :=
  let neighbor_pos := move current_pos d in
  if negb (in_bounds size neighbor_pos) then st
  else if bool_decide (neighbor_pos ∈ obstacles) then st
  else if bool_decide (neighbor_pos ∈ st.2) then st
  else (st.1 ++ [(neighbor_pos, path_so_far ++ [current_pos])],
        {[neighbor_pos]} ∪ st.2).

Fixpoint longest_loop (fuel : nat) (size : Z) (obstacles : gset cell)
    (q : list (cell * list cell)) (visited : gset cell)
    (longest_path : list cell) : result (list cell) :=
  match fuel with
  | O => OutOfFuel
  | S fuel =>
    match q with
    | [] => Ok longest_path
    | (current_pos, path_so_far) :: q =>
      let longest_path :=
        if (length longest_path <? length path_so_far)%nat
        then path_so_far else longest_path in
      let st := foldl (longest_visit path_so_far size obstacles current_pos)
                      (q, visited) all_directions in
      longest_loop fuel size obstacles st.1 st.2 longest_path
    end
  end.

Definition find_longest_path_bfs (start : cell) (size : Z)
    (snake_body avoid_positions : list cell) : result (option (list cell)) :=
  longest_path ←
    longest_loop (bfs_fuel size) size
                 (obstacle_set (snake_body ++ avoid_positions) [start])
                 [(start, [])] {[start]} [];
  if bool_decide (start ∈ (list_to_set (snake_body ++ avoid_positions)
                           : gset cell))
  then Ok None
  else match longest_path with
       | [] => Ok None
       | _ :: _ => Ok (Some longest_path)
       end.

(** ** state_perception.py: the small helpers *)

Definition get_head_tail_coordinates (snake_body : list cell)
  : outcome (cell * cell) :=
  match snake_body with
  | [] => Fail (ValueError "Snake body cannot be empty.")
  | head :: _ => Return (head, default head (last snake_body))
  end.

Definition is_valid_move (pos : cell) (size : Z) (snake_body : list cell)
  : bool :=
  if negb (in_bounds size pos) then false
  else if bool_decide (pos ∈ snake_body) then false
  else true.

(** [board[y][x] = v] on a list of rows. *)
Definition set_cell (board : list (list Z)) (pos : cell) (v : Z)
  : list (list Z) :=
  alter (λ row, <[Z.to_nat pos.1 := v]> row) (Z.to_nat pos.2) board.

(** [board[y][x]] *)
Definition get_cell (board : list (list Z)) (pos : cell) : option Z :=
  row ← board !! Z.to_nat pos.2; row !! Z.to_nat pos.1.

(** [encode_board]: [np.zeros((size, size), dtype=int)] refuses a negative
    size; snake cells are written first, the food cell last. *)
Definition encode_board (size : Z) (snake_body : list cell)
    (food_position : cell) : outcome (list (list Z)) :=
  if size <? 0 then Fail (ValueError "negative dimensions are not allowed")
  else
    let board := replicate (Z.to_nat size) (replicate (Z.to_nat size) 0) in
    let board :=
      foldl (λ board pos, if in_bounds size pos then set_cell board pos 1
                          else board)
            board snake_body in
    let board :=
      if in_bounds size food_position then set_cell board food_position 2
      else board in
    Return board.

(** ** snake_env.py *)

#[global] Instance outcome_ret : MRet outcome := λ A a, Return a.
#[global] Instance outcome_bind : MBind outcome := λ A B k m,
  match m with
  | Return a => k a
  | Fail e => Fail e
  | Pending => Pending
  end.

(** The attributes of a [SnakeEnv]; [get_state] returns the same values. *)
Record SnakeEnv : Type := {
  env_size : Z;
  env_snake : list cell;
  env_direction : Direction;
  env_food : cell;
  env_score : Z;
  env_done : bool
}.

(** [_generate_food]: draw cells until one is not on the snake.  [draws]
    is what the random source yields, one cell per round of the loop;
    [random.randint(0, size - 1)] has nothing to draw from when [size] is
    not positive. *)
Fixpoint food_loop (snake : list cell) (draws : list cell)
  : outcome (cell * list cell) :=
  match draws with
  | [] => Pending
  | new_food :: draws =>
    if bool_decide (new_food ∉ snake) then Return (new_food, draws)
    else food_loop snake draws
  end.

Definition generate_food (size : Z) (snake : list cell) (draws : list cell)
  : outcome (cell * list cell) :=
  if size <=? 0 then Fail (ValueError "empty range for randrange()")
  else food_loop snake draws.

(** [SnakeEnv(size)] and [reset]: the snake starts at (5,5),(5,6) whatever
    the size. *)
Definition new_env (size : Z) (draws : list cell)
  : outcome (SnakeEnv * list cell) :=
  let snake := [(5, 5); (5, 6)] in
  '(food, draws) ← generate_food size snake draws;
  Return ({| env_size := size; env_snake := snake; env_direction := UP;
             env_food := food; env_score := 0; env_done := false |}, draws).

Definition set_done (env : SnakeEnv) : SnakeEnv :=
  {| env_size := env_size env; env_snake := env_snake env;
     env_direction := env_direction env; env_food := env_food env;
     env_score := env_score env; env_done := true |}.

(** [step]: the new state, the reward, the done flag, the message of the
    info dict (if any) and the draws left over. *)
Definition step_env (env : SnakeEnv) (action_dir : Direction)
    (draws : list cell)
  : outcome (SnakeEnv * Z * bool * option string * list cell) :=
  if env_done env
  then Fail (ValueError "Game is over, cannot take further steps.")
  else
    let env := {| env_size := env_size env; env_snake := env_snake env;
                  env_direction := action_dir; env_food := env_food env;
                  env_score := env_score env; env_done := env_done env |} in
    match env_snake env with
    | [] => Fail (Builtin IndexError)
    | head :: _ =>
      let new_head := move head (env_direction env) in
      if negb (in_bounds (env_size env) new_head) then
        Return (set_done env, -10, true, Some "Wall collision"%string, draws)
      else if bool_decide (new_head ∈ removelast (env_snake env)) then
        Return (set_done env, -10, true, Some "Self collision"%string, draws)
      else
        moved ←
          (if bool_decide (new_head = env_food env) then
             let snake := new_head :: env_snake env in
             '(food, draws) ← generate_food (env_size env) snake draws;
             Return ({| env_size := env_size env; env_snake := snake;
                        env_direction := env_direction env; env_food := food;
                        env_score := env_score env + 1;
                        env_done := env_done env |}, 10, draws)
           else
             Return ({| env_size := env_size env;
                        env_snake := removelast (new_head :: env_snake env);
                        env_direction := env_direction env;
                        env_food := env_food env;
                        env_score := env_score env;
                        env_done := env_done env |}, -1, draws));
        let env := moved.1.1 in
        if Z.of_nat (length (env_snake env)) =? env_size env * env_size env
        then Return (set_done env, 100, true,
                     Some "Game completed successfully"%string, moved.2)
        else Return (env, moved.1.2, env_done env, None, moved.2)
    end.

(** The three ways [step] rewrites the environment. *)
Definition turned (env : SnakeEnv) (action_dir : Direction) : SnakeEnv :=
  {| env_size := env_size env; env_snake := env_snake env;
     env_direction := action_dir; env_food := env_food env;
     env_score := env_score env; env_done := env_done env |}.

Definition fed (env : SnakeEnv) (new_head food : cell) : SnakeEnv :=
  {| env_size := env_size env; env_snake := new_head :: env_snake env;
     env_direction := env_direction env; env_food := food;
     env_score := env_score env + 1; env_done := env_done env |}.

Definition crawled (env : SnakeEnv) (new_head : cell) : SnakeEnv :=
  {| env_size := env_size env;
     env_snake := removelast (new_head :: env_snake env);
     env_direction := env_direction env; env_food := env_food env;
     env_score := env_score env; env_done := env_done env |}.

(** The last statements of [step]: the board-full test and the return. *)
Definition finish (env : SnakeEnv) (reward : Z) (draws : list cell)
  : outcome (SnakeEnv * Z * bool * option string * list cell) :=
  if Z.of_nat (length (env_snake env)) =? env_size env * env_size env
  then Return (set_done env, 100, true,
               Some "Game completed successfully"%string, draws)
  else Return (env, reward, env_done env, None, draws).

(** Each cell of the snake is one move from the cell behind it. *)
Fixpoint linked (snake : list cell) : Prop :=
  match snake with
  | a :: (b :: _) as rest => adjacent b a ∧ linked rest
  | _ => True
  end.

(** The states the game produces: a snake on the board that does not touch
    itself, and food on a free cell of the board. *)
Definition env_ok (env : SnakeEnv) : Prop :=
  env_snake env ≠ []
  ∧ NoDup (env_snake env)
  ∧ Forall (λ c, in_bounds (env_size env) c = true) (env_snake env)
  ∧ linked (env_snake env)
  ∧ in_bounds (env_size env) (env_food env) = true
  ∧ env_food env ∉ env_snake env.

(** What [random.randint(0, size - 1)] can yield. *)
Definition in_range (size : Z) (draws : list cell) : Prop :=
  Forall (λ c, in_bounds size c = true) draws.

(** ** safety_logic.py: simulate_n_steps

    The loop returns body, direction, food, total reward and the done flag;
    the food is [None] once eaten. *)
Fixpoint simulate_loop (steps : nat) (i : nat)
    (action_sequence : list Direction) (board_size : Z)
    (temp_snake_body : list cell) (temp_direction : Direction)
    (temp_food_pos : option cell) (total_reward : Z)
  : result (list cell * Direction * option cell * Z * bool) :=
  match steps with
  | O => Ok (temp_snake_body, temp_direction, temp_food_pos, total_reward,
             false)
  | S steps =>
    let action := default temp_direction (action_sequence !! i) in
    match temp_snake_body with
    | [] => Raise IndexError
    | head :: _ =>
      let new_head := move head action in
      if is_collision new_head board_size temp_snake_body then
        Ok (temp_snake_body, temp_direction, temp_food_pos,
            total_reward - 100, true)
      else
        let grown := new_head :: temp_snake_body in
        if bool_decide (Some new_head ≠ temp_food_pos) then
          simulate_loop steps (S i) action_sequence board_size
                        (removelast grown) action temp_food_pos
                        (total_reward + -1)
        else
          simulate_loop steps (S i) action_sequence board_size
                        grown action None (total_reward + 10 + -1)
    end
  end.

Definition simulate_n_steps (snake_body : list cell) (direction : Direction)
    (food_position : option cell) (board_size : Z)
    (action_sequence : list Direction) (n_steps : Z)
  : result (list cell * Direction * option cell * Z * bool) :=
  simulate_loop (Z.to_nat n_steps) 0 action_sequence board_size
                snake_body direction food_position 0.

(** ** game_rules.py

    The directions are strings here.  The [isinstance] tests of
    [GameState] hold by typing and are left out. *)

Definition get_movement_rules : gmap string (Z * Z) :=
  {[ "UP" := (0, -1); "DOWN" := (0, 1); "LEFT" := (-1, 0);
     "RIGHT" := (1, 0) ]}.

Record GameState : Type := {
  gs_snake_body : list cell;
  gs_food_position : cell;
  gs_current_direction : string;
  gs_board_width : Z;
  gs_board_height : Z;
  gs_score : Z
}.

(** [GameState(snake_body, food_position, current_direction, ...)] *)
Definition new_game_state (snake_body : list cell) (food_position : cell)
    (current_direction : string) (width height : Z) : outcome GameState :=
  if bool_decide (current_direction ∉ ["UP"; "DOWN"; "LEFT"; "RIGHT"])
  then Fail (ValueError "Invalid current_direction.")
  else Return {| gs_snake_body := snake_body;
                 gs_food_position := food_position;
                 gs_current_direction := current_direction;
                 gs_board_width := width; gs_board_height := height;
                 gs_score := Z.of_nat (length snake_body) - 3 |}.

(** [ActionSpace]: [get_all_actions] and [get_relative_actions]. *)
Definition get_all_actions : list string := ["UP"; "DOWN"; "LEFT"; "RIGHT"].

Definition get_relative_actions : list string :=
  ["STRAIGHT"; "LEFT_TURN"; "RIGHT_TURN"].

Definition direction_map : gmap string (gmap string string) :=
  {[ "UP" := {[ "STRAIGHT" := "UP"; "LEFT_TURN" := "LEFT";
                "RIGHT_TURN" := "RIGHT" ]};
     "DOWN" := {[ "STRAIGHT" := "DOWN"; "LEFT_TURN" := "RIGHT";
                  "RIGHT_TURN" := "LEFT" ]};
     "LEFT" := {[ "STRAIGHT" := "LEFT"; "LEFT_TURN" := "DOWN";
                  "RIGHT_TURN" := "UP" ]};
     "RIGHT" := {[ "STRAIGHT" := "RIGHT"; "LEFT_TURN" := "UP";
                   "RIGHT_TURN" := "DOWN" ]} ]}.

Definition get_absolute_direction (current_direction relative_action : string)
  : outcome string :=
  match direction_map !! current_direction with
  | None =>
    Fail (ValueError ("Invalid current_direction: " +:+ current_direction))
  | Some turns =>
    match turns !! relative_action with
    | None =>
      Fail (ValueError ("Invalid relative_action: " +:+ relative_action))
    | Some absolute => Return absolute
    end
  end.

(** What a relative action does to a movement vector, on a board whose y axis
    points down. *)
Definition turn_vector (relative_action : string) (v : Z * Z) : Z * Z :=
  if bool_decide (relative_action = "LEFT_TURN") then (v.2, - v.1)
  else if bool_decide (relative_action = "RIGHT_TURN") then (- v.2, v.1)
  else v.

(** [Direction.name] *)
Definition name (d : Direction) : string :=
  match d with
  | UP => "UP"
  | DOWN => "DOWN"
  | LEFT => "LEFT"
  | RIGHT => "RIGHT"
  end.

(** The states of a game: what [SnakeEnv(size)] builds, and what [step]
    returns from them, whatever the random source yields. *)
Inductive plays (size : Z) : SnakeEnv → Prop :=
  | plays_new draws env rest :
      new_env size draws = Return (env, rest) → plays size env
  | plays_step env action draws env' reward flag info rest :
      plays size env →
      step_env env action draws = Return (env', reward, flag, info, rest) →
      plays size env'.

(** ** snake_env.py: get_state

    The dict that [get_state] returns and [log_step] receives.  The
    direction in it is an object of some [Direction] class; that of an
    environment is of the class of snake_env.py. *)
Record state_dict : Type := {
  sd_snake_body : list cell;
  sd_food_position : cell;
  sd_direction : direction_object;
  sd_score : Z;
  sd_board_size : Z;
  sd_done : bool
}.


(** ** evaluation_logger.py

    The readings of the clock are arguments.  [_serialize_state] writes the
    cells as lists, and the direction by name when it is an instance of the
    [Direction] class of evaluation_logger.py; a direction of another class
    stays the object it is. *)

Record serialized_state : Type := {
  ser_snake_body : list (list Z);
  ser_food_position : list Z;
  ser_direction : string + direction_object;
  ser_score : Z;
  ser_board_size : Z;
  ser_done : bool
}.

Definition serialize_state (state : state_dict) : serialized_state :=
  {| ser_snake_body := (λ pos : cell, [pos.1; pos.2]) <$> sd_snake_body state;
     ser_food_position :=
       [(sd_food_position state).1; (sd_food_position state).2];
     ser_direction :=
       if bool_decide (class_of (sd_direction state)
                       = evaluation_logger_Direction)
       then inl (name (member_of (sd_direction state)))
       else inr (sd_direction state);
     ser_score := sd_score state;
     ser_board_size := sd_board_size state;
     ser_done := sd_done state |}.

Record step_entry : Type := {
  step_number : Z;
  state_before : serialized_state;
  action_taken : string;
  step_reward : Z;
  state_after : serialized_state;
  step_done : bool;
  step_info : option string
}.

Record game_logs : Type := {
  game_id : option string;
  start_time : option string;
  end_time : option string;
  log_board_size : option Z;
  final_score : option Z;
  survival_time : option Z;
  cause_of_death : option string;
  log_steps : list step_entry
}.

Record GameLogger : Type := {
  log_dir : string;
  logs : game_logs;
  current_game_id : option string
}.

(** [GameLogger(log_dir)] *)
Definition new_logger (dir : string) : GameLogger :=
  {| log_dir := dir;
     logs := {| game_id := None; start_time := None; end_time := None;
                log_board_size := None; final_score := None;
                survival_time := None; cause_of_death := None;
                log_steps := [] |};
     current_game_id := None |}.

(** [stamp] and [now] are the two readings of [datetime.now()]. *)
Definition start_new_game (logger : GameLogger) (size : Z)
    (stamp now : string) : GameLogger :=
  {| log_dir := log_dir logger;
     logs := {| game_id := Some stamp; start_time := Some now;
                end_time := None; log_board_size := Some size;
                final_score := Some 0; survival_time := Some 0;
                cause_of_death := None; log_steps := [] |};
     current_game_id := Some stamp |}.

Definition log_step (logger : GameLogger) (before : state_dict)
    (action : Direction) (reward : Z) (after : state_dict) (flag : bool)
    (info : option string) : outcome GameLogger :=
  match current_game_id logger with
  | None => Fail (RuntimeError "Call start_new_game() before logging steps.")
  | Some _ =>
    let old := logs logger in
    let steps :=
      log_steps old
      ++ [{| step_number := Z.of_nat (length (log_steps old));
             state_before := serialize_state before;
             action_taken := name action;
             step_reward := reward;
             state_after := serialize_state after;
             step_done := flag;
             step_info := info |}] in
    Return {| log_dir := log_dir logger;
              logs := {| game_id := game_id old;
                         start_time := start_time old;
                         end_time := end_time old;
                         log_board_size := log_board_size old;
                         final_score := final_score old;
                         survival_time := Some (Z.of_nat (length steps));
                         cause_of_death := cause_of_death old;
                         log_steps := steps |};
              current_game_id := current_game_id logger |}
  end.

Definition end_game (logger : GameLogger) (score : Z) (cause : string)
    (now : string) : outcome GameLogger :=
  match current_game_id logger with
  | None =>
    Fail (RuntimeError "Call start_new_game() before ending the game.")
  | Some _ =>
    let old := logs logger in
    Return {| log_dir := log_dir logger;
              logs := {| game_id := game_id old;
                         start_time := start_time old;
                         end_time := Some now;
                         log_board_size := log_board_size old;
                         final_score := Some score;
                         survival_time := survival_time old;
                         cause_of_death := Some cause;
                         log_steps := log_steps old |};
              current_game_id := current_game_id logger |}
  end.

(** The loggers a program can hold: a fresh one, and what the calls above
    return from them. *)
Inductive logged : GameLogger → Prop :=
  | logged_new dir : logged (new_logger dir)
  | logged_start logger size stamp now :
      logged logger → logged (start_new_game logger size stamp now)
  | logged_step logger before action reward after flag info logger' :
      logged logger →
      log_step logger before action reward after flag info = Return logger' →
      logged logger'
  | logged_end logger score cause now logger' :
      logged logger →
      end_game logger score cause now = Return logger' →
      logged logger'.

(** * Safety predicate *)

Lemma in_bounds_spec size pos :
  in_bounds size pos = true ↔ (0 ≤ pos.1 < size ∧ 0 ≤ pos.2 < size).
Proof. unfold in_bounds. rewrite !andb_true_iff. lia. Qed.

Lemma in_bounds_false size pos :
  in_bounds size pos = false ↔ ¬ (0 ≤ pos.1 < size ∧ 0 ≤ pos.2 < size).
Proof. rewrite <- in_bounds_spec. destruct (in_bounds size pos); naive_solver. Qed.

Lemma removelast_snoc {A} (l : list A) x : removelast (l ++ [x]) = l.
Proof. rewrite removelast_app by done. simpl. by rewrite app_nil_r. Qed.

Lemma elem_of_removelast {A} (l : list A) x :
  x ∈ removelast l ↔ ∃ front tail, l = front ++ [tail] ∧ x ∈ front.
Proof.
  destruct l as [|a l] using rev_ind.
  - simpl. split; [by intros ?%elem_of_nil|].
    intros (front & tail & Heq & _). by destruct front.
  - rewrite removelast_snoc. split.
    + intros Hx. by exists l, a.
    + intros (front & tail & Heq & Hx).
      by apply app_inj_tail in Heq as [-> _].
Qed.

(** C7.  [is_collision pos size body] is true exactly when [pos] lies outside
    the square [0,size) x [0,size) or occurs in the body without its last
    element; in particular every out-of-bounds cell collides, whatever the
    body and the board size. *)
Theorem is_collision_iff pos size body :
  (is_collision pos size body = true ↔
     ¬ (0 ≤ pos.1 < size ∧ 0 ≤ pos.2 < size)
     ∨ ∃ front tail, body = front ++ [tail] ∧ pos ∈ front)
  ∧ (¬ (0 ≤ pos.1 < size ∧ 0 ≤ pos.2 < size) → is_collision pos size body = true).
Proof.
  unfold is_collision. rewrite <- elem_of_removelast, <- in_bounds_false.
  destruct (in_bounds size pos); simpl.
  - destruct (decide (pos ∈ removelast body)) as [Hin|Hout].
    + rewrite bool_decide_eq_true_2 by done. intuition.
    + rewrite bool_decide_eq_false_2 by done. intuition congruence.
  - intuition.
Qed.

Lemma is_collision_iff_witness :
  is_collision (-1, 5) 10 [(5, 5); (5, 6); (5, 7)] = true
  ∧ is_collision (5, 6) 10 [(5, 5); (5, 6); (5, 7)] = true
  ∧ is_collision (5, 7) 10 [(5, 5); (5, 6); (5, 7)] = false.
Proof.
  split; [|split].
  - apply (is_collision_iff (-1, 5) 10 [(5, 5); (5, 6); (5, 7)]). simpl. lia.
  - apply (proj1 (is_collision_iff (5, 6) 10 [(5, 5); (5, 6); (5, 7)])).
    right. exists [(5, 5); (5, 6)], (5, 7). split; [reflexivity|].
    apply list_elem_of_In. simpl. tauto.
  - reflexivity.
Defined.

(** * Obstacle sets *)

Lemma obstacle_set_exempted snake_body exempt :
  obstacle_set snake_body exempt = exempted snake_body exempt.
Proof.
  unfold obstacle_set, exempted.
  generalize (list_to_set snake_body : gset cell) as obstacles.
  induction exempt as [|p exempt IH]; intros obstacles; simpl.
  - set_solver.
  - rewrite IH. case_bool_decide; set_solver.
Qed.

Lemma elem_of_exempted snake_body exempt c :
  c ∈ exempted snake_body exempt ↔ c ∈ snake_body ∧ c ∉ exempt.
Proof. unfold exempted. set_solver. Qed.

(** * Turn cost *)

Lemma path_term_shift cost t path_to_food :
  path_term (cost + t) path_to_food = path_term cost path_to_food + t.
Proof.
  unfold path_term. destruct (truthy path_to_food); [|lia].
  destruct (len path_to_food =? 1); lia.
Qed.

(** The current direction enters the cost through the turn term alone:
    a finite cost is the turn term plus the cost of the same move made
    without turning. *)
Lemma calculate_action_cost_in_turn {isolated_func : Type} globals
    current_head current_direction proposed_action snake_body food_position
    board_size is_collision_func a_star_search_func
    (is_future_isolated_func : isolated_func) find_reachable_areas_bfs_func c :
  calculate_action_cost_in globals current_head current_direction
      proposed_action snake_body food_position board_size
      is_collision_func a_star_search_func is_future_isolated_func
      find_reachable_areas_bfs_func = Ok (Finite c) →
  calculate_action_cost_in globals current_head proposed_action
      proposed_action snake_body food_position board_size
      is_collision_func a_star_search_func is_future_isolated_func
      find_reachable_areas_bfs_func
  = Ok (Finite (c - turn_term current_direction proposed_action)).
Proof.
  unfold calculate_action_cost_in.
  assert (turn_term proposed_action proposed_action = 0) as ->.
  { unfold turn_term, turn_cost. by rewrite bool_decide_eq_true_2. }
  generalize (turn_term current_direction proposed_action) as t. intros t.
  destruct (is_collision_func _ _ _) as [[]| |]; simpl; try done.
  destruct (a_star_search_func _ _ _ snake_body) as [path| |]; simpl;
    try done.
  replace (0 + t) with (0 + 0 + t) by lia. rewrite path_term_shift.
  generalize (path_term (0 + 0) path) as base. intros base.
  destruct (load_global globals "deque"); simpl; try done.
  destruct (last _); simpl; try done.
  destruct (a_star_search_func _ food_position _ _) as [to_food| |]; simpl;
    try done.
  destruct (truthy to_food); simpl.
  { intros [= <-]. do 2 f_equal. lia. }
  destruct (a_star_search_func _ _ _ _) as [to_tail| |]; simpl; try done.
  destruct (negb (truthy to_tail)); simpl.
  2:{ intros [= <-]. do 2 f_equal. lia. }
  destruct (find_reachable_areas_bfs_func _ _ _ _) as [area| |]; simpl;
    try done.
  destruct (area.1 <? _); simpl; intros [= <-]; do 2 f_equal; lia.
Qed.

(** The table of [turn_cost] over the members of its own class: 0 straight
    on, 1 for a quarter turn, 1,000,000 for a reversal; times 5 in the
    cost. *)
Lemma turn_term_table (current_dir candidate_dir : Direction) :
  (candidate_dir = current_dir → turn_term current_dir candidate_dir = 0)
  ∧ (is_perpendicular current_dir candidate_dir →
       turn_term current_dir candidate_dir = 5)
  ∧ (is_opposite current_dir candidate_dir →
       turn_term current_dir candidate_dir = 5000000)
  ∧ (candidate_dir = current_dir
     ∨ is_perpendicular current_dir candidate_dir
     ∨ is_opposite current_dir candidate_dir).
Proof.
  unfold is_perpendicular, is_opposite, turn_term.
  split_and!; destruct current_dir, candidate_dir; vm_compute;
    intuition (try discriminate; try congruence).
Qed.

Lemma turn_cost_obj_own (current_dir next_dir : Direction) :
  turn_cost_obj (Member cost_function_Direction current_dir)
                (Member cost_function_Direction next_dir)
  = turn_cost current_dir next_dir.
Proof. destruct current_dir, next_dir; vm_compute; reflexivity. Qed.

(** The dict has no entry for a member of another class. *)
Lemma dict_get_obj_foreign (current_dir : direction_object) :
  class_of current_dir ≠ cost_function_Direction →
  dict_get_obj opposite_objects current_dir = None.
Proof.
  destruct current_dir as [cls d]. cbn [class_of]. intros Hcls.
  unfold opposite_objects. cbn [dict_get_obj].
  rewrite !bool_decide_eq_false_2; [done|intros [= <- _]; done..].
Qed.

Lemma turn_cost_obj_foreign (current_dir next_dir : direction_object) :
  class_of current_dir ≠ cost_function_Direction →
  turn_cost_obj current_dir next_dir
  = if bool_decide (current_dir = next_dir) then 0 else 1.
Proof.
  intros Hcls. unfold turn_cost_obj.
  rewrite (dict_get_obj_foreign _ Hcls).
  case_bool_decide; [done|]. by rewrite bool_decide_eq_false_2.
Qed.

(** The class of the directions matters to the finite cost alone, and there
    through the turn term alone. *)
Lemma calculate_action_cost_obj_in {isolated_func : Type} globals
    current_head (current_direction proposed_action : direction_object)
    snake_body food_position board_size is_collision_func a_star_search_func
    (is_future_isolated_func : isolated_func) find_reachable_areas_bfs_func :
  calculate_action_cost_obj globals current_head current_direction
      proposed_action snake_body food_position board_size
      is_collision_func a_star_search_func is_future_isolated_func
      find_reachable_areas_bfs_func
  = match calculate_action_cost_in globals current_head
            (member_of current_direction) (member_of proposed_action)
            snake_body food_position board_size
            is_collision_func a_star_search_func is_future_isolated_func
            find_reachable_areas_bfs_func with
    | Ok (Finite c) =>
        Ok (Finite (c - turn_term (member_of current_direction)
                                  (member_of proposed_action)
                    + turn_cost_obj current_direction proposed_action * 5))
    | r => r
    end.
Proof.
  unfold calculate_action_cost_obj, calculate_action_cost_in.
  generalize (turn_term (member_of current_direction)
                        (member_of proposed_action)) as t.
  generalize (turn_cost_obj current_direction proposed_action * 5) as u.
  intros u t.
  destruct (is_collision_func _ _ _) as [[]| |]; simpl; try done.
  destruct (a_star_search_func _ _ _ snake_body) as [path| |]; simpl;
    try done.
  replace (0 + u) with (0 + t + (u - t)) by lia. rewrite path_term_shift.
  generalize (path_term (0 + t) path) as base. intros base.
  destruct (load_global globals "deque"); simpl; try done.
  destruct (last _); simpl; try done.
  destruct (a_star_search_func _ food_position _ _) as [to_food| |]; simpl;
    try done.
  destruct (truthy to_food); simpl.
  { do 2 f_equal. lia. }
  destruct (a_star_search_func _ _ _ _) as [to_tail| |]; simpl; try done.
  destruct (negb (truthy to_tail)); simpl.
  2:{ do 2 f_equal. lia. }
  destruct (find_reachable_areas_bfs_func _ _ _ _) as [area| |]; simpl;
    try done.
  destruct (area.1 <? _); simpl; do 2 f_equal; lia.
Qed.

(** C5.  The table holds for directions of cost_function.py's own class and
    for no other.  Called with the directions of snake_env.py, as the test of
    the module and policy_agent.py do, [turn_cost] finds no entry in its dict
    and scores a reversal as any other turn: 1, so that 5 is added to the
    cost where the table (and the assert of the test) has 1,000,000.  With
    [deque] bound the cost of the reversal below is 7 for the directions of
    snake_env.py and 5,000,002 for those of cost_function.py; as the module
    is, the call raises [NameError]. *)
Theorem turn_cost_obj_reversal_scores_one :
  turn_cost_obj (Member snake_env_Direction UP)
                (Member snake_env_Direction DOWN) = 1
  ∧ is_opposite UP DOWN
  ∧ (∀ cls current_dir candidate_dir,
       cls ≠ cost_function_Direction →
       turn_cost_obj (Member cls current_dir) (Member cls candidate_dir) * 5
       = if bool_decide (candidate_dir = current_dir) then 0 else 5)
  ∧ (∀ current_dir candidate_dir,
       let term :=
         turn_cost_obj (Member cost_function_Direction current_dir)
                       (Member cost_function_Direction candidate_dir) * 5 in
       (candidate_dir = current_dir → term = 0)
       ∧ (is_perpendicular current_dir candidate_dir → term = 5)
       ∧ (is_opposite current_dir candidate_dir → term = 5000000)
       ∧ (candidate_dir = current_dir
          ∨ is_perpendicular current_dir candidate_dir
          ∨ is_opposite current_dir candidate_dir))
  ∧ (∀ (isolated_func : Type) globals head current_dir candidate_dir body
       food size is_collision_func a_star_search_func
       (is_future_isolated_func : isolated_func)
       find_reachable_areas_bfs_func c,
       calculate_action_cost_obj globals head current_dir candidate_dir
         body food size is_collision_func a_star_search_func
         is_future_isolated_func find_reachable_areas_bfs_func
       = Ok (Finite c) →
       calculate_action_cost_obj globals head candidate_dir candidate_dir
         body food size is_collision_func a_star_search_func
         is_future_isolated_func find_reachable_areas_bfs_func
       = Ok (Finite (c - turn_cost_obj current_dir candidate_dir * 5)))
  ∧ calculate_action_cost_obj ("deque" :: cost_function_globals)
      (1, 1) (Member snake_env_Direction UP) (Member snake_env_Direction DOWN)
      [(1, 1); (1, 2)] (1, 3) 10
      (λ pos size body, Ok (is_collision pos size body))
      a_star_search is_future_isolated find_reachable_areas_bfs
    = Ok (Finite 7)
  ∧ calculate_action_cost_obj ("deque" :: cost_function_globals)
      (1, 1) (Member cost_function_Direction UP)
      (Member cost_function_Direction DOWN)
      [(1, 1); (1, 2)] (1, 3) 10
      (λ pos size body, Ok (is_collision pos size body))
      a_star_search is_future_isolated find_reachable_areas_bfs
    = Ok (Finite 5000002)
  ∧ calculate_action_cost_obj cost_function_globals
      (1, 1) (Member snake_env_Direction UP) (Member snake_env_Direction DOWN)
      [(1, 1); (1, 2)] (1, 3) 10
      (λ pos size body, Ok (is_collision pos size body))
      a_star_search is_future_isolated find_reachable_areas_bfs
    = Raise (NameError "deque").
Proof.
  split_and!.
  - vm_compute; reflexivity.
  - split; reflexivity.
  - intros cls current_dir candidate_dir Hcls.
    rewrite turn_cost_obj_foreign by done.
    destruct (decide (candidate_dir = current_dir)) as [->|Hne].
    + by rewrite !bool_decide_eq_true_2.
    + rewrite !bool_decide_eq_false_2; [done|done|]. intros [= ?]. done.
  - intros current_dir candidate_dir. cbn zeta.
    rewrite turn_cost_obj_own. apply turn_term_table.
  - intros isolated_func globals head current_dir candidate_dir body food size
      is_collision_func a_star_search_func is_future_isolated_func
      find_reachable_areas_bfs_func c.
    rewrite !calculate_action_cost_obj_in.
    destruct (calculate_action_cost_in _ _ (member_of current_dir) _ _ _ _ _ _
                _ _) as [[c'|]| |] eqn:Hcost; try done.
    intros [= <-].
    rewrite (calculate_action_cost_in_turn _ _ _ _ _ _ _ _ _ _ _ _ Hcost).
    assert (turn_cost_obj candidate_dir candidate_dir = 0) as ->.
    { unfold turn_cost_obj. by rewrite bool_decide_eq_true_2. }
    assert (turn_term (member_of candidate_dir) (member_of candidate_dir) = 0)
      as ->.
    { unfold turn_term, turn_cost. by rewrite bool_decide_eq_true_2. }
    do 2 f_equal. lia.
  - vm_compute; reflexivity.
  - vm_compute; reflexivity.
  - vm_compute; reflexivity.
Qed.

(** * Cost model: the collision veto *)

Lemma calculate_action_cost_in_infinite
    {isolated_func : Type} globals current_head current_direction
    proposed_action snake_body food_position board_size
    a_star_search_func (is_future_isolated_func : isolated_func)
    find_reachable_areas_bfs_func :
  calculate_action_cost_in globals current_head current_direction
      proposed_action snake_body food_position board_size
      (λ pos size body, Ok (is_collision pos size body))
      a_star_search_func is_future_isolated_func
      find_reachable_areas_bfs_func = Ok Infinity
  ↔ is_collision (move current_head proposed_action) board_size snake_body
    = true.
Proof.
  unfold calculate_action_cost_in. simpl.
  destruct (is_collision _ _ _); [done|].
  split; [|done]. intros H. exfalso. revert H.
  repeat match goal with
         | |- context [mbind _ ?m] =>
             lazymatch m with
             | Ok _ => fail
             | _ => destruct m; simpl; try discriminate
             end
         | |- context [match ?m with _ => _ end] =>
             destruct m; simpl; try discriminate
         end.
Qed.

(** C1.  Whatever the module globals and whatever helpers are passed for the
    path and area searches, [calculate_action_cost] returns [+infinity]
    exactly when [is_collision] holds of the next head: the collision check
    comes first and returns at once, and no later path yields infinity. *)
Theorem calculate_action_cost_infinite_iff_collision
    {isolated_func : Type} globals current_head current_direction
    proposed_action snake_body food_position board_size
    a_star_search_func (is_future_isolated_func : isolated_func)
    find_reachable_areas_bfs_func :
  calculate_action_cost_in globals current_head current_direction
      proposed_action snake_body food_position board_size
      (λ pos size body, Ok (is_collision pos size body))
      a_star_search_func is_future_isolated_func
      find_reachable_areas_bfs_func = Ok Infinity
  ↔ is_collision (move current_head proposed_action) board_size snake_body
    = true.
Proof. apply calculate_action_cost_in_infinite. Qed.

(** * Board cells *)

Lemma elem_of_board_cells size c :
  c ∈ board_cells size ↔ in_bounds size c = true.
Proof.
  destruct c as [x y]. unfold board_cells.
  rewrite list_elem_of_In.
  rewrite (in_prod_iff (seqZ 0 size) (seqZ 0 size) x y).
  rewrite <- !list_elem_of_In, !elem_of_seqZ, in_bounds_spec. simpl. lia.
Qed.

Lemma length_board_cells size :
  (length (board_cells size) ≤ Z.to_nat (size * size))%nat.
Proof.
  unfold board_cells. rewrite length_prod, !length_seqZ.
  destruct (decide (0 ≤ size)); [|lia].
  rewrite Z2Nat.inj_mul by lia. done.
Qed.

Lemma length_filter_le {A} (P Q : A → Prop) `{!∀ x, Decision (P x)}
    `{!∀ x, Decision (Q x)} (l : list A) :
  (∀ x, Q x → P x) →
  (length (filter Q l) ≤ length (filter P l))%nat.
Proof.
  intros HQP. induction l as [|a l IH]; [done|].
  rewrite !filter_cons.
  destruct (decide (Q a)), (decide (P a)); simpl; try lia.
  naive_solver.
Qed.

Lemma length_filter_lt {A} (P Q : A → Prop) `{!∀ x, Decision (P x)}
    `{!∀ x, Decision (Q x)} (l : list A) x :
  (∀ x, Q x → P x) → x ∈ l → P x → ¬ Q x →
  (length (filter Q l) < length (filter P l))%nat.
Proof.
  intros HQP Hx HP HQ. induction l as [|a l IH]; [by apply elem_of_nil in Hx|].
  rewrite !filter_cons. apply elem_of_cons in Hx as [<-|Hx].
  - pose proof (length_filter_le P Q l HQP).
    destruct (decide (Q x)), (decide (P x)); simpl; try lia; done.
  - specialize (IH Hx).
    destruct (decide (Q a)), (decide (P a)); simpl; try lia.
    naive_solver.
Qed.

(** * Flood fill: correctness for any traversal order *)

Lemma step_iff size obstacles a b :
  stepb size obstacles a b = true ↔ step size obstacles a b.
Proof.
  unfold stepb, step, adjacent.
  rewrite !andb_true_iff, !bool_decide_eq_true, list_elem_of_fmap.
  split.
  - intros [[(d & -> & _) ?] ?]. eauto.
  - intros [[d ->] [? ?]]. split_and!; [|done..].
    exists d. split; [done|]. destruct d; set_solver.
Qed.

Lemma fills_same_count size obstacles start l1 l2 :
  fills size obstacles start l1 → fills size obstacles start l2 →
  l1 ≡ₚ l2 ∧ length l1 = length l2.
Proof.
  intros [Hnd1 H1] [Hnd2 H2].
  assert (l1 ≡ₚ l2) as Hperm.
  { apply NoDup_Permutation; [done..|]. intros c. by rewrite H1, H2. }
  split; [done|]. by apply Permutation_length.
Qed.

Section flood_correct.
Variable push : list cell → cell → list cell.
Variable dirs : list Direction.
Hypothesis push_perm : ∀ q c, push q c ≡ₚ c :: q.
Hypothesis dirs_all : ∀ d, d ∈ dirs.
Variable size : Z.
Variable obstacles : gset cell.

Lemma grows_refl curr st : grows size obstacles curr st st.
Proof.
  exists []. split_and!; [done| |constructor| |done].
  - simpl. set_solver.
  - intros n Hn. by apply elem_of_nil in Hn.
Qed.

Lemma grows_seen curr st st' :
  grows size obstacles curr st st' → st.2 ⊆ st'.2.
Proof. intros (new & _ & -> & _). set_solver. Qed.

Lemma grows_trans curr st1 st2 st3 :
  grows size obstacles curr st1 st2 → grows size obstacles curr st2 st3 →
  grows size obstacles curr st1 st3.
Proof.
  intros (n1 & Hp1 & Hs1 & Hnd1 & Hn1 & Hm1) (n2 & Hp2 & Hs2 & Hnd2 & Hn2 & Hm2).
  exists (n2 ++ n1). split_and!.
  - by rewrite Hp2, Hp1, (assoc_L (++)).
  - rewrite Hs2, Hs1, list_to_set_app_L. set_solver.
  - apply NoDup_app. split_and!; [done| |done].
    intros x Hx2 Hx1. apply Hn2 in Hx2 as [Hx2 _].
    apply Hx2. rewrite Hs1. set_solver.
  - intros n [Hn|Hn]%elem_of_app.
    + apply Hn2 in Hn as [Hn ?]. split; [|done].
      rewrite Hs1 in Hn. set_solver.
    + by apply Hn1.
  - lia.
Qed.

Lemma flood_visit_grows curr st d :
  grows size obstacles curr st (flood_visit push size obstacles curr st d).
Proof.
  unfold flood_visit.
  destruct (in_bounds size (move curr d)) eqn:Hb; simpl; [|apply grows_refl].
  destruct (decide (move curr d ∈ st.2)) as [Hseen|Hseen].
  { rewrite (bool_decide_eq_false_2 (move curr d ∉ st.2)) by tauto.
    apply grows_refl. }
  rewrite (bool_decide_eq_true_2 (move curr d ∉ st.2)) by done. simpl.
  case_bool_decide as Hobs; [|apply grows_refl].
  exists [move curr d]. simpl. split_and!.
  - apply push_perm.
  - set_solver.
  - apply NoDup_singleton.
  - intros n ->%list_elem_of_singleton. split; [done|].
    split_and!; [by exists d|done..].
  - rewrite (Permutation_length (push_perm _ _)). simpl.
    assert (unseen size ({[move curr d]} ∪ st.2) < unseen size st.2)%nat; [|lia].
    unfold unseen.
    apply (length_filter_lt _ _ _ (move curr d)); [set_solver| |done|set_solver].
    by apply elem_of_board_cells.
Qed.

Lemma flood_visit_covers curr st d :
  step size obstacles curr (move curr d) →
  move curr d ∈ (flood_visit push size obstacles curr st d).2.
Proof.
  intros (_ & Hb & Hobs). unfold flood_visit. rewrite Hb. simpl.
  rewrite (bool_decide_eq_true_2 (move curr d ∉ obstacles)) by done.
  rewrite andb_true_r.
  case_bool_decide as Hseen; simpl; [set_solver|].
  done.
Qed.

Lemma flood_fold_grows curr ds st :
  let st' := foldl (flood_visit push size obstacles curr) st ds in
  grows size obstacles curr st st'
  ∧ ∀ d, d ∈ ds → step size obstacles curr (move curr d) →
         move curr d ∈ st'.2.
Proof.
  revert st. induction ds as [|d ds IH]; intros st; simpl.
  - split; [apply grows_refl|]. intros d Hd. by apply elem_of_nil in Hd.
  - destruct (IH (flood_visit push size obstacles curr st d)) as [Hg Hc].
    split.
    + eapply grows_trans; [apply flood_visit_grows|done].
    + intros d' [->|Hd']%elem_of_cons Hstep; [|by apply Hc].
      apply (grows_seen _ _ _ Hg). by apply flood_visit_covers.
Qed.

Lemma flood_inv_done start seen filled :
  flood_inv size obstacles start [] seen filled →
  fills size obstacles start filled.
Proof.
  intros (Hnd & Hseen & Hreach & Hclosed & Hstart).
  rewrite app_nil_r in *. split; [done|].
  intros c. split; [by apply Hreach|].
  revert c. apply rtc_ind_r.
  - by apply Hseen.
  - intros c n _ Hstep Hc. apply Hseen. by eapply Hclosed.
Qed.

Lemma flood_inv_step start curr frontier seen filled :
  flood_inv size obstacles start (curr :: frontier) seen filled →
  let st := foldl (flood_visit push size obstacles curr) (frontier, seen) dirs in
  flood_inv size obstacles start st.1 st.2 (filled ++ [curr])
  ∧ (unseen size st.2 + length st.1 ≤ unseen size seen + length frontier)%nat.
Proof.
  intros (Hnd & Hseen & Hreach & Hclosed & Hstart) st.
  destruct (flood_fold_grows curr dirs (frontier, seen)) as [Hg Hcov].
  fold st in Hg, Hcov.
  destruct Hg as (new & Hp & Hs & Hndn & Hnew & Hm). simpl in *.
  split; [|done].
  assert (filled ++ curr :: frontier = (filled ++ [curr]) ++ frontier) as Heq
    by by rewrite <- (assoc_L (++)).
  rewrite Heq in *. clear Heq.
  split_and!.
  - rewrite Hp. rewrite (Permutation_app_comm new).
    rewrite (assoc_L (++)). apply NoDup_app. split_and!; [done| |done].
    intros x Hx Hxn. apply Hnew in Hxn as [Hxn _]. by apply Hxn, Hseen.
  - intros c. rewrite Hs, Hp. rewrite elem_of_union, elem_of_list_to_set.
    rewrite Hseen. rewrite !elem_of_app. tauto.
  - intros c. rewrite Hp. rewrite !elem_of_app.
    intros [Hc|[Hc|Hc]].
    + apply Hreach. set_solver.
    + apply Hnew in Hc as [_ Hstep].
      eapply rtc_r; [|done]. apply Hreach. set_solver.
    + apply Hreach. set_solver.
  - intros c n [Hc| ->%list_elem_of_singleton]%elem_of_app Hstep.
    + rewrite Hs. apply elem_of_union_r. by eapply Hclosed.
    + destruct Hstep as [[d ->] ?]. apply Hcov; [done|].
      split; [by exists d|done].
  - rewrite Hs. set_solver.
Qed.

Lemma flood_loop_fills start fuel frontier seen filled :
  flood_inv size obstacles start frontier seen filled →
  (unseen size seen + length frontier < fuel)%nat →
  ∃ cells, flood_loop push dirs fuel size obstacles frontier seen filled
           = Ok cells
           ∧ fills size obstacles start cells.
Proof.
  revert frontier seen filled.
  induction fuel as [|fuel IH]; intros frontier seen filled Hinv Hfuel; [lia|].
  destruct frontier as [|curr frontier]; simpl.
  - eexists. split; [done|]. by eapply flood_inv_done.
  - apply flood_inv_step in Hinv as [Hinv Hm]. simpl in Hfuel.
    apply IH; [done|lia].
Qed.

Lemma flood_inv_init start :
  flood_inv size obstacles start [start] {[start]} [].
Proof.
  split_and!; simpl.
  - apply NoDup_singleton.
  - intros c. set_solver.
  - intros c ->%list_elem_of_singleton. apply rtc_refl.
  - intros c n Hc. by apply elem_of_nil in Hc.
  - set_solver.
Qed.

Lemma unseen_le seen : (unseen size seen ≤ Z.to_nat (size * size))%nat.
Proof.
  unfold unseen. etrans; [apply length_filter|apply length_board_cells].
Qed.

Lemma flood_fill_fills start :
  ∃ cells, flood_fill push dirs start size obstacles = Ok cells
           ∧ fills size obstacles start cells.
Proof.
  apply flood_loop_fills; [apply flood_inv_init|].
  pose proof (unseen_le {[start]}). unfold bfs_fuel. simpl. lia.
Qed.
End flood_correct.

(** * find_reachable_areas_bfs *)

(** The source loop is the flood fill with a FIFO frontier and the enum's
    neighbour order, plus a counter. *)
Lemma reachable_loop_flood fuel size obstacles q seen count cells :
  reachable_loop fuel size obstacles q seen count cells =
  match flood_loop (λ q c, q ++ [c]) all_directions fuel size obstacles
                   q seen cells with
  | Ok filled =>
      Ok (count + Z.of_nat (length filled) - Z.of_nat (length cells), filled)
  | Raise e => Raise e
  | OutOfFuel => OutOfFuel
  end.
Proof.
  revert q seen count cells.
  induction fuel as [|fuel IH]; intros q seen count cells; [done|].
  destruct q as [|curr q]; simpl.
  - do 2 f_equal. lia.
  - change (foldl (bfs_visit id size obstacles curr))
      with (foldl (flood_visit (λ q c, q ++ [c]) size obstacles curr)).
    rewrite IH.
    destruct (flood_loop _ _ _ _ _ _ _ _); [|done..].
    do 2 f_equal. rewrite length_app. simpl. lia.
Qed.

Lemma snoc_perm (q : list cell) c : q ++ [c] ≡ₚ c :: q.
Proof. by rewrite Permutation_app_comm. Qed.

Lemma all_directions_all d : d ∈ all_directions.
Proof. destruct d; set_solver. Qed.

Lemma find_reachable_areas_bfs_fills start size body food :
  ∃ cells,
    find_reachable_areas_bfs start size body food
    = Ok (Z.of_nat (length cells), cells)
    ∧ fills size (exempted body [food]) start cells.
Proof.
  unfold find_reachable_areas_bfs.
  rewrite reachable_loop_flood, obstacle_set_exempted.
  destruct (flood_fill_fills (λ q c, q ++ [c]) all_directions snoc_perm
              all_directions_all size (exempted body [food]) start)
    as (cells & Hrun & Hfills).
  unfold flood_fill in Hrun. rewrite Hrun.
  exists cells. split; [|done]. do 2 f_equal. simpl. lia.
Qed.

(** C4.  [find_reachable_areas_bfs] returns a count and a cell list; the
    count is the length of the list, which holds every cell reachable from
    [start] exactly once ([start] included), moving over in-bounds cells
    that are not body cells other than the food cell.  The depth-first
    reference flood fill visits the same number of cells, and so does a
    flood fill with any frontier discipline and any neighbour order: count
    and cell set do not depend on the traversal order. *)
Theorem find_reachable_areas_bfs_count start size body food :
  ∃ cells reference,
    find_reachable_areas_bfs start size body food
    = Ok (Z.of_nat (length cells), cells)
    ∧ flood_fill_reference start size body food = Ok reference
    ∧ length cells = length reference
    ∧ cells ≡ₚ reference
    ∧ NoDup cells
    ∧ start ∈ cells
    ∧ (∀ c, c ∈ cells ↔ reachable size (exempted body [food]) start c)
    ∧ (∀ push dirs,
         (∀ q c, push q c ≡ₚ c :: q) → (∀ d, d ∈ dirs) →
         ∃ other, flood_fill push dirs start size (exempted body [food])
                  = Ok other
                  ∧ length other = length cells ∧ other ≡ₚ cells).
Proof.
  destruct (find_reachable_areas_bfs_fills start size body food)
    as (cells & Hrun & Hfills).
  assert (∀ push dirs,
            (∀ q c, push q c ≡ₚ c :: q) → (∀ d, d ∈ dirs) →
            ∃ other, flood_fill push dirs start size (exempted body [food])
                     = Ok other
                     ∧ length other = length cells ∧ other ≡ₚ cells) as Hany.
  { intros push dirs Hpush Hdirs.
    destruct (flood_fill_fills push dirs Hpush Hdirs size
                (exempted body [food]) start) as (other & Hother & Hf).
    exists other. split; [done|].
    destruct (fills_same_count _ _ _ _ _ Hf Hfills). done. }
  destruct (Hany (λ stack c, c :: stack) [RIGHT; LEFT; DOWN; UP])
    as (reference & Href & Hlen & Hperm).
  { done. }
  { intros d. destruct d; set_solver. }
  exists cells, reference. destruct Hfills as [Hnd Hiff].
  split_and!; try done.
  apply Hiff, rtc_refl.
Qed.

Lemma find_reachable_areas_bfs_count_witness :
  ∃ cells reference,
    find_reachable_areas_bfs (0, 0) 3 [(0, 0); (0, 1)] (7, 7)
    = Ok (Z.of_nat (length cells), cells)
    ∧ flood_fill_reference (0, 0) 3 [(0, 0); (0, 1)] (7, 7) = Ok reference
    ∧ length cells = length reference.
Proof.
  destruct (find_reachable_areas_bfs_count (0, 0) 3 [(0, 0); (0, 1)] (7, 7))
    as (cells & reference & Hrun & Href & Hlen & _).
  exists cells, reference. split; [exact Hrun|]. split; [exact Href|exact Hlen].
Defined.

(** * has_path_to_target_bfs *)

Lemma flood_loop_extends push dirs fuel size obstacles frontier seen filled cells :
  flood_loop push dirs fuel size obstacles frontier seen filled = Ok cells →
  ∃ rest, cells = filled ++ rest.
Proof.
  revert frontier seen filled.
  induction fuel as [|fuel IH]; intros frontier seen filled; [done|].
  destruct frontier as [|curr frontier]; simpl.
  - intros [= <-]. exists []. by rewrite app_nil_r.
  - intros (rest & ->)%IH. exists (curr :: rest). by rewrite <- (assoc_L (++)).
Qed.

(** Queue items of the path search project onto the flood fill's queue. *)
Lemma bfs_visit_fst {A} (mk : cell → A) (pos : A → cell) (size : Z)
    (obstacles : gset cell) (curr : cell) (st : list A * gset cell)
    (ds : list Direction) :
  (∀ c, pos (mk c) = c) →
  let st' := foldl (bfs_visit mk size obstacles curr) st ds in
  foldl (flood_visit (λ q c, q ++ [c]) size obstacles curr)
        (pos <$> st.1, st.2) ds
  = (pos <$> st'.1, st'.2).
Proof.
  intros Hpos. revert st. induction ds as [|d ds IH]; intros st; [done|].
  simpl. rewrite <- IH. f_equal.
  unfold bfs_visit, flood_visit. simpl.
  destruct (_ && _); simpl; [|done].
  rewrite fmap_app. simpl. by rewrite Hpos.
Qed.

Lemma has_path_loop_flood fuel target size obstacles q seen filled cells :
  flood_loop (λ q c, q ++ [c]) all_directions fuel size obstacles
             (q.*1) seen filled = Ok cells →
  has_path_loop fuel target size obstacles q seen
  = Ok (bool_decide (target ∈ drop (length filled) cells)).
Proof.
  revert q seen filled.
  induction fuel as [|fuel IH]; intros q seen filled; [done|].
  destruct q as [|[curr path] q];
    cbn [flood_loop has_path_loop fmap list_fmap fst snd].
  - intros [= <-]. rewrite drop_all.
    by rewrite bool_decide_eq_false_2 by apply not_elem_of_nil.
  - intros Hrun.
    destruct (flood_loop_extends _ _ _ _ _ _ _ _ _ Hrun) as [rest ->].
    rewrite <- (assoc_L (++)), drop_app_length.
    cbn [app].
    case_bool_decide as Htarget.
    + subst curr. by rewrite bool_decide_eq_true_2 by apply list_elem_of_here.
    + pose proof (bfs_visit_fst (λ next_pos, (next_pos, path ++ [next_pos]))
                    fst size obstacles curr (q, seen) all_directions) as Hfst.
      cbv zeta in Hfst. cbn [fst snd] in Hfst. rewrite Hfst in Hrun by done.
      cbn [fst snd] in Hrun. apply IH in Hrun. rewrite Hrun. f_equal.
      rewrite drop_app_length.
      apply bool_decide_ext. set_solver.
Qed.

(** [has_path_to_target_bfs] always answers, and answers true exactly when
    [target_pos] is reachable from [start_pos] once both are exempted. *)
Lemma has_path_to_target_bfs_reachable start_pos target_pos size body :
  ∃ b, has_path_to_target_bfs start_pos target_pos size body = Ok b
       ∧ (b = true ↔
          reachable size (exempted body [target_pos; start_pos])
                    start_pos target_pos).
Proof.
  unfold has_path_to_target_bfs. rewrite obstacle_set_exempted.
  destruct (flood_fill_fills (λ q c, q ++ [c]) all_directions snoc_perm
              all_directions_all size (exempted body [target_pos; start_pos])
              start_pos) as (cells & Hrun & Hnd & Hiff).
  eexists. split.
  - by apply (has_path_loop_flood _ _ _ _ [(start_pos, [])] _ [] cells).
  - simpl. by rewrite bool_decide_eq_true, Hiff.
Qed.

(** C9.  When start and target coincide, [has_path_to_target_bfs] returns
    true at the first dequeue, for every board size and body; the obstacle
    set it builds is the body without target and start; and in general the
    loop returns true as soon as the target is at the head of the queue,
    whatever else is queued. *)
Theorem has_path_to_target_bfs_trivial start_pos size body :
  has_path_to_target_bfs start_pos start_pos size body = Ok true
  ∧ (∀ target_pos c,
       c ∈ obstacle_set body [target_pos; start_pos]
       ↔ c ∈ body ∧ c ≠ target_pos ∧ c ≠ start_pos)
  ∧ (∀ fuel target_pos obstacles path q visited,
       has_path_loop (S fuel) target_pos size obstacles
                     ((target_pos, path) :: q) visited = Ok true).
Proof.
  split_and!.
  - unfold has_path_to_target_bfs, bfs_fuel. rewrite Nat.add_comm. simpl.
    by rewrite bool_decide_eq_true_2.
  - intros target_pos c. rewrite obstacle_set_exempted, elem_of_exempted.
    set_solver.
  - intros. simpl. by rewrite bool_decide_eq_true_2.
Qed.

(** * The frontier *)

Lemma entry_lt_true a b : entry_lt a b = true → entry_f a ≤ entry_f b.
Proof.
  unfold entry_lt, entry_compare, lex.
  destruct (entry_f a ?= entry_f b) eqn:Hf; try done.
  - apply Z.compare_eq in Hf. lia.
  - rewrite Z.compare_lt_iff in Hf. lia.
Qed.

Lemma entry_lt_false a b : entry_lt a b = false → entry_f b ≤ entry_f a.
Proof.
  unfold entry_lt, entry_compare, lex.
  destruct (entry_f a ?= entry_f b) eqn:Hf; try done.
  - apply Z.compare_eq in Hf. lia.
  - rewrite Z.compare_gt_iff in Hf. lia.
Qed.

Lemma heap_least_spec best heap :
  heap_least best heap ∈ best :: heap
  ∧ ∀ x, x ∈ best :: heap → entry_f (heap_least best heap) ≤ entry_f x.
Proof.
  revert best. induction heap as [|e heap IH]; intros best; simpl.
  - split; [set_solver|]. intros x ->%list_elem_of_singleton. done.
  - destruct (IH (if entry_lt e best then e else best)) as [Hin Hmin].
    split.
    + destruct (entry_lt e best); set_solver.
    + intros x Hx.
      destruct (entry_lt e best) eqn:Hlt.
      * apply entry_lt_true in Hlt.
        assert (entry_f (heap_least e heap) ≤ entry_f e) by (apply Hmin; set_solver).
        apply elem_of_cons in Hx as [->|Hx]; [lia|]. by apply Hmin.
      * apply entry_lt_false in Hlt.
        assert (entry_f (heap_least best heap) ≤ entry_f best)
          by (apply Hmin; set_solver).
        apply elem_of_cons in Hx as [->|[->|Hx]%elem_of_cons]; [done|lia|].
        apply Hmin. set_solver.
Qed.

Lemma heap_remove_perm item heap :
  item ∈ heap → heap ≡ₚ item :: heap_remove item heap.
Proof.
  induction heap as [|e heap IH]; [by intros ?%elem_of_nil|].
  intros Hin. simpl. case_bool_decide as Heq; [by subst|].
  apply elem_of_cons in Hin as [->|Hin]; [done|].
  rewrite (IH Hin) at 1. apply Permutation_swap.
Qed.

Lemma heappop_None heap : heappop heap = None → heap = [].
Proof. by destruct heap. Qed.

Lemma heappop_Some heap e rest :
  heappop heap = Some (e, rest) →
  heap ≡ₚ e :: rest ∧ ∀ x, x ∈ heap → entry_f e ≤ entry_f x.
Proof.
  destruct heap as [|b heap]; [done|]. unfold heappop.
  intros [= <- <-]. destruct (heap_least_spec b heap) as [Hin Hmin].
  split; [by apply heap_remove_perm|done].
Qed.

(** * Sums over the board *)

Lemma sumZ_le f f' l :
  (∀ c, c ∈ l → f' c ≤ f c) → sumZ f' l ≤ sumZ f l.
Proof.
  induction l as [|a l IH]; intros Hle; simpl; [done|].
  assert (f' a ≤ f a) by (apply Hle; set_solver).
  assert (sumZ f' l ≤ sumZ f l) by (apply IH; intros; apply Hle; set_solver).
  lia.
Qed.

Lemma sumZ_lt f f' l x :
  (∀ c, c ∈ l → f' c ≤ f c) → x ∈ l → f' x < f x → sumZ f' l < sumZ f l.
Proof.
  induction l as [|a l IH]; intros Hle Hx Hlt; [by apply elem_of_nil in Hx|].
  simpl.
  assert (f' a ≤ f a) by (apply Hle; set_solver).
  assert (sumZ f' l ≤ sumZ f l)
    by (apply sumZ_le; intros; apply Hle; set_solver).
  apply elem_of_cons in Hx as [->|Hx]; [lia|].
  assert (sumZ f' l < sumZ f l); [|lia].
  apply IH; [|done..]. intros; apply Hle; set_solver.
Qed.

Lemma sumZ_bounds f l k :
  (∀ c, c ∈ l → 0 ≤ f c ≤ k) → 0 ≤ sumZ f l ≤ k * Z.of_nat (length l).
Proof.
  induction l as [|a l IH]; intros Hb; simpl; [lia|].
  assert (0 ≤ f a ≤ k) by (apply Hb; set_solver).
  assert (0 ≤ sumZ f l ≤ k * Z.of_nat (length l))
    by (apply IH; intros; apply Hb; set_solver).
  lia.
Qed.

(** * The heuristic *)

Lemma heuristic_nonneg a b : 0 ≤ heuristic a b.
Proof. unfold heuristic. lia. Qed.

Lemma heuristic_self a : heuristic a a = 0.
Proof. unfold heuristic. lia. Qed.

(** Manhattan distance changes by at most one along a move: the heuristic is
    consistent. *)
Lemma heuristic_adjacent a b goal :
  adjacent a b → heuristic a goal ≤ heuristic b goal + 1.
Proof. intros [d ->]. unfold heuristic, move. destruct d; simpl; lia. Qed.

(** * Recorded costs and the potential *)

Lemma recorded_le_board size g_costs :
  (recorded size g_costs ≤ length (board_cells size))%nat.
Proof. apply length_filter. Qed.

Lemma recorded_insert_le (size : Z) (g_costs : gmap cell Z) (n : cell) (v : Z) :
  (recorded size g_costs ≤ recorded size (<[n:=v]> g_costs))%nat.
Proof.
  apply length_filter_le. intros c Hc.
  destruct (decide (n = c)) as [->|Hne].
  - by rewrite lookup_insert_eq.
  - by rewrite lookup_insert_ne.
Qed.

Lemma recorded_insert_lt (size : Z) (g_costs : gmap cell Z) (n : cell) (v : Z) :
  in_bounds size n = true → g_costs !! n = None →
  (recorded size g_costs < recorded size (<[n:=v]> g_costs))%nat.
Proof.
  intros Hb Hnone. apply (length_filter_lt _ _ _ n).
  - intros c Hc. destruct (decide (n = c)) as [->|Hne].
    + by rewrite lookup_insert_eq.
    + by rewrite lookup_insert_ne.
  - by apply elem_of_board_cells.
  - by rewrite lookup_insert_eq.
  - rewrite Hnone. by intros [? ?].
Qed.

Lemma potential_insert_lt (size : Z) (g_costs : gmap cell Z) (n : cell) (v : Z) :
  in_bounds size n = true →
  v < slot (Z.of_nat (length (board_cells size)) + 1) g_costs n →
  potential size (<[n:=v]> g_costs) < potential size g_costs.
Proof.
  intros Hb Hlt. unfold potential. apply (sumZ_lt _ _ _ n).
  - intros c _. unfold slot. destruct (decide (n = c)) as [->|Hne].
    + rewrite lookup_insert_eq. simpl. unfold slot in Hlt. lia.
    + by rewrite lookup_insert_ne.
  - by apply elem_of_board_cells.
  - unfold slot at 1. by rewrite lookup_insert_eq.
Qed.

Lemma potential_bounds (size : Z) (g_costs : gmap cell Z) :
  (∀ c v, g_costs !! c = Some v →
          0 ≤ v ≤ Z.of_nat (length (board_cells size))) →
  0 ≤ potential size g_costs
  ≤ (Z.of_nat (length (board_cells size)) + 1)
    * Z.of_nat (length (board_cells size)).
Proof.
  intros Hv. apply sumZ_bounds. intros c _. unfold slot.
  destruct (g_costs !! c) as [v|] eqn:Hc; simpl; [|lia].
  apply Hv in Hc. lia.
Qed.

(** * a_star_search: invariant, termination, optimality *)

Section a_star_correct.
Variable goal : cell.
Variable size : Z.
Variable obstacles : gset cell.
Variable start : cell.

Local Abbreviation inv := (a_star_inv goal size obstacles start).

Lemma bounded_mono (st st' : list entry * gmap cell Z) (g : Z) :
  (recorded size st.2 ≤ recorded size st'.2)%nat →
  bounded size st g → bounded size st' g.
Proof. unfold bounded. lia. Qed.

Lemma lowers_refl (st : list entry * gmap cell Z) : lowers st st.
Proof. intros c v Hc. exists v. split; [done|lia]. Qed.

Lemma lowers_trans (st1 st2 st3 : list entry * gmap cell Z) :
  lowers st1 st2 → lowers st2 st3 → lowers st1 st3.
Proof.
  intros H12 H23 c v Hc.
  destruct (H12 c v Hc) as (v2 & Hc2 & ?).
  destruct (H23 c v2 Hc2) as (v3 & Hc3 & ?).
  exists v3. split; [done|lia].
Qed.

Lemma settled_mono (st st' : list entry * gmap cell Z) (c : cell) (v : Z) :
  (∀ e, e ∈ st.1 → e ∈ st'.1) → lowers st st' →
  settled goal size obstacles st c v → settled goal size obstacles st' c v.
Proof.
  intros Hsub Hlow [(f & path & Hin)|[Hne Hexp]].
  - left. exists f, path. by apply Hsub.
  - right. split; [done|]. intros n Hstep.
    destruct (Hexp n Hstep) as (v1 & Hn & ?).
    destruct (Hlow n v1 Hn) as (v2 & Hn2 & ?).
    exists v2. split; [done|lia].
Qed.

(** Pushing a strictly better entry for the neighbour [n] of the popped
    cell keeps the invariant and does not raise the measure. *)
Lemma relax_push (g : Z) (c : cell) (path : list cell)
    (st : list entry * gmap cell Z) (n : cell) :
  inv (Some (c, g)) st →
  walk size obstacles start path c →
  g = Z.of_nat (length path) →
  bounded size st g →
  step size obstacles c n →
  (∀ old, st.2 !! n = Some old → g + 1 < old) →
  let st' := (heappush st.1 (g + 1 + heuristic n goal, g + 1, n, path ++ [c]),
              <[n := g + 1]> st.2) in
  inv (Some (c, g)) st' ∧ lowers st st'
  ∧ measure size st' ≤ measure size st
  ∧ (recorded size st.2 ≤ recorded size st'.2)%nat.
Proof.
  intros (Hentries & Hstart & Hcosts) Hwalk Hg Hbg Hstep Hbetter st'.
  assert (recorded size st.2 ≤ recorded size st'.2)%nat as Hrec
    by apply recorded_insert_le.
  assert (bounded size st' (g + 1)) as Hbnew.
  { unfold bounded in *. split; [lia|]. subst st'. simpl.
    destruct (st.2 !! n) as [old|] eqn:Hn.
    - specialize (Hbetter old eq_refl).
      destruct (Hcosts n old Hn) as [Hbold _]. unfold bounded in Hbold.
      simpl in Hrec. lia.
    - destruct Hstep as (_ & Hb & _).
      pose proof (recorded_insert_lt size st.2 n (g + 1) Hb Hn). lia. }
  assert (lowers st st') as Hlow.
  { intros c' v Hc'. subst st'. simpl.
    destruct (decide (n = c')) as [->|Hne].
    - exists (g + 1). rewrite lookup_insert_eq. split; [done|].
      specialize (Hbetter v Hc'). lia.
    - exists v. rewrite lookup_insert_ne by done. split; [done|lia]. }
  assert (∀ e, e ∈ st.1 → e ∈ st'.1) as Hsub.
  { intros e He. subst st'. unfold heappush. simpl. set_solver. }
  split_and!; [|done| |done].
  - split_and!.
    + intros e He. subst st'. unfold heappush in He. simpl in He.
      apply elem_of_app in He as [He| ->%list_elem_of_singleton].
      * destruct (Hentries e He) as [Hok Hb]. split; [done|].
        by eapply bounded_mono.
      * split; [|done].
        unfold entry_ok, entry_g, entry_f, entry_node, entry_path. simpl.
        split_and!.
        -- by apply walk_snoc.
        -- rewrite length_app. simpl. lia.
        -- pose proof (heuristic_nonneg n goal). lia.
        -- lia.
    + subst st'. simpl. rewrite lookup_insert_ne; [done|].
      intros ->. specialize (Hbetter 0 Hstart). unfold bounded in Hbg. lia.
    + intros c' v Hc'. subst st'. simpl in Hc'.
      destruct (decide (n = c')) as [->|Hne].
      * rewrite lookup_insert_eq in Hc'. injection Hc' as <-.
        split; [done|]. left. left.
        exists (g + 1 + heuristic c' goal), (path ++ [c]).
        unfold heappush. simpl. set_solver.
      * rewrite lookup_insert_ne in Hc' by done.
        destruct (Hcosts c' v Hc') as [Hb Hs]. split.
        -- by eapply bounded_mono.
        -- destruct Hs as [Hs|Hs]; [|by right].
           left. by eapply settled_mono.
  - unfold measure. subst st'. unfold heappush. simpl.
    rewrite length_app. simpl.
    assert (potential size (<[n:=g + 1]> st.2) < potential size st.2); [|lia].
    destruct Hstep as (_ & Hb & _).
    apply potential_insert_lt; [done|]. unfold slot.
    destruct (st.2 !! n) as [old|] eqn:Hn; simpl.
    + by apply Hbetter.
    + unfold bounded in Hbnew.
      pose proof (recorded_le_board size (<[n:=g + 1]> st.2)).
      simpl in Hbnew. lia.
Qed.

Lemma relax_step (g : Z) (c : cell) (path : list cell)
    (st : list entry * gmap cell Z) (d : Direction) :
  inv (Some (c, g)) st →
  walk size obstacles start path c →
  g = Z.of_nat (length path) →
  bounded size st g →
  let st' := a_star_relax goal size obstacles g c path st d in
  inv (Some (c, g)) st' ∧ lowers st st'
  ∧ measure size st' ≤ measure size st
  ∧ (recorded size st.2 ≤ recorded size st'.2)%nat
  ∧ (step size obstacles c (move c d) →
     ∃ v', st'.2 !! move c d = Some v' ∧ v' ≤ g + 1).
Proof.
  intros Hinv Hwalk Hg Hbg. unfold a_star_relax.
  destruct (in_bounds size (move c d)) eqn:Hb; simpl.
  2:{ split_and!; [done|apply lowers_refl|lia|lia|].
      intros (_ & Hb' & _). congruence. }
  case_bool_decide as Hobs.
  { split_and!; [done|apply lowers_refl|lia|lia|].
    by intros (_ & _ & Hobs'). }
  assert (step size obstacles c (move c d)) as Hstep.
  { split_and!; [by exists d|done..]. }
  destruct (st.2 !! move c d) as [old|] eqn:Hn.
  - destruct (Z.ltb_spec (g + 1) old) as [Hlt|Hge].
    + destruct (relax_push g c path st (move c d)) as (? & ? & ? & ?);
        [done..| |].
      { intros old' Hold'. congruence. }
      split_and!; [done..|]. intros _. exists (g + 1). simpl.
      rewrite lookup_insert_eq. split; [done|lia].
    + split_and!; [done|apply lowers_refl|lia|lia|].
      intros _. exists old. done.
  - destruct (relax_push g c path st (move c d)) as (? & ? & ? & ?);
      [done..| |].
    { intros old' Hold'. congruence. }
    split_and!; [done..|]. intros _. exists (g + 1). simpl.
    rewrite lookup_insert_eq. split; [done|lia].
Qed.

Lemma relax_fold (g : Z) (c : cell) (path : list cell) (ds : list Direction)
    (st : list entry * gmap cell Z) :
  inv (Some (c, g)) st →
  walk size obstacles start path c →
  g = Z.of_nat (length path) →
  bounded size st g →
  let st' := foldl (a_star_relax goal size obstacles g c path) st ds in
  inv (Some (c, g)) st' ∧ lowers st st'
  ∧ measure size st' ≤ measure size st
  ∧ (∀ d, d ∈ ds → step size obstacles c (move c d) →
          ∃ v', st'.2 !! move c d = Some v' ∧ v' ≤ g + 1).
Proof.
  intros Hinv Hwalk Hg. revert st Hinv.
  induction ds as [|d ds IH]; intros st Hinv Hbg; simpl.
  - split_and!; [done|apply lowers_refl|lia|].
    intros d Hd. by apply elem_of_nil in Hd.
  - destruct (relax_step g c path st d Hinv Hwalk Hg Hbg)
      as (Hinv1 & Hlow1 & Hm1 & Hrec1 & Hcov1).
    destruct (IH _ Hinv1) as (Hinv2 & Hlow2 & Hm2 & Hcov2).
    { by eapply bounded_mono. }
    split_and!; [done| |lia|].
    + by eapply lowers_trans.
    + intros d' [->|Hd']%elem_of_cons Hstep; [|by apply Hcov2].
      destruct (Hcov1 Hstep) as (v1 & Hv1 & ?).
      destruct (Hlow2 _ _ Hv1) as (v2 & Hv2 & ?).
      exists v2. split; [done|lia].
Qed.

(** One iteration of the [while] loop that does not return. *)
Lemma a_star_iterate (open_set : list entry) (g_costs : gmap cell Z)
    (f g : Z) (c : cell) (path : list cell) (rest : list entry) :
  inv None (open_set, g_costs) →
  open_set ≡ₚ (f, g, c, path) :: rest →
  c ≠ goal →
  let st' := foldl (a_star_relax goal size obstacles g c path)
                   (rest, g_costs) all_directions in
  inv None st' ∧ measure size st' < measure size (open_set, g_costs).
Proof.
  intros (Hentries & Hstart & Hcosts) Hperm Hne. simpl in *.
  destruct (Hentries (f, g, c, path)) as [(Hwalk & Hg & _) Hbg].
  { rewrite Hperm. set_solver. }
  simpl in Hwalk, Hg.
  destruct (relax_fold g c path all_directions (rest, g_costs))
    as (Hinv & Hlow & Hm & Hcov); [|done..|].
  { split_and!; simpl.
    - intros e He. apply Hentries. rewrite Hperm. set_solver.
    - done.
    - intros c' v Hc'. destruct (Hcosts c' v Hc') as [Hb [Hs|Hs]]; [|done].
      split; [done|].
      destruct Hs as [(f' & p' & Hin)|Hexp]; [|by left; right].
      rewrite Hperm in Hin. apply elem_of_cons in Hin as [Heq|Hin].
      + right. congruence.
      + left. left. by exists f', p'. }
  split.
  - destruct Hinv as (Hentries' & Hstart' & Hcosts').
    split_and!; [done..|].
    intros c' v Hc'. destruct (Hcosts' c' v Hc') as [Hb [Hs|Hs]];
      [by split; [|left]|].
    injection Hs as -> ->. split; [done|]. left. right.
    split; [done|]. intros n Hstep.
    destruct Hstep as [[d ->] ?]. apply Hcov; [apply all_directions_all|].
    split; [by exists d|done].
  - unfold measure in *. simpl in *.
    rewrite (Permutation_length Hperm). simpl. lia.
Qed.

(** While a path to the goal exists, some frontier entry has a key no
    larger than that path's number of moves. *)
Lemma frontier_bound (st : list entry * gmap cell Z) (path : list cell)
    (c : cell) :
  inv None st →
  walk size obstacles start path c →
  (∃ x, x ∈ st.1 ∧ entry_f x ≤ Z.of_nat (length path) + heuristic c goal)
  ∨ (∃ v, st.2 !! c = Some v ∧ v ≤ Z.of_nat (length path)).
Proof.
  intros (Hentries & Hstart & Hcosts) Hwalk.
  induction Hwalk as [|path c n Hwalk IH Hstep].
  - right. exists 0. done.
  - rewrite length_app. simpl.
    pose proof (heuristic_adjacent c n goal (proj1 Hstep)) as Hh.
    destruct IH as [(x & Hx & Hfx)|(v & Hv & Hle)].
    + left. exists x. split; [done|lia].
    + destruct (Hcosts c v Hv) as [_ [[(f & p & Hin)|[_ Hexp]]|?]]; [| |done].
      * left. exists (f, v, c, p). split; [done|].
        destruct (Hentries _ Hin) as [(_ & _ & Hf) _]. simpl in *.
        unfold entry_f, entry_g, entry_node in *. simpl in *. lia.
      * right. destruct (Hexp n Hstep) as (v' & Hn & ?).
        exists v'. split; [done|lia].
Qed.

Lemma frontier_bound_goal (st : list entry * gmap cell Z)
    (path : list cell) :
  inv None st →
  walk size obstacles start path goal →
  ∃ x, x ∈ st.1 ∧ entry_f x ≤ Z.of_nat (length path).
Proof.
  intros Hinv Hwalk.
  destruct (frontier_bound st path goal Hinv Hwalk)
    as [(x & Hx & Hfx)|(v & Hv & Hle)].
  - exists x. split; [done|]. rewrite heuristic_self in Hfx. lia.
  - destruct Hinv as (Hentries & _ & Hcosts).
    destruct (Hcosts goal v Hv) as [_ [[(f & p & Hin)|[? _]]|?]]; [|done..].
    exists (f, v, goal, p). split; [done|].
    destruct (Hentries _ Hin) as [(_ & _ & Hf) _].
    unfold entry_f, entry_g, entry_node in *. simpl in *.
    rewrite heuristic_self in Hf. lia.
Qed.

Lemma measure_nonneg (st : list entry * gmap cell Z) :
  inv None st → 0 ≤ measure size st.
Proof.
  intros (_ & _ & Hcosts). unfold measure.
  assert (0 ≤ potential size st.2); [|lia].
  apply potential_bounds. intros c v Hc.
  destruct (Hcosts c v Hc) as [Hb _]. unfold bounded in Hb.
  pose proof (recorded_le_board size st.2). lia.
Qed.

Lemma a_star_loop_correct (fuel : nat) (open_set : list entry)
    (g_costs : gmap cell Z) :
  inv None (open_set, g_costs) →
  measure size (open_set, g_costs) < Z.of_nat fuel →
  ∃ r, a_star_loop fuel goal size obstacles open_set g_costs = Ok r
       ∧ shortest_or_none size obstacles start goal r.
Proof.
  revert open_set g_costs.
  induction fuel as [|fuel IH]; intros open_set g_costs Hinv Hfuel.
  { apply measure_nonneg in Hinv. lia. }
  cbn [a_star_loop]. destruct (heappop open_set) as [[[[[f g] c] path] rest]|] eqn:Hpop.
  - apply heappop_Some in Hpop as [Hperm Hmin].
    case_bool_decide as Hgoal.
    + subst c. eexists. split; [done|]. exists path.
      destruct Hinv as (Hentries & Hrest).
      destruct (Hentries (f, g, goal, path)) as [(Hwalk & Hg & Hf & _) _].
      { rewrite Hperm. set_solver. }
      split_and!; [done..|]. intros path' Hwalk'.
      destruct (frontier_bound_goal (open_set, g_costs) path')
        as (x & Hx & Hfx); [by split|done|].
      specialize (Hmin x Hx).
      unfold entry_f, entry_g, entry_path in *. simpl in *. lia.
    + destruct (a_star_iterate open_set g_costs f g c path rest)
        as [Hinv' Hm]; [done..|].
      destruct (foldl _ _ _) as [open_set' g_costs'] eqn:Hfold.
      cbn [fst snd]. apply IH; [done|lia].
  - apply heappop_None in Hpop as ->.
    eexists. split; [done|]. intros path' Hwalk'.
    destruct (frontier_bound_goal ([], g_costs) path')
      as (x & Hx & _); [done..|].
    by apply elem_of_nil in Hx.
Qed.

Lemma a_star_init :
  inv None ([(0, 0, start, [])], {[start := 0]})
  ∧ measure size ([(0, 0, start, [])], {[start := 0]})
    < Z.of_nat (a_star_fuel size).
Proof.
  assert (inv None ([(0, 0, start, [])], {[start := 0]})) as Hinv.
  { split_and!; simpl.
    - intros e ->%list_elem_of_singleton. split.
      + split_and!; simpl; [constructor|done|done|].
        pose proof (heuristic_nonneg start goal).
        unfold entry_g, entry_f, entry_node. simpl. lia.
      + unfold bounded, entry_g. simpl. lia.
    - apply lookup_singleton_eq.
    - intros c v [<- <-]%lookup_singleton_Some. split.
      + unfold bounded. lia.
      + left. left. exists 0, []. set_solver. }
  split; [done|].
  unfold measure. simpl.
  destruct Hinv as (_ & _ & Hcosts).
  assert (0 ≤ potential size {[start := 0]}
          ≤ (Z.of_nat (length (board_cells size)) + 1)
            * Z.of_nat (length (board_cells size))) as Hpot.
  { apply potential_bounds. intros c v Hc.
    destruct (Hcosts c v Hc) as [Hb _]. unfold bounded in Hb.
    pose proof (recorded_le_board size {[start := 0]}). simpl in Hb. lia. }
  pose proof (length_board_cells size) as Hlen.
  unfold a_star_fuel.
  assert (0 ≤ size * size) by nia.
  rewrite Z2Nat.id by nia.
  assert (Z.of_nat (length (board_cells size)) ≤ size * size) by lia.
  nia.
Qed.
End a_star_correct.

(** [a_star_search] always returns, and returns a shortest path over the
    cells that are in bounds and not obstacles, or [None] if there is none. *)
Lemma a_star_search_shortest start goal size body :
  ∃ r, a_star_search start goal size body = Ok r
       ∧ shortest_or_none size (exempted body [goal; start]) start goal r.
Proof.
  unfold a_star_search. rewrite obstacle_set_exempted.
  destruct (a_star_init goal size (exempted body [goal; start]) start)
    as [Hinv Hfuel].
  by apply a_star_loop_correct.
Qed.

(** * Paths as lists *)

Lemma head_snoc_snoc {A} (l : list A) a b :
  head ((l ++ [a]) ++ [b]) = head (l ++ [a]).
Proof. by destruct l. Qed.

Lemma chain_cons_cons size obstacles x y l :
  chain size obstacles (x :: y :: l)
  = stepb size obstacles x y && chain size obstacles (y :: l).
Proof. done. Qed.

Lemma chain_snoc size obstacles p a b :
  chain size obstacles ((p ++ [a]) ++ [b])
  = chain size obstacles (p ++ [a]) && stepb size obstacles a b.
Proof.
  induction p as [|x p IH].
  - simpl. by rewrite andb_true_r.
  - destruct p as [|y p].
    + simpl. by rewrite !andb_true_r.
    + change (chain size obstacles (x :: y :: ((p ++ [a]) ++ [b]))
              = chain size obstacles (x :: y :: (p ++ [a]))
                && stepb size obstacles a b).
      rewrite !chain_cons_cons.
      change (y :: (p ++ [a]) ++ [b]) with (((y :: p) ++ [a]) ++ [b]).
      rewrite IH. by rewrite andb_assoc.
Qed.

Lemma walk_path_between size obstacles start path c :
  walk size obstacles start path c →
  path_between size obstacles start c (path ++ [c]).
Proof.
  induction 1 as [|path c n Hwalk (Hhead & Hlast & Hchain) Hstep].
  - by split_and!.
  - split_and!.
    + by rewrite head_snoc_snoc.
    + apply last_snoc.
    + rewrite chain_snoc, Hchain. simpl. by apply step_iff.
Qed.

Lemma path_between_walk size obstacles start goal p :
  path_between size obstacles start goal p →
  ∃ path, p = path ++ [goal] ∧ walk size obstacles start path goal.
Proof.
  revert goal. induction p as [|x q IH] using rev_ind; intros goal.
  { by intros (_ & ? & _). }
  intros (Hhead & Hlast & Hchain).
  rewrite last_snoc in Hlast. injection Hlast as ->.
  exists q. split; [done|].
  destruct q as [|y q' _] using rev_ind.
  - simpl in Hhead. injection Hhead as ->. constructor.
  - rewrite chain_snoc in Hchain. apply andb_true_iff in Hchain as [Hchain Hstep].
    rewrite head_snoc_snoc in Hhead. apply step_iff in Hstep.
    destruct (IH y) as (path & Heq & Hwalk).
    { split_and!; [done|apply last_snoc|done]. }
    apply app_inj_tail in Heq as [-> _]. by apply walk_snoc.
Qed.

Lemma steps_of_snoc (path : list cell) c :
  steps_of (path ++ [c]) = Z.of_nat (length path).
Proof. unfold steps_of. rewrite length_app. simpl. lia. Qed.

(** * The breadth-first reference returns real paths *)

Lemma bfs_visit_items {A} (mk : cell → A) (size : Z) (obstacles : gset cell)
    (curr : cell) (ds : list Direction) (st : list A * gset cell) (x : A) :
  x ∈ (foldl (bfs_visit mk size obstacles curr) st ds).1 →
  x ∈ st.1 ∨ ∃ n, x = mk n ∧ step size obstacles curr n.
Proof.
  revert st. induction ds as [|d ds IH]; intros st; simpl; [by left|].
  intros [Hx|Hx]%IH; [|by right].
  unfold bfs_visit in Hx.
  destruct (in_bounds size (move curr d)) eqn:Hb; simpl in Hx; [|by left].
  destruct (bool_decide (move curr d ∉ st.2)); simpl in Hx; [|by left].
  case_bool_decide as Hobs; simpl in Hx; [|by left].
  apply elem_of_app in Hx as [Hx| ->%list_elem_of_singleton]; [by left|].
  right. exists (move curr d). split; [done|].
  split_and!; [by exists d|done..].
Qed.

Lemma bfs_path_loop_sound (fuel : nat) (goal : cell) (size : Z)
    (obstacles : gset cell) (start : cell)
    (q : list (cell * list cell)) (seen : gset cell) (p : list cell) :
  (∀ c path, (c, path) ∈ q → walk size obstacles start path c) →
  bfs_path_loop fuel goal size obstacles q seen = Ok (Some p) →
  path_between size obstacles start goal p.
Proof.
  revert q seen. induction fuel as [|fuel IH]; intros q seen Hq; [done|].
  destruct q as [|[curr path] q]; cbn [bfs_path_loop]; [done|].
  case_bool_decide as Hgoal.
  - intros [= <-]. subst curr. apply walk_path_between, Hq. set_solver.
  - apply IH. intros c path' [Hin|(n & [= -> ->] & Hstep)]%bfs_visit_items.
    + apply Hq. set_solver.
    + apply walk_snoc; [|done]. apply Hq. set_solver.
Qed.

Lemma bfs_shortest_path_sound start goal size body p :
  bfs_shortest_path start goal size body = Ok (Some p) →
  path_between size (exempted body [goal; start]) start goal p.
Proof.
  apply bfs_path_loop_sound.
  intros c path [= -> ->]%list_elem_of_singleton. constructor.
Qed.

Lemma bfs_path_loop_flood (fuel : nat) (goal : cell) (size : Z)
    (obstacles : gset cell) (q : list (cell * list cell)) (seen : gset cell)
    (filled cells : list cell) :
  flood_loop (λ q c, q ++ [c]) all_directions fuel size obstacles
             (q.*1) seen filled = Ok cells →
  ∃ r, bfs_path_loop fuel goal size obstacles q seen = Ok r
       ∧ (is_Some r ↔ goal ∈ drop (length filled) cells).
Proof.
  revert q seen filled.
  induction fuel as [|fuel IH]; intros q seen filled; [done|].
  destruct q as [|[curr path] q];
    cbn [flood_loop bfs_path_loop fmap list_fmap fst snd].
  - intros [= <-]. exists None. split; [done|]. rewrite drop_all.
    split; [by intros [? ?]|by intros ?%elem_of_nil].
  - intros Hrun.
    destruct (flood_loop_extends _ _ _ _ _ _ _ _ _ Hrun) as [rest ->].
    rewrite <- (assoc_L (++)), drop_app_length.
    cbn [app].
    case_bool_decide as Hgoal.
    + subst curr. eexists. split; [done|].
      split; [intros _; apply list_elem_of_here|by eexists].
    + pose proof (bfs_visit_fst (λ next, (next, path ++ [curr]))
                    fst size obstacles curr (q, seen) all_directions) as Hfst.
      cbv zeta in Hfst. cbn [fst snd] in Hfst. rewrite Hfst in Hrun by done.
      cbn [fst snd] in Hrun. apply IH in Hrun as (r & Hr & Hiff).
      exists r. split; [done|]. rewrite Hiff, drop_app_length. set_solver.
Qed.

Lemma bfs_shortest_path_total start goal size body :
  ∃ r, bfs_shortest_path start goal size body = Ok r
       ∧ (is_Some r ↔
          reachable size (exempted body [goal; start]) start goal).
Proof.
  unfold bfs_shortest_path.
  destruct (flood_fill_fills (λ q c, q ++ [c]) all_directions snoc_perm
              all_directions_all size (exempted body [goal; start]) start)
    as (cells & Hrun & Hnd & Hiff).
  destruct (bfs_path_loop_flood (bfs_fuel size) goal size
              (exempted body [goal; start]) [(start, [])] {[start]} [] cells
              Hrun) as (r & Hr & Hsome).
  exists r. split; [done|]. by rewrite Hsome, <- Hiff.
Qed.

Lemma walk_reachable size obstacles start path c :
  walk size obstacles start path c → reachable size obstacles start c.
Proof.
  induction 1 as [|path c n _ IH Hstep]; [apply rtc_refl|].
  by eapply rtc_r.
Qed.

(** * a_star_search: the returned path *)

Lemma a_star_loop_None (fuel : nat) (goal : cell) (size : Z)
    (obstacles : gset cell) (open_set : list entry) (g_costs : gmap cell Z) :
  a_star_loop fuel goal size obstacles open_set g_costs = Ok None →
  frontier_empties goal size obstacles (open_set, g_costs).
Proof.
  revert open_set g_costs.
  induction fuel as [|fuel IH]; intros open_set g_costs; [done|].
  cbn [a_star_loop].
  destruct (heappop open_set) as [[[[[f g] c] path] rest]|] eqn:Hpop.
  - case_bool_decide as Hgoal; [done|].
    intros [g_costs' Hrun]%IH. exists g_costs'.
    eapply rtc_l; [|by rewrite <- surjective_pairing in Hrun].
    by exists f, g, c, path, rest.
  - intros _. apply heappop_None in Hpop as ->. by exists g_costs.
Qed.

Lemma frontier_empties_None (fuel : nat) (goal : cell) (size : Z)
    (obstacles : gset cell) (st : list entry * gmap cell Z)
    (r : option (list cell)) :
  frontier_empties goal size obstacles st →
  a_star_loop fuel goal size obstacles st.1 st.2 = Ok r → r = None.
Proof.
  intros [g_costs Hrun]. revert fuel.
  remember ([], g_costs) as final eqn:Hfinal.
  induction Hrun as [st|st st1 st2 Hiter Hrun IH]; intros fuel.
  - subst st. destruct fuel; [done|]. simpl. congruence.
  - destruct fuel as [|fuel]; [done|]. cbn [a_star_loop].
    destruct Hiter as (f & g & c & path & rest & -> & Hgoal & ->).
    rewrite bool_decide_eq_false_2 by done. by apply IH.
Qed.

(** C2.  [a_star_search] always returns.  Over the grid whose obstacles are
    the body cells other than [start] and [goal]: whenever some path from
    [start] to [goal] exists, the result is a path from [start] (its first
    element) to [goal] (its last element) with no more moves than any other;
    a returned path is always such a path; [None] is returned exactly when
    the frontier empties before the goal is popped, which is exactly when no
    path exists; and the breadth-first reference always answers too, with a
    path that is never shorter than the result, or with none when the result
    is [None]. *)
Theorem a_star_search_minimal start goal size body :
  ∃ r,
    a_star_search start goal size body = Ok r
    ∧ (∀ q, path_between size (exempted body [goal; start]) start goal q →
            ∃ p, r = Some p
                 ∧ head p = Some start ∧ last p = Some goal
                 ∧ chain size (exempted body [goal; start]) p = true
                 ∧ steps_of p ≤ steps_of q)
    ∧ (∀ p, r = Some p →
            path_between size (exempted body [goal; start]) start goal p)
    ∧ (r = None ↔
       frontier_empties goal size (obstacle_set body [goal; start])
                        ([(0, 0, start, [])], {[start := 0]}))
    ∧ (r = None ↔
       ¬ ∃ q, path_between size (exempted body [goal; start]) start goal q)
    ∧ (∃ reference,
         bfs_shortest_path start goal size body = Ok reference
         ∧ match reference with
           | Some q => ∃ p, r = Some p ∧ steps_of p ≤ steps_of q
           | None => r = None
           end).
Proof.
  destruct (a_star_search_shortest start goal size body) as (r & Hrun & Hr).
  exists r. split; [done|].
  assert (∀ q, path_between size (exempted body [goal; start]) start goal q →
               ∃ p, r = Some p
                    ∧ head p = Some start ∧ last p = Some goal
                    ∧ chain size (exempted body [goal; start]) p = true
                    ∧ steps_of p ≤ steps_of q) as Hmin.
  { intros q (path' & -> & Hwalk')%path_between_walk.
    destruct r as [p|]; simpl in Hr; [|by destruct (Hr path')].
    destruct Hr as (path & -> & Hwalk & Hle).
    exists (path ++ [goal]).
    destruct (walk_path_between _ _ _ _ _ Hwalk) as (? & ? & ?).
    split_and!; [done..|]. rewrite !steps_of_snoc.
    specialize (Hle path' Hwalk'). lia. }
  split_and!; [done| | | |].
  - intros p ->. destruct Hr as (path & -> & Hwalk & _).
    by apply walk_path_between.
  - split.
    + intros ->. by eapply a_star_loop_None.
    + intros Hempty.
      by eapply (frontier_empties_None _ _ _ _ ([(0, 0, start, [])], _)).
  - split.
    + intros -> (q & (path' & -> & Hwalk')%path_between_walk).
      by destruct (Hr path').
    + intros Hnone. destruct r as [p|]; [|done]. destruct Hnone.
      destruct Hr as (path & -> & Hwalk & _).
      eexists. by apply walk_path_between.
  - destruct (bfs_shortest_path_total start goal size body)
      as (reference & Href & Hsome).
    exists reference. split; [done|]. destruct reference as [q|].
    + apply bfs_shortest_path_sound in Href.
      destruct (Hmin q Href) as (p & -> & _ & _ & _ & Hle). by exists p.
    + destruct r as [p|]; [|done].
      destruct Hr as (path & _ & Hwalk%walk_reachable & _).
      apply Hsome in Hwalk as [? ?]. done.
Qed.

Lemma a_star_search_minimal_witness :
  ∃ p, a_star_search (2, 2) (0, 0) 10 [(2, 2); (2, 3); (2, 4)] = Ok (Some p)
       ∧ steps_of p ≤ 4.
Proof.
  destruct (a_star_search_minimal (2, 2) (0, 0) 10 [(2, 2); (2, 3); (2, 4)])
    as (r & Hrun & Hmin & _).
  destruct (Hmin [(2, 2); (2, 1); (2, 0); (1, 0); (0, 0)])
    as (p & -> & _ & _ & _ & Hle).
  { split; [reflexivity|]. split; [reflexivity|]. vm_compute. reflexivity. }
  exists p. split; [exact Hrun|]. exact Hle.
Defined.

(** * Cost model: the unbound name *)

Lemma deque_unbound : load_global cost_function_globals "deque"
                      = Raise (NameError "deque").
Proof. reflexivity. Qed.

(** C3.  [deque] is not bound in cost_function.py, so whenever the next head
    is not a collision the call, wired to the repository's own helpers, ends
    in [NameError] at the statement that builds [temp_snake_body]; and
    whatever helpers are passed, the function never returns a finite cost. *)
Theorem calculate_action_cost_name_error current_head current_direction
    proposed_action snake_body food_position board_size :
  is_collision (move current_head proposed_action) board_size snake_body
  = false →
  ("deque" ∉ cost_function_globals)
  ∧ calculate_action_cost current_head current_direction proposed_action
      snake_body food_position board_size
      (λ pos size body, Ok (is_collision pos size body))
      a_star_search is_future_isolated find_reachable_areas_bfs
    = Raise (NameError "deque")
  ∧ ∀ (isolated_func : Type) is_collision_func a_star_search_func
      (is_future_isolated_func : isolated_func)
      find_reachable_areas_bfs_func head direction action body food size c,
      calculate_action_cost head direction action body food size
        is_collision_func a_star_search_func is_future_isolated_func
        find_reachable_areas_bfs_func ≠ Ok (Finite c).
Proof.
  intros Hfree. split_and!.
  - unfold cost_function_globals. rewrite !elem_of_cons, elem_of_nil.
    intros H. repeat (destruct H as [H|H]; [discriminate H|]). done.
  - unfold calculate_action_cost, calculate_action_cost_in.
    simpl. rewrite Hfree.
    destruct (a_star_search_shortest (move current_head proposed_action)
                food_position board_size snake_body) as (r & -> & _).
    reflexivity.
  - intros. unfold calculate_action_cost, calculate_action_cost_in.
    destruct (is_collision_func _ _ _) as [[]| |]; simpl; try done.
    destruct (a_star_search_func _ _ _ _); simpl; try done.
Qed.

Lemma calculate_action_cost_name_error_witness :
  calculate_action_cost (1, 1) UP LEFT [(1, 1); (1, 2)] (0, 1) 10
    (λ pos size body, Ok (is_collision pos size body))
    a_star_search is_future_isolated find_reachable_areas_bfs
  = Raise (NameError "deque").
Proof.
  apply (calculate_action_cost_name_error (1, 1) UP LEFT [(1, 1); (1, 2)]
           (0, 1) 10).
  reflexivity.
Defined.

(** C6.  Board 10, body [(1,1),(1,2)], current direction LEFT, food (0,1),
    candidate LEFT: the call raises [NameError] for [deque] instead of
    returning -99.  The terms computed before the failure are the ones the
    scenario names (turn 0, path 1, bonus -100), and with [deque] bound the
    same code returns -99. *)
Theorem calculate_action_cost_food_scenario :
  calculate_action_cost (1, 1) LEFT LEFT [(1, 1); (1, 2)] (0, 1) 10
    (λ pos size body, Ok (is_collision pos size body))
    a_star_search is_future_isolated find_reachable_areas_bfs
  = Raise (NameError "deque")
  ∧ turn_term LEFT LEFT = 0
  ∧ a_star_search (0, 1) (0, 1) 10 [(1, 1); (1, 2)] = Ok (Some [(0, 1)])
  ∧ path_term 0 (Some [(0, 1)]) = -99
  ∧ calculate_action_cost_in ("deque" :: cost_function_globals)
      (1, 1) LEFT LEFT [(1, 1); (1, 2)] (0, 1) 10
      (λ pos size body, Ok (is_collision pos size body))
      a_star_search is_future_isolated find_reachable_areas_bfs
    = Ok (Finite (-99)).
Proof. split_and!; vm_compute; reflexivity. Qed.

(** * Policy *)

Lemma get_safe_actions_nil board_size current_head snake_body :
  get_safe_actions board_size current_head snake_body = []
  ↔ ∀ action,
      is_collision (move current_head action) board_size snake_body = true.
Proof.
  unfold get_safe_actions, all_directions. simpl.
  destruct (is_collision (move current_head UP) _ _) eqn:HU,
           (is_collision (move current_head DOWN) _ _) eqn:HD,
           (is_collision (move current_head LEFT) _ _) eqn:HL,
           (is_collision (move current_head RIGHT) _ _) eqn:HR; simpl;
    (split; [try discriminate; intros _ []; done
            |intros Hall; try done;
             first [by rewrite Hall in HU | by rewrite Hall in HD
                   |by rewrite Hall in HL | by rewrite Hall in HR]]).
Qed.

Lemma choose_best_action_no_safe board_size current_head current_direction
    snake_body food_position :
  (∀ action,
     is_collision (move current_head action) board_size snake_body = true) →
  choose_best_action board_size current_head current_direction snake_body
                     food_position = Ok current_direction.
Proof.
  intros Hall. unfold choose_best_action.
  rewrite (proj2 (get_safe_actions_nil _ _ _) Hall).
  unfold all_directions. simpl. by rewrite !Hall.
Qed.

(** C8.  When [get_safe_actions] is empty, that is when every direction's
    next cell is a collision, [choose_best_action] returns the current
    direction, as a value and not as an exception. *)
Theorem choose_best_action_trapped board_size current_head current_direction
    snake_body food_position :
  get_safe_actions board_size current_head snake_body = [] →
  (∀ action,
     is_collision (move current_head action) board_size snake_body = true)
  ∧ choose_best_action board_size current_head current_direction snake_body
                       food_position = Ok current_direction.
Proof.
  intros Hnil.
  pose proof (proj1 (get_safe_actions_nil _ _ _) Hnil) as Hall.
  split; [done|]. by apply choose_best_action_no_safe.
Qed.

Lemma choose_best_action_trapped_witness :
  choose_best_action 10 (0, 0) LEFT
    [(0, 0); (1, 0); (1, 1); (0, 1); (0, 2)] (7, 7) = Ok LEFT.
Proof.
  apply (choose_best_action_trapped 10 (0, 0) LEFT
           [(0, 0); (1, 0); (1, 1); (0, 1); (0, 2)] (7, 7)).
  reflexivity.
Defined.

(** * Snapshots that are not validated *)

Lemma in_bounds_nonpos size c : size ≤ 0 → in_bounds size c = false.
Proof. intros Hsize. apply in_bounds_false. lia. Qed.

Lemma walk_out_of_bounds size obstacles start path goal :
  in_bounds size goal = false →
  walk size obstacles start path goal → path = [] ∧ start = goal.
Proof.
  intros Hb Hwalk. inversion Hwalk as [|path' c n _ (_ & Hb' & _)]; [done|].
  congruence.
Qed.

Lemma reachable_out_of_bounds size obstacles start goal :
  in_bounds size goal = false →
  reachable size obstacles start goal → start = goal.
Proof.
  intros Hb [->|(c & _ & _ & Hb' & _)]%rtc_inv_r; [done|]. congruence.
Qed.

Lemma a_star_search_start_is_goal start size body :
  a_star_search start start size body = Ok (Some [start]).
Proof.
  destruct (a_star_search_shortest start start size body) as (r & -> & Hr).
  destruct r as [p|]; simpl in Hr.
  - destruct Hr as (path & -> & _ & Hle).
    specialize (Hle [] (walk_start _ _ _)). destruct path; [done|].
    simpl in Hle. lia.
  - destruct (Hr [] (walk_start _ _ _)).
Qed.

Lemma a_star_search_out_of_bounds start goal size body :
  in_bounds size goal = false →
  a_star_search start goal size body
  = Ok (if bool_decide (start = goal) then Some [start] else None).
Proof.
  intros Hb. case_bool_decide as Heq.
  - subst goal. apply a_star_search_start_is_goal.
  - destruct (a_star_search_shortest start goal size body) as (r & -> & Hr).
    destruct r as [p|]; [|done]. destruct Hr as (path & _ & Hwalk & _).
    by apply walk_out_of_bounds in Hwalk as [_ ?].
Qed.

Lemma has_path_to_target_bfs_out_of_bounds start goal size body :
  in_bounds size goal = false →
  has_path_to_target_bfs start goal size body
  = Ok (bool_decide (start = goal)).
Proof.
  intros Hb.
  destruct (has_path_to_target_bfs_reachable start goal size body)
    as (b & -> & Hiff).
  f_equal. case_bool_decide as Heq.
  - apply Hiff. subst goal. apply rtc_refl.
  - destruct b; [|done]. destruct Heq.
    eapply reachable_out_of_bounds; [done|]. by apply Hiff.
Qed.

Lemma find_reachable_areas_bfs_nonpos start size body food :
  size ≤ 0 → find_reachable_areas_bfs start size body food = Ok (1, [start]).
Proof.
  intros Hsize.
  destruct (find_reachable_areas_bfs_fills start size body food)
    as (cells & -> & Hnd & Hiff).
  assert (cells ≡ₚ [start]) as Hperm.
  { apply NoDup_Permutation; [done|apply NoDup_singleton|].
    intros c. rewrite Hiff, list_elem_of_singleton. split.
    - intros Hc. symmetry. eapply reachable_out_of_bounds; [|done].
      by apply in_bounds_nonpos.
    - intros ->. apply rtc_refl. }
  apply Permutation_singleton_r in Hperm as ->. done.
Qed.

Lemma is_collision_nonpos pos size body :
  size ≤ 0 → is_collision pos size body = true.
Proof.
  intros Hsize. unfold is_collision. by rewrite in_bounds_nonpos.
Qed.

(** C10, as the code has it.  No core operation validates its snapshot and
    none reports an invalid one.  On every snapshot, valid or not, the three
    searches return a value, the cost is infinite whenever the next head
    collides and the policy returns the current direction whenever no action
    is safe.  With a non-positive board size every cell collides, the two
    path searches answer whether start and goal coincide, the area search
    counts the start cell alone, the cost is infinite and the policy returns
    the current direction.  With a goal out of bounds the path searches
    again answer whether start and goal coincide.  With an empty body
    [is_collision] is the bounds test. *)
Theorem invalid_snapshot_proceeds :
  (∀ size, size ≤ 0 →
     ∀ pos body start goal food current_direction proposed_action,
       is_collision pos size body = true
       ∧ a_star_search start goal size body
         = Ok (if bool_decide (start = goal) then Some [start] else None)
       ∧ has_path_to_target_bfs start goal size body
         = Ok (bool_decide (start = goal))
       ∧ find_reachable_areas_bfs start size body food = Ok (1, [start])
       ∧ calculate_action_cost pos current_direction proposed_action
           body food size
           (λ pos size body, Ok (is_collision pos size body))
           a_star_search is_future_isolated find_reachable_areas_bfs
         = Ok Infinity
       ∧ choose_best_action size pos current_direction body food
         = Ok current_direction)
  ∧ (∀ size goal, in_bounds size goal = false →
       ∀ start body,
         a_star_search start goal size body
         = Ok (if bool_decide (start = goal) then Some [start] else None)
         ∧ has_path_to_target_bfs start goal size body
           = Ok (bool_decide (start = goal)))
  ∧ (∀ size pos, is_collision pos size [] = negb (in_bounds size pos))
  ∧ (∀ start goal size body food,
       (∃ path, a_star_search start goal size body = Ok path)
       ∧ (∃ found, has_path_to_target_bfs start goal size body = Ok found)
       ∧ (∃ cells, find_reachable_areas_bfs start size body food
                   = Ok (Z.of_nat (length cells), cells)))
  ∧ (∀ head current_direction proposed_action body food size,
       (is_collision (move head proposed_action) size body = true →
        calculate_action_cost head current_direction proposed_action
          body food size
          (λ pos size body, Ok (is_collision pos size body))
          a_star_search is_future_isolated find_reachable_areas_bfs
        = Ok Infinity)
       ∧ (get_safe_actions size head body = [] →
          choose_best_action size head current_direction body food
          = Ok current_direction)).
Proof.
  split_and!.
  - intros size Hsize pos body start goal food current_direction
      proposed_action.
    split_and!.
    + by apply is_collision_nonpos.
    + apply a_star_search_out_of_bounds. by apply in_bounds_nonpos.
    + apply has_path_to_target_bfs_out_of_bounds. by apply in_bounds_nonpos.
    + by apply find_reachable_areas_bfs_nonpos.
    + apply calculate_action_cost_in_infinite. by apply is_collision_nonpos.
    + apply choose_best_action_no_safe. intros action.
      by apply is_collision_nonpos.
  - intros size goal Hb start body. split.
    + by apply a_star_search_out_of_bounds.
    + by apply has_path_to_target_bfs_out_of_bounds.
  - intros size pos. unfold is_collision.
    destruct (in_bounds size pos); [|done].
    cbn [negb removelast].
    destruct (decide (pos ∈ [])) as [Hin|Hout].
    + by apply elem_of_nil in Hin.
    + by rewrite (bool_decide_eq_false_2 _ Hout).
  - intros start goal size body food. split_and!.
    + destruct (a_star_search_shortest start goal size body)
        as (path & Hrun & _).
      by exists path.
    + destruct (has_path_to_target_bfs_reachable start goal size body)
        as (found & Hrun & _).
      by exists found.
    + destruct (find_reachable_areas_bfs_fills start size body food)
        as (cells & Hrun & _).
      by exists cells.
  - intros head current_direction proposed_action body food size. split.
    + intros Hcollides. by apply calculate_action_cost_in_infinite.
    + intros Hnone. apply choose_best_action_no_safe.
      by apply get_safe_actions_nil.
Qed.

Lemma invalid_snapshot_proceeds_witness :
  is_collision (3, 4) 0 [(3, 4); (3, 5)] = true
  ∧ a_star_search (0, 0) (12, 3) 10 [(0, 0); (0, 1)] = Ok None.
Proof.
  destruct invalid_snapshot_proceeds as (Hsize & Hgoal & _).
  split.
  - apply (Hsize 0 ltac:(lia) (3, 4) [(3, 4); (3, 5)] (0, 0) (0, 0) (0, 0) UP UP).
  - apply (Hgoal 10 (12, 3) eq_refl (0, 0) [(0, 0); (0, 1)]).
Defined.

(** C10 as stated fails: an empty body, a goal off the board and a board of
    size zero are each accepted, and a value comes back. *)
Lemma invalid_snapshot_not_rejected :
  (invalid_snapshot 10 [] (5, 5)
   ∧ a_star_search (4, 5) (5, 5) 10 [] = Ok (Some [(4, 5); (5, 5)])
   ∧ has_path_to_target_bfs (4, 5) (5, 5) 10 [] = Ok true
   ∧ is_collision (4, 5) 10 [] = false)
  ∧ (invalid_snapshot 3 [(0, 0); (0, 1)] (7, 7)
     ∧ a_star_search (0, 0) (7, 7) 3 [(0, 0); (0, 1)] = Ok None
     ∧ has_path_to_target_bfs (0, 0) (7, 7) 3 [(0, 0); (0, 1)] = Ok false
     ∧ find_reachable_areas_bfs (0, 0) 3 [(0, 0); (0, 1)] (7, 7)
       = Ok (8, [(0, 0); (1, 0); (1, 1); (2, 0); (1, 2); (2, 1); (0, 2); (2, 2)]))
  ∧ (invalid_snapshot 0 [(0, 0); (0, 1)] (0, 0)
     ∧ is_collision (0, 0) 0 [(0, 0); (0, 1)] = true
     ∧ choose_best_action 0 (0, 0) UP [(0, 0); (0, 1)] (0, 0) = Ok UP
     ∧ calculate_action_cost (0, 0) UP UP [(0, 0); (0, 1)] (0, 0) 0
         (λ pos size body, Ok (is_collision pos size body))
         a_star_search is_future_isolated find_reachable_areas_bfs
       = Ok Infinity)
  ∧ ¬ rejects_invalid_snapshots.
Proof.
  split_and!.
  - by left.
  - vm_compute; reflexivity.
  - vm_compute; reflexivity.
  - vm_compute; reflexivity.
  - right; left. reflexivity.
  - vm_compute; reflexivity.
  - vm_compute; reflexivity.
  - vm_compute; reflexivity.
  - right; right. lia.
  - vm_compute; reflexivity.
  - vm_compute; reflexivity.
  - vm_compute; reflexivity.
  - intros Hclaim.
    destruct (Hclaim 0 [] (0, 0) (0, 0) UP UP) as (Hraise & _).
    + by left.
    + assert (find_reachable_areas_bfs (0, 0) 0 [] (0, 0) = Ok (1, [(0, 0)]))
        as Hrun by (vm_compute; reflexivity).
      rewrite Hrun in Hraise. destruct Hraise.
Qed.

(** * Further properties of the searches *)

Lemma reachable_walk size obstacles start c :
  reachable size obstacles start c → ∃ path, walk size obstacles start path c.
Proof.
  revert c. apply rtc_ind_r.
  - exists []. constructor.
  - intros c n _ Hstep [path Hwalk]. exists (path ++ [c]). by constructor.
Qed.

Lemma reachable_iff_path size obstacles start c :
  reachable size obstacles start c
  ↔ ∃ p, path_between size obstacles start c p.
Proof.
  split.
  - intros [path Hwalk]%reachable_walk. eexists.
    by apply walk_path_between.
  - intros (p & (path & _ & Hwalk)%path_between_walk).
    by eapply walk_reachable.
Qed.

(** Whether the start cell counts as an obstacle does not change what can
    be reached from it. *)
Lemma reachable_start_exempt (size : Z) (obstacles : gset cell)
    (start c : cell) :
  reachable size (obstacles ∖ {[start]}) start c
  ↔ reachable size obstacles start c.
Proof.
  split.
  - revert c. apply rtc_ind_r; [apply rtc_refl|].
    intros c n _ (Hadj & Hb & Hobs) IH.
    destruct (decide (n = start)) as [->|Hne]; [apply rtc_refl|].
    eapply rtc_r; [done|]. split_and!; [done..|]. set_solver.
  - revert c. apply rtc_ind_r; [apply rtc_refl|].
    intros c n _ (Hadj & Hb & Hobs) IH.
    eapply rtc_r; [done|]. split_and!; [done..|]. set_solver.
Qed.

Lemma exempted_snoc_start body exempt start :
  exempted body (exempt ++ [start]) = exempted body exempt ∖ {[start]}.
Proof. unfold exempted. rewrite list_to_set_app_L. set_solver. Qed.

(** X1.  [has_path_to_target_bfs] always answers, and answers true exactly
    when a path leads from start to target over in-bounds cells that are not
    body cells, start and target themselves being exempt. *)
Theorem has_path_to_target_bfs_iff_path start_pos target_pos size body :
  ∃ b, has_path_to_target_bfs start_pos target_pos size body = Ok b
       ∧ (b = true ↔
          ∃ p, path_between size (exempted body [target_pos; start_pos])
                            start_pos target_pos p).
Proof.
  destruct (has_path_to_target_bfs_reachable start_pos target_pos size body)
    as (b & Hrun & Hiff).
  exists b. split; [done|]. by rewrite Hiff, reachable_iff_path.
Qed.

(** X2.  [is_future_isolated] always answers, and answers true exactly when
    neither the food nor the tail can be reached from the head (each search
    exempting its own target and the head). *)
Theorem is_future_isolated_iff head_pos food_pos size body tail_pos :
  ∃ b, is_future_isolated head_pos food_pos size body tail_pos = Ok b
       ∧ (b = true ↔
          ¬ reachable size (exempted body [food_pos; head_pos])
                      head_pos food_pos
          ∧ ¬ reachable size (exempted body [tail_pos; head_pos])
                        head_pos tail_pos).
Proof.
  unfold is_future_isolated.
  destruct (has_path_to_target_bfs_reachable head_pos food_pos size body)
    as (b1 & -> & Hfood).
  destruct (has_path_to_target_bfs_reachable head_pos tail_pos size body)
    as (b2 & Htail_run & Htail).
  destruct b1; simpl.
  - exists false. split; [done|]. split; [done|].
    intros [Hno _]. destruct Hno. by apply Hfood.
  - rewrite Htail_run. simpl. destruct b2.
    + exists false. split; [done|]. split; [done|].
      intros [_ Hno]. destruct Hno. by apply Htail.
    + exists true. split; [done|]. split; [|done]. intros _. split.
      * intros Hr. apply Hfood in Hr. done.
      * intros Hr. apply Htail in Hr. done.
Qed.

(** X3.  The two path searches agree: [a_star_search] returns a path exactly
    when [has_path_to_target_bfs] returns true on the same arguments. *)
Theorem a_star_search_agrees_with_has_path start goal size body :
  ∃ r b, a_star_search start goal size body = Ok r
         ∧ has_path_to_target_bfs start goal size body = Ok b
         ∧ (b = true ↔ is_Some r).
Proof.
  destruct (a_star_search_shortest start goal size body) as (r & Hr & Hshort).
  destruct (has_path_to_target_bfs_reachable start goal size body)
    as (b & Hb & Hiff).
  exists r, b. split_and!; [done..|]. rewrite Hiff. split.
  - intros [path Hwalk]%reachable_walk.
    destruct r as [p|]; [by eexists|]. by destruct (Hshort path).
  - intros [p ->]. destruct Hshort as (path & _ & Hwalk & _).
    by eapply walk_reachable.
Qed.

(** X4.  [has_path_to_target_bfs] is true exactly when the target is among
    the cells [find_reachable_areas_bfs] returns from the same start with
    the target as the exempt food cell. *)
Theorem has_path_iff_in_reachable_area start target size body :
  ∃ b cells,
    has_path_to_target_bfs start target size body = Ok b
    ∧ find_reachable_areas_bfs start size body target
      = Ok (Z.of_nat (length cells), cells)
    ∧ (b = true ↔ target ∈ cells).
Proof.
  destruct (has_path_to_target_bfs_reachable start target size body)
    as (b & Hb & Hiff).
  destruct (find_reachable_areas_bfs_fills start size body target)
    as (cells & Hcells & _ & Hin).
  exists b, cells. split_and!; [done..|].
  rewrite Hiff, Hin.
  change [target; start] with ([target] ++ [start]).
  by rewrite exempted_snoc_start, reachable_start_exempt.
Qed.

(** * The heuristic never overestimates *)

Lemma heuristic_sym a b : heuristic a b = heuristic b a.
Proof. unfold heuristic. lia. Qed.

Lemma heuristic_walk size obstacles start path c :
  walk size obstacles start path c →
  heuristic start c ≤ Z.of_nat (length path).
Proof.
  induction 1 as [|path c n _ IH [Hadj _]].
  - rewrite heuristic_self. simpl. lia.
  - rewrite length_app. simpl.
    pose proof (heuristic_adjacent c n start Hadj) as Hh.
    rewrite (heuristic_sym start n), (heuristic_sym start c) in *.
    destruct Hadj as [d ->]. unfold heuristic, move in *.
    destruct d; simpl in *; lia.
Qed.

(** X5.  [heuristic] is the Manhattan distance: for any two cells, on or off
    the board, it is symmetric and zero exactly between a cell and itself;
    and no path between two cells, on any board and around any obstacles,
    has fewer moves than it says. *)
Theorem heuristic_admissible (a b : cell) :
  heuristic a b = heuristic b a
  ∧ (heuristic a b = 0 ↔ a = b)
  ∧ 0 ≤ heuristic a b
  ∧ (∀ size obstacles p,
       path_between size obstacles a b p → heuristic a b ≤ steps_of p).
Proof.
  split_and!.
  - apply heuristic_sym.
  - destruct a as [ax ay], b as [bx by']. unfold heuristic. simpl. split.
    + intros Hz. f_equal; lia.
    + intros [= -> ->]. lia.
  - apply heuristic_nonneg.
  - intros size obstacles p (path & -> & Hwalk)%path_between_walk.
    rewrite steps_of_snoc. by eapply heuristic_walk.
Qed.

Lemma heuristic_admissible_witness :
  heuristic (2, 2) (0, 0) ≤ steps_of [(2, 2); (2, 1); (2, 0); (1, 0); (0, 0)].
Proof.
  apply (proj2 (proj2 (proj2 (heuristic_admissible (2, 2) (0, 0)))) 10 ∅
           [(2, 2); (2, 1); (2, 0); (1, 0); (0, 0)]).
  split; [reflexivity|]. split; [reflexivity|]. vm_compute. reflexivity.
Defined.

(** * Shape of the path a_star_search returns *)

Lemma chain_cons size obstacles a l :
  chain size obstacles (a :: l) = true
  ↔ match l with
    | [] => True
    | b :: _ => stepb size obstacles a b = true
    end ∧ chain size obstacles l = true.
Proof.
  destruct l as [|b l]; simpl; [tauto|]. by rewrite andb_true_iff.
Qed.

Lemma chain_app_r size obstacles l1 l2 :
  chain size obstacles (l1 ++ l2) = true → chain size obstacles l2 = true.
Proof.
  induction l1 as [|a l1 IH]; [done|].
  change ((a :: l1) ++ l2) with (a :: (l1 ++ l2)).
  intros [_ H]%chain_cons. by apply IH.
Qed.

Lemma chain_app_l size obstacles l1 l2 :
  chain size obstacles (l1 ++ l2) = true → chain size obstacles l1 = true.
Proof.
  induction l1 as [|a l1 IH]; [done|].
  change ((a :: l1) ++ l2) with (a :: (l1 ++ l2)).
  intros [Hhead H]%chain_cons. apply chain_cons. split; [|by apply IH].
  by destruct l1.
Qed.

Lemma chain_glue size obstacles l1 x l2 :
  chain size obstacles (l1 ++ [x]) = true →
  chain size obstacles (x :: l2) = true →
  chain size obstacles (l1 ++ x :: l2) = true.
Proof.
  intros H1 H2. induction l1 as [|a l1 IH]; [done|].
  change ((a :: l1) ++ x :: l2) with (a :: (l1 ++ x :: l2)).
  change ((a :: l1) ++ [x]) with (a :: (l1 ++ [x])) in H1.
  apply chain_cons in H1 as [Hhead H1]. apply chain_cons.
  split; [|by apply IH]. by destruct l1.
Qed.

Lemma chain_tail_free size obstacles a l c :
  chain size obstacles (a :: l) = true → c ∈ l →
  in_bounds size c = true ∧ c ∉ obstacles.
Proof.
  revert a. induction l as [|b l IH]; intros a Hchain Hc.
  { by apply elem_of_nil in Hc. }
  apply chain_cons in Hchain as [Hstep Hchain].
  apply elem_of_cons in Hc as [->|Hc]; [|by eapply IH].
  by apply step_iff in Hstep as (_ & ? & ?).
Qed.

Lemma not_NoDup_split (p : list cell) :
  ¬ NoDup p → ∃ x l1 l2 l3, p = l1 ++ x :: l2 ++ x :: l3.
Proof.
  induction p as [|a p IH]; intros Hdup.
  { destruct Hdup. constructor. }
  destruct (decide (a ∈ p)) as [Hin|Hout].
  - apply list_elem_of_split in Hin as (l2 & l3 & ->).
    by exists a, [], l2, l3.
  - destruct IH as (x & l1 & l2 & l3 & ->).
    { intros Hnd. apply Hdup. by apply NoDup_cons. }
    by exists x, (a :: l1), l2, l3.
Qed.

(** A path that visits a cell twice can be cut short. *)
Lemma path_shorten size obstacles a b p :
  path_between size obstacles a b p → ¬ NoDup p →
  ∃ p', path_between size obstacles a b p' ∧ (length p' < length p)%nat.
Proof.
  intros (Hhead & Hlast & Hchain) (x & l1 & l2 & l3 & ->)%not_NoDup_split.
  exists (l1 ++ x :: l3). split; [split_and!|].
  - by destruct l1.
  - rewrite last_app_cons in Hlast. rewrite last_cons in Hlast.
    rewrite last_app_cons in Hlast. rewrite last_app_cons.
    destruct (last (x :: l3)) as [y|] eqn:Hl; [done|].
    rewrite last_cons in Hl. by destruct (last l3).
  - apply chain_glue.
    + rewrite (cons_middle x l1), (assoc_L (++)) in Hchain.
      by apply chain_app_l in Hchain.
    + apply chain_app_r in Hchain.
      change (x :: l2 ++ x :: l3) with ((x :: l2) ++ x :: l3) in Hchain.
      by apply chain_app_r in Hchain.
  - rewrite !length_app. simpl. rewrite length_app. simpl. lia.
Qed.

(** X6.  A path returned by [a_star_search] visits no cell twice; every cell
    after the first is on the board and is not a body cell, unless it is the
    goal or the start; and its number of moves lies between the Manhattan
    distance of its ends and the number of board cells. *)
Theorem a_star_search_path_shape start goal size body p :
  a_star_search start goal size body = Ok (Some p) →
  NoDup p
  ∧ head p = Some start ∧ last p = Some goal
  ∧ (∀ c, c ∈ tail p →
          in_bounds size c = true ∧ (c ∈ body → c = goal ∨ c = start))
  ∧ heuristic start goal ≤ steps_of p ≤ size * size.
Proof.
  intros Hrun.
  destruct (a_star_search_shortest start goal size body) as (r & Hr & Hshort).
  rewrite Hrun in Hr. injection Hr as <-.
  destruct Hshort as (path & -> & Hwalk & Hmin).
  pose proof (walk_path_between _ _ _ _ _ Hwalk) as Hpath.
  assert (NoDup (path ++ [goal])) as Hnd.
  { destruct (decide (NoDup (path ++ [goal]))) as [|Hdup]; [done|].
    destruct (path_shorten _ _ _ _ _ Hpath Hdup) as (p' & Hp' & Hlen).
    apply path_between_walk in Hp' as (path' & -> & Hwalk').
    specialize (Hmin path' Hwalk'). rewrite !length_app in Hlen.
    simpl in Hlen. lia. }
  destruct Hpath as (Hhead & Hlast & Hchain).
  assert (∀ c, c ∈ tail (path ++ [goal]) →
               in_bounds size c = true
               ∧ c ∉ exempted body [goal; start]) as Hfree.
  { intros c Hc. destruct (path ++ [goal]) as [|a l] eqn:Hp; [done|].
    by eapply chain_tail_free. }
  split_and!; [done..| | |].
  - intros c Hc. destruct (Hfree c Hc) as [Hb Hobs]. split; [done|].
    intros Hbody. rewrite elem_of_exempted in Hobs.
    destruct (decide (c = goal)) as [|Hg]; [by left|].
    destruct (decide (c = start)) as [|Hs]; [by right|].
    destruct Hobs. split; [done|]. set_solver.
  - rewrite steps_of_snoc. by eapply heuristic_walk.
  - assert (tail (path ++ [goal]) ⊆+ board_cells size) as Hsub.
    { apply NoDup_submseteq.
      - destruct (path ++ [goal]); [constructor|].
        by apply NoDup_cons in Hnd as [_ ?].
      - intros c Hc. apply elem_of_board_cells. by apply Hfree. }
    apply submseteq_length in Hsub.
    pose proof (length_board_cells size) as Hboard.
    assert (length (tail (path ++ [goal])) = length path) as Htail.
    { destruct path; simpl; [done|]. rewrite length_app. simpl. lia. }
    assert (0 ≤ size * size) by nia.
    rewrite steps_of_snoc. lia.
Qed.

Lemma a_star_search_path_shape_witness :
  NoDup [(2, 2); (1, 2); (0, 2); (0, 1); (0, 0)].
Proof.
  apply (a_star_search_path_shape (2, 2) (0, 0) 10
           [(2, 2); (2, 3); (2, 4)] [(2, 2); (1, 2); (0, 2); (0, 1); (0, 0)]).
  vm_compute. reflexivity.
Defined.

(** * Size and contents of the reachable area *)

Lemma flood_loop_head push dirs fuel size obstacles curr frontier seen
    filled cells :
  flood_loop push dirs (S fuel) size obstacles (curr :: frontier) seen filled
  = Ok cells →
  ∃ rest, cells = filled ++ curr :: rest.
Proof.
  cbn [flood_loop]. intros [rest ->]%flood_loop_extends.
  exists rest. by rewrite <- (assoc_L (++)).
Qed.

Lemma flood_fill_head push dirs start size obstacles cells :
  flood_fill push dirs start size obstacles = Ok cells →
  ∃ rest, cells = start :: rest.
Proof.
  unfold flood_fill, bfs_fuel. rewrite Nat.add_comm.
  change (2 + Z.to_nat (size * size))%nat
    with (S (S (Z.to_nat (size * size)))).
  intros [rest ->]%flood_loop_head. by exists rest.
Qed.

(** X7.  [find_reachable_areas_bfs] lists the start cell first and counts
    it; every other listed cell is on the board, differs from start and is
    not a body cell unless it is the food cell; so the count is at least 1
    and at most the number of board cells plus one. *)
Theorem find_reachable_areas_bfs_bounds start size body food :
  ∃ rest,
    find_reachable_areas_bfs start size body food
    = Ok (Z.of_nat (length (start :: rest)), start :: rest)
    ∧ 1 ≤ Z.of_nat (length (start :: rest)) ≤ size * size + 1
    ∧ ∀ c, c ∈ rest →
           c ≠ start ∧ in_bounds size c = true ∧ (c ∈ body → c = food).
Proof.
  unfold find_reachable_areas_bfs.
  rewrite reachable_loop_flood, obstacle_set_exempted.
  destruct (flood_fill_fills (λ q c, q ++ [c]) all_directions snoc_perm
              all_directions_all size (exempted body [food]) start)
    as (cells & Hrun & Hnd & Hiff).
  destruct (flood_fill_head _ _ _ _ _ _ Hrun) as [rest ->].
  unfold flood_fill in Hrun. rewrite Hrun. exists rest.
  apply NoDup_cons in Hnd as [Hstart Hnd].
  assert (∀ c, c ∈ rest →
               c ≠ start ∧ in_bounds size c = true
               ∧ (c ∈ body → c = food)) as Hrest.
  { intros c Hc. assert (c ≠ start) as Hne by (by intros ->).
    split; [done|].
    assert (reachable size (exempted body [food]) start c) as Hr
      by (apply Hiff; set_solver).
    apply rtc_inv_r in Hr as [->|(y & _ & _ & Hb & Hobs)]; [done|].
    split; [done|]. intros Hbody. rewrite elem_of_exempted in Hobs.
    destruct (decide (c = food)) as [|Hf]; [done|].
    destruct Hobs. split; [done|]. set_solver. }
  split_and!; [done|simpl; lia| |done].
  - assert (rest ⊆+ board_cells size) as Hsub.
    { apply NoDup_submseteq; [done|]. intros c Hc.
      apply elem_of_board_cells. by apply Hrest. }
    apply submseteq_length in Hsub.
    pose proof (length_board_cells size).
    assert (0 ≤ size * size) by nia. simpl. lia.
Qed.

(** * Policy: which actions are safe, and what happens when some are *)

Lemma get_safe_actions_filter board_size current_head snake_body :
  get_safe_actions board_size current_head snake_body
  = filter (λ action, is_collision (move current_head action) board_size
                                   snake_body = false) all_directions.
Proof.
  unfold get_safe_actions, all_directions. simpl.
  rewrite !filter_cons, filter_nil.
  destruct (is_collision (move current_head UP) _ _),
           (is_collision (move current_head DOWN) _ _),
           (is_collision (move current_head LEFT) _ _),
           (is_collision (move current_head RIGHT) _ _); reflexivity.
Qed.

(** X8.  [get_safe_actions] returns exactly the directions whose next cell
    is not a collision, each once and in the enum's order UP, DOWN, LEFT,
    RIGHT. *)
Theorem get_safe_actions_spec board_size current_head snake_body :
  (∀ action,
     action ∈ get_safe_actions board_size current_head snake_body
     ↔ is_collision (move current_head action) board_size snake_body = false)
  ∧ NoDup (get_safe_actions board_size current_head snake_body)
  ∧ sublist (get_safe_actions board_size current_head snake_body)
            [UP; DOWN; LEFT; RIGHT].
Proof.
  rewrite get_safe_actions_filter. split_and!.
  - intros action. rewrite list_elem_of_filter.
    pose proof (all_directions_all action). tauto.
  - apply NoDup_filter. unfold all_directions.
    repeat (apply NoDup_cons; split; [set_solver|]). constructor.
  - apply sublist_filter.
Qed.

Lemma calculate_action_cost_unbound current_head current_direction
    proposed_action snake_body food_position board_size :
  is_collision (move current_head proposed_action) board_size snake_body
  = false →
  calculate_action_cost current_head current_direction proposed_action
    snake_body food_position board_size
    (λ pos size body, Ok (is_collision pos size body))
    a_star_search is_future_isolated find_reachable_areas_bfs
  = Raise (NameError "deque").
Proof.
  intros Hfree. unfold calculate_action_cost, calculate_action_cost_in.
  simpl. rewrite Hfree.
  destruct (a_star_search_shortest (move current_head proposed_action)
              food_position board_size snake_body) as (r & -> & _).
  reflexivity.
Qed.

(** X9.  [choose_best_action] returns a direction only when no action is
    safe (and then it is the current direction); as soon as one action is
    safe, scoring it raises [NameError] for [deque] and the call fails. *)
Theorem choose_best_action_outcome board_size current_head current_direction
    snake_body food_position :
  (get_safe_actions board_size current_head snake_body = [] ∧
   choose_best_action board_size current_head current_direction snake_body
                      food_position = Ok current_direction)
  ∨ (get_safe_actions board_size current_head snake_body ≠ [] ∧
     choose_best_action board_size current_head current_direction snake_body
                        food_position = Raise (NameError "deque")).
Proof.
  destruct (get_safe_actions board_size current_head snake_body)
    as [|action rest] eqn:Hsafe.
  - left. split; [done|]. apply choose_best_action_no_safe.
    by apply get_safe_actions_nil.
  - right. split; [done|]. unfold choose_best_action. rewrite Hsafe.
    assert (is_collision (move current_head action) board_size snake_body
            = false) as Hfree.
    { rewrite get_safe_actions_filter in Hsafe.
      assert (action ∈ filter (λ action,
                is_collision (move current_head action) board_size snake_body
                = false) all_directions) as Hin
        by (rewrite Hsafe; apply list_elem_of_here).
      by apply list_elem_of_filter in Hin as [? _]. }
    cbn [mapM]. rewrite (calculate_action_cost_unbound _ _ _ _ _ _ Hfree).
    reflexivity.
Qed.

(** * find_safe_path *)

Lemma a_star_search_set start goal size body body' :
  (list_to_set body : gset cell) = list_to_set body' →
  a_star_search start goal size body = a_star_search start goal size body'.
Proof.
  intros Hset. unfold a_star_search.
  rewrite !obstacle_set_exempted. unfold exempted. by rewrite Hset.
Qed.

(** X10.  [find_safe_path] is [a_star_search]: turning the body into a set
    and back changes nothing, and the [current_tail] argument has no effect
    on the result. *)
Theorem find_safe_path_is_a_star start target size body current_tail :
  find_safe_path start target size body current_tail
  = a_star_search start target size body.
Proof.
  unfold find_safe_path.
  assert (a_star_search start target size (set_as_list body)
          = a_star_search start target size body) as ->.
  { apply a_star_search_set. unfold set_as_list.
    apply list_to_set_elements_L. }
  case_bool_decide; [|done].
  destruct (a_star_search_shortest start target size body) as (r & -> & Hr).
  simpl. destruct r as [p|]; [|done].
  destruct Hr as (path & -> & _). by destruct path.
Qed.

(** * find_longest_path_bfs *)

Lemma longest_visit_bfs_visit (path_so_far : list cell) (size : Z)
    (obstacles : gset cell) (current_pos : cell)
    (st : list (cell * list cell) * gset cell) (d : Direction) :
  longest_visit path_so_far size obstacles current_pos st d
  = bfs_visit (λ n, (n, path_so_far ++ [current_pos])) size obstacles
              current_pos st d.
Proof.
  unfold longest_visit, bfs_visit.
  destruct (in_bounds size (move current_pos d)); simpl; [|done].
  destruct (decide (move current_pos d ∈ obstacles)) as [Ho|Ho],
           (decide (move current_pos d ∈ st.2)) as [Hs|Hs].
  - rewrite (bool_decide_eq_true_2 _ Ho).
    rewrite (bool_decide_eq_false_2 (_ ∉ st.2)) by tauto. done.
  - rewrite (bool_decide_eq_true_2 _ Ho).
    rewrite (bool_decide_eq_true_2 (_ ∉ st.2)) by done.
    rewrite (bool_decide_eq_false_2 (_ ∉ obstacles)) by tauto. done.
  - rewrite (bool_decide_eq_false_2 _ Ho), (bool_decide_eq_true_2 _ Hs).
    rewrite (bool_decide_eq_false_2 (_ ∉ st.2)) by tauto. done.
  - rewrite (bool_decide_eq_false_2 _ Ho), (bool_decide_eq_false_2 _ Hs).
    rewrite (bool_decide_eq_true_2 (_ ∉ st.2)) by done.
    rewrite (bool_decide_eq_true_2 (_ ∉ obstacles)) by done. done.
Qed.

Lemma longest_fold_bfs_visit (path_so_far : list cell) (size : Z)
    (obstacles : gset cell) (current_pos : cell) (ds : list Direction)
    (st : list (cell * list cell) * gset cell) :
  foldl (longest_visit path_so_far size obstacles current_pos) st ds
  = foldl (bfs_visit (λ n, (n, path_so_far ++ [current_pos])) size obstacles
                     current_pos) st ds.
Proof.
  revert st. induction ds as [|d ds IH]; intros st; [done|].
  simpl. by rewrite longest_visit_bfs_visit, IH.
Qed.

Lemma move_inj c d d' : move c d = move c d' → d = d'.
Proof.
  destruct c as [x y]. unfold move.
  destruct d, d'; simpl; intros [=]; try done; lia.
Qed.

Lemma bfs_visit_fold_mono {A} (mk : cell → A) (size : Z)
    (obstacles : gset cell) (curr : cell) (ds : list Direction)
    (st : list A * gset cell) (x : A) :
  x ∈ st.1 → x ∈ (foldl (bfs_visit mk size obstacles curr) st ds).1.
Proof.
  revert st. induction ds as [|d ds IH]; intros st Hx; [done|].
  simpl. apply IH. unfold bfs_visit.
  destruct (_ && _); simpl; [|done]. set_solver.
Qed.

Lemma bfs_visit_fold_enqueues {A} (mk : cell → A) (size : Z)
    (obstacles : gset cell) (curr : cell) (ds : list Direction)
    (st : list A * gset cell) (d : Direction) :
  d ∈ ds → step size obstacles curr (move curr d) → move curr d ∉ st.2 →
  mk (move curr d) ∈ (foldl (bfs_visit mk size obstacles curr) st ds).1.
Proof.
  revert st. induction ds as [|d0 ds IH]; intros st Hd Hstep Hseen.
  { by apply elem_of_nil in Hd. }
  simpl. destruct (decide (d = d0)) as [<-|Hne].
  - apply bfs_visit_fold_mono. unfold bfs_visit.
    destruct Hstep as (_ & -> & Hobs). simpl.
    rewrite (bool_decide_eq_true_2 _ Hseen), (bool_decide_eq_true_2 _ Hobs).
    simpl. set_solver.
  - apply elem_of_cons in Hd as [?|Hd]; [done|].
    apply IH; [done..|]. unfold bfs_visit.
    destruct (_ && _); simpl; [|done].
    intros [Heq%elem_of_singleton|?]%elem_of_union; [|done].
    by apply move_inj in Heq.
Qed.

Lemma bfs_visit_fold_stuck {A} (mk : cell → A) (size : Z)
    (obstacles : gset cell) (curr : cell) (ds : list Direction)
    (st : list A * gset cell) :
  (∀ n, ¬ step size obstacles curr n) →
  foldl (bfs_visit mk size obstacles curr) st ds = st.
Proof.
  intros Hstuck. revert st. induction ds as [|d ds IH]; intros st; [done|].
  simpl. rewrite <- (IH st) at 2. f_equal. unfold bfs_visit.
  destruct (in_bounds size (move curr d)) eqn:Hb; simpl; [|done].
  destruct (bool_decide (move curr d ∉ st.2)); simpl; [|done].
  case_bool_decide as Hobs; [|done].
  destruct (Hstuck (move curr d)). split_and!; [by exists d|done..].
Qed.

Lemma longest_loop_flood (fuel : nat) (size : Z) (obstacles : gset cell)
    (q : list (cell * list cell)) (seen : gset cell)
    (filled cells longest : list cell) :
  flood_loop (λ q c, q ++ [c]) all_directions fuel size obstacles
             (q.*1) seen filled = Ok cells →
  ∃ r, longest_loop fuel size obstacles q seen longest = Ok r.
Proof.
  revert q seen filled longest.
  induction fuel as [|fuel IH]; intros q seen filled longest; [done|].
  destruct q as [|[curr path] q];
    cbn [flood_loop longest_loop fmap list_fmap fst snd].
  - intros _. by eexists.
  - intros Hrun. rewrite longest_fold_bfs_visit.
    pose proof (bfs_visit_fst (λ n, (n, path ++ [curr]))
                  fst size obstacles curr (q, seen) all_directions) as Hfst.
    cbv zeta in Hfst. cbn [fst snd] in Hfst. rewrite Hfst in Hrun by done.
    cbn [fst snd] in Hrun. by eapply IH.
Qed.

Lemma longest_loop_sound (fuel : nat) (size : Z) (obstacles : gset cell)
    (start : cell) (q : list (cell * list cell)) (seen : gset cell)
    (longest r : list cell) :
  (∀ c path, (c, path) ∈ q → walk size obstacles start path c) →
  (longest = [] ∨ ∃ c, walk size obstacles start longest c) →
  longest_loop fuel size obstacles q seen longest = Ok r →
  (r = [] ∨ ∃ c, walk size obstacles start r c)
  ∧ (length longest ≤ length r)%nat
  ∧ ∀ c path, (c, path) ∈ q → (length path ≤ length r)%nat.
Proof.
  revert q seen longest.
  induction fuel as [|fuel IH]; intros q seen longest Hq Hlongest; [done|].
  destruct q as [|[curr path] q]; cbn [longest_loop].
  - intros [= <-]. split_and!; [done|lia|].
    intros c path' Hin. by apply elem_of_nil in Hin.
  - rewrite longest_fold_bfs_visit. intros Hrun.
    apply IH in Hrun as (Hr & Hlen & Hall).
    + split_and!; [done| |].
      * destruct (Nat.ltb_spec (length longest) (length path)); lia.
      * intros c path' [[= -> ->]|Hin]%elem_of_cons.
        -- destruct (Nat.ltb_spec (length longest) (length path)); lia.
        -- apply (Hall c). by apply bfs_visit_fold_mono.
    + intros c path' [Hin|(n & [= -> ->] & Hstep)]%bfs_visit_items.
      * apply Hq. set_solver.
      * apply walk_snoc; [|done]. apply Hq. set_solver.
    + destruct (length longest <? length path)%nat; [|done].
      right. exists curr. apply Hq. set_solver.
Qed.

Lemma longest_loop_step (fuel : nat) (size : Z) (obstacles : gset cell)
    (curr : cell) (path : list cell) (q : list (cell * list cell))
    (seen : gset cell) (longest : list cell) :
  longest_loop (S fuel) size obstacles ((curr, path) :: q) seen longest
  = longest_loop fuel size obstacles
      (foldl (bfs_visit (λ n, (n, path ++ [curr])) size obstacles curr)
             (q, seen) all_directions).1
      (foldl (bfs_visit (λ n, (n, path ++ [curr])) size obstacles curr)
             (q, seen) all_directions).2
      (if (length longest <? length path)%nat then path else longest).
Proof. cbn [longest_loop]. by rewrite longest_fold_bfs_visit. Qed.

(** X11.  [find_longest_path_bfs] always returns.  It returns [None] exactly
    when the start is a body or avoided cell, or has no free neighbour.  A
    returned path is not empty, begins at start, stops one move short of a
    reachable cell and runs over free cells only. *)
Theorem find_longest_path_bfs_spec start size body avoid :
  ∃ r,
    find_longest_path_bfs start size body avoid = Ok r
    ∧ (r = None ↔
       start ∈ body ++ avoid
       ∨ ¬ ∃ n, step size (exempted (body ++ avoid) [start]) start n)
    ∧ ∀ p, r = Some p →
           head p = Some start
           ∧ ∃ c, path_between size (exempted (body ++ avoid) [start])
                               start c (p ++ [c]).
Proof.
  unfold find_longest_path_bfs. rewrite obstacle_set_exempted.
  set (obstacles := exempted (body ++ avoid) [start]).
  destruct (flood_fill_fills (λ q c, q ++ [c]) all_directions snoc_perm
              all_directions_all size obstacles start)
    as (cells & Hflood & _).
  destruct (longest_loop_flood (bfs_fuel size) size obstacles
              [(start, [])] {[start]} [] cells [] Hflood) as (longest & Hrun).
  rewrite Hrun. simpl.
  assert (∀ c path, (c, path) ∈ [(start, @nil cell)] →
                    walk size obstacles start path c) as Hinit.
  { intros c path [= -> ->]%list_elem_of_singleton. constructor. }
  destruct (longest_loop_sound _ _ _ start _ _ _ _ Hinit
              (or_introl eq_refl) Hrun) as (Hwalk & _ & _).
  assert ((∃ n, step size obstacles start n) → longest ≠ []) as Hfree.
  { intros [n Hstep] ->. revert Hrun.
    unfold bfs_fuel. rewrite Nat.add_comm.
    change (2 + Z.to_nat (size * size))%nat
      with (S (S (Z.to_nat (size * size)))).
    rewrite longest_loop_step. intros Hrun.
    destruct Hstep as [[d ->] Hstep'].
    eapply longest_loop_sound in Hrun as (_ & _ & Hall).
    - specialize (Hall (move start d) ([] ++ [start])).
      assert (length (@nil cell ++ [start]) ≤ length (@nil cell))%nat
        as Habs; [|simpl in Habs; lia].
      apply Hall.
      apply (bfs_visit_fold_enqueues (λ n, (n, [] ++ [start]))).
      + apply all_directions_all.
      + split; [by exists d|done].
      + simpl. intros Heq%elem_of_singleton.
        destruct start as [x y]. unfold move in Heq.
        destruct d; simpl in Heq; injection Heq; lia.
    - intros c path [Hin|(n & [= -> ->] & Hn)]%bfs_visit_items.
      + by apply elem_of_nil in Hin.
      + apply (walk_snoc _ _ _ []); [constructor|done].
    - by left. }
  assert ((¬ ∃ n, step size obstacles start n) → longest = []) as Hstuck.
  { intros Hno. revert Hrun.
    unfold bfs_fuel. rewrite Nat.add_comm.
    change (2 + Z.to_nat (size * size))%nat
      with (S (S (Z.to_nat (size * size)))).
    rewrite longest_loop_step.
    rewrite bfs_visit_fold_stuck by (intros n Hn; apply Hno; by exists n).
    simpl. by intros [= <-]. }
  case_bool_decide as Hstart.
  - exists None. split_and!; [done| |done].
    split; [|done]. intros _. left.
    rewrite elem_of_list_to_set in Hstart. done.
  - rewrite elem_of_list_to_set in Hstart.
    destruct longest as [|a longest'] eqn:Hlongest.
    + exists None. split_and!; [done| |done]. split; [|done].
      intros _. right. intros Hn. by apply Hfree in Hn.
    + exists (Some (a :: longest')). split_and!; [done| |].
      * split; [done|]. intros [?|Hno]; [done|]. by apply Hstuck in Hno.
      * intros p [= <-]. destruct Hwalk as [|[c Hwalk]]; [done|].
        apply walk_path_between in Hwalk as Hpath.
        split; [|by exists c]. destruct Hpath as (Hhead & _). done.
Qed.

(** * state_perception.py: helpers *)

(** X12.  [is_valid_move] is stricter than [is_collision]: a valid move is
    never a collision, and the two differ exactly on the tail cell, when it
    is on the board and occurs nowhere else in the body. *)
Theorem is_valid_move_vs_is_collision pos size body :
  (is_valid_move pos size body = true → is_collision pos size body = false)
  ∧ (is_valid_move pos size body = false ∧ is_collision pos size body = false
     ↔ in_bounds size pos = true ∧ last body = Some pos
       ∧ pos ∉ removelast body).
Proof.
  unfold is_valid_move, is_collision.
  destruct (in_bounds size pos); simpl; [|split; [done|]; intuition congruence].
  destruct body as [|tail front _] using rev_ind.
  - cbn [removelast last].
    destruct (decide (pos ∈ [])) as [Hin|Hout]; [by apply elem_of_nil in Hin|].
    rewrite !(bool_decide_eq_false_2 _ Hout).
    split; [done|]. intuition congruence.
  - rewrite removelast_snoc, last_snoc.
    destruct (decide (pos ∈ front)) as [Hfront|Hfront].
    + rewrite (bool_decide_eq_true_2 (pos ∈ front ++ [tail])) by set_solver.
      rewrite (bool_decide_eq_true_2 _ Hfront).
      split; [done|]. intuition congruence.
    + rewrite (bool_decide_eq_false_2 _ Hfront).
      destruct (decide (pos = tail)) as [->|Hne].
      * rewrite (bool_decide_eq_true_2 (tail ∈ front ++ [tail]))
          by set_solver.
        split; [done|]. intuition.
      * rewrite (bool_decide_eq_false_2 (pos ∈ front ++ [tail]))
          by set_solver.
        split; [done|]. intuition congruence.
Qed.

Lemma is_valid_move_vs_is_collision_witness :
  is_collision (5, 5) 10 [(5, 4); (4, 4)] = false.
Proof.
  apply (proj1 (is_valid_move_vs_is_collision (5, 5) 10 [(5, 4); (4, 4)])).
  reflexivity.
Defined.

(** X13.  [get_head_tail_coordinates] raises [ValueError] exactly on the
    empty body; otherwise it returns the first and the last cell, which
    coincide for a body of one cell. *)
Theorem get_head_tail_coordinates_spec body :
  (get_head_tail_coordinates body
   = Fail (ValueError "Snake body cannot be empty.") ↔ body = [])
  ∧ (∀ h t, get_head_tail_coordinates body = Return (h, t)
            ↔ head body = Some h ∧ last body = Some t)
  ∧ (∀ h, get_head_tail_coordinates [h] = Return (h, h))
  ∧ (∀ h middle t,
       get_head_tail_coordinates (h :: middle ++ [t]) = Return (h, t)).
Proof.
  split_and!.
  - destruct body; simpl; split; done.
  - intros h t. destruct body as [|a body]; simpl; [split; [done|]|].
    { by intros [? _]. }
    destruct (last (a :: body)) as [l|] eqn:Hlast; simpl.
    + split; [by intros [= -> ->]|]. by intros [[= ->] [= ->]].
    + rewrite last_cons in Hlast. by destruct (last body).
  - done.
  - intros h middle t. unfold get_head_tail_coordinates.
    change (h :: middle ++ [t]) with ((h :: middle) ++ [t]).
    by rewrite last_snoc.
Qed.

(** * encode_board *)

Lemma get_cell_set_cell_eq (board : list (list Z)) (pos : cell) (v : Z)
    (n : nat) :
  length board = n → Forall (λ row, length row = n) board →
  (Z.to_nat pos.1 < n)%nat → (Z.to_nat pos.2 < n)%nat →
  get_cell (set_cell board pos v) pos = Some v.
Proof.
  intros Hlen Hrows Hx Hy. unfold get_cell, set_cell.
  rewrite list_lookup_alter_eq.
  destruct (lookup_lt_is_Some_2 board (Z.to_nat pos.2)) as [row Hrow];
    [lia|].
  rewrite Hrow. simpl. apply list_lookup_insert_eq.
  rewrite Forall_forall in Hrows.
  rewrite (Hrows row); [done|]. by eapply list_elem_of_lookup_2.
Qed.

Lemma get_cell_set_cell_ne (board : list (list Z)) (pos pos' : cell) (v : Z) :
  (Z.to_nat pos.1 ≠ Z.to_nat pos'.1 ∨ Z.to_nat pos.2 ≠ Z.to_nat pos'.2) →
  get_cell (set_cell board pos v) pos' = get_cell board pos'.
Proof.
  intros Hne. unfold get_cell, set_cell.
  destruct (decide (Z.to_nat pos.2 = Z.to_nat pos'.2)) as [Heq|Hy].
  - rewrite Heq, list_lookup_alter_eq.
    destruct (board !! Z.to_nat pos'.2) as [row|]; simpl; [|done].
    apply list_lookup_insert_ne. destruct Hne; [done|lia].
  - by rewrite list_lookup_alter_ne.
Qed.

Lemma set_cell_dims (board : list (list Z)) (pos : cell) (v : Z) (n : nat) :
  length board = n → Forall (λ row, length row = n) board →
  length (set_cell board pos v) = n
  ∧ Forall (λ row, length row = n) (set_cell board pos v).
Proof.
  intros Hlen Hrows. unfold set_cell. split.
  - by rewrite length_alter.
  - apply Forall_alter; [done|]. intros row _ Hrow.
    by rewrite length_insert.
Qed.

Lemma in_bounds_index size pos :
  in_bounds size pos = true →
  (Z.to_nat pos.1 < Z.to_nat size)%nat ∧ (Z.to_nat pos.2 < Z.to_nat size)%nat.
Proof. rewrite in_bounds_spec. lia. Qed.

Lemma in_bounds_index_ne size pos pos' :
  in_bounds size pos = true → in_bounds size pos' = true → pos ≠ pos' →
  Z.to_nat pos.1 ≠ Z.to_nat pos'.1 ∨ Z.to_nat pos.2 ≠ Z.to_nat pos'.2.
Proof.
  rewrite !in_bounds_spec. destruct pos as [x y], pos' as [x' y']. simpl.
  intros ? ? Hne.
  destruct (decide (x = x')) as [->|]; [|left; lia].
  right. intros ?. apply Hne. f_equal. lia.
Qed.

Lemma encode_fold size (body marked : list cell) (board : list (list Z)) :
  length board = Z.to_nat size →
  Forall (λ row, length row = Z.to_nat size) board →
  (∀ pos, in_bounds size pos = true →
          get_cell board pos
          = Some (if bool_decide (pos ∈ marked) then 1 else 0)) →
  let board' :=
    foldl (λ board pos, if in_bounds size pos then set_cell board pos 1
                        else board) board body in
  length board' = Z.to_nat size
  ∧ Forall (λ row, length row = Z.to_nat size) board'
  ∧ ∀ pos, in_bounds size pos = true →
           get_cell board' pos
           = Some (if bool_decide (pos ∈ marked ++ body) then 1 else 0).
Proof.
  revert marked board. induction body as [|a body IH];
    intros marked board Hlen Hrows Hcells; simpl.
  { rewrite app_nil_r. done. }
  replace (marked ++ a :: body) with ((marked ++ [a]) ++ body)
    by by rewrite <- (assoc_L (++)).
  destruct (in_bounds size a) eqn:Ha.
  - destruct (set_cell_dims board a 1 _ Hlen Hrows) as [Hlen' Hrows'].
    apply IH; [done..|]. intros pos Hpos.
    destruct (decide (pos = a)) as [->|Hne].
    + rewrite (bool_decide_eq_true_2 (a ∈ marked ++ [a])) by set_solver.
      destruct (in_bounds_index _ _ Ha).
      by eapply get_cell_set_cell_eq.
    + rewrite get_cell_set_cell_ne
        by (apply (in_bounds_index_ne size); done).
      rewrite Hcells by done. f_equal.
      destruct (decide (pos ∈ marked)).
      * by rewrite !bool_decide_eq_true_2 by set_solver.
      * by rewrite !bool_decide_eq_false_2 by set_solver.
  - apply IH; [done..|]. intros pos Hpos.
    assert (pos ≠ a) by congruence.
    rewrite Hcells by done. f_equal.
    destruct (decide (pos ∈ marked)).
    + by rewrite !bool_decide_eq_true_2 by set_solver.
    + by rewrite !bool_decide_eq_false_2 by set_solver.
Qed.

(** X14.  [encode_board] refuses a negative size.  Otherwise the board has
    [size] rows of [size] entries, and the entry of every cell of the board
    is 2 for the food cell, 1 for a snake cell that is not the food cell and
    0 for any other; snake and food cells off the board change nothing. *)
Theorem encode_board_spec size body food :
  (size < 0 →
   encode_board size body food
   = Fail (ValueError "negative dimensions are not allowed"))
  ∧ (0 ≤ size →
     ∃ board,
       encode_board size body food = Return board
       ∧ length board = Z.to_nat size
       ∧ Forall (λ row, length row = Z.to_nat size) board
       ∧ ∀ pos, in_bounds size pos = true →
                get_cell board pos
                = Some (if bool_decide (pos = food) then 2
                        else if bool_decide (pos ∈ body) then 1 else 0)).
Proof.
  unfold encode_board. split.
  - intros Hneg. by rewrite (proj2 (Z.ltb_lt _ _) Hneg).
  - intros Hsize. rewrite (proj2 (Z.ltb_ge _ _) Hsize).
    destruct (encode_fold size body []
                (replicate (Z.to_nat size) (replicate (Z.to_nat size) 0)))
      as (Hlen & Hrows & Hcells).
    { apply length_replicate. }
    { apply Forall_replicate, length_replicate. }
    { intros pos Hpos. destruct (in_bounds_index _ _ Hpos).
      unfold get_cell. rewrite lookup_replicate_2 by done. simpl.
      rewrite lookup_replicate_2 by done.
      done. }
    cbn [app] in Hcells.
    destruct (in_bounds size food) eqn:Hfood.
    + destruct (set_cell_dims _ food 2 _ Hlen Hrows) as [Hlen' Hrows'].
      eexists. split_and!; [done..|]. intros pos Hpos.
      case_bool_decide as Heq.
      * subst pos. destruct (in_bounds_index _ _ Hfood).
        by eapply get_cell_set_cell_eq.
      * rewrite get_cell_set_cell_ne
          by (apply (in_bounds_index_ne size); done).
        by apply Hcells.
    + eexists. split_and!; [done..|]. intros pos Hpos.
      rewrite bool_decide_eq_false_2 by congruence. by apply Hcells.
Qed.

Lemma encode_board_spec_witness :
  encode_board 3 [(1, 1); (1, 2); (5, 5)] (0, 0)
  = Return [[2; 0; 0]; [0; 1; 0]; [0; 1; 0]].
Proof.
  destruct (proj2 (encode_board_spec 3 [(1, 1); (1, 2); (5, 5)] (0, 0))
              ltac:(lia)) as (board & Hrun & _).
  rewrite Hrun. revert Hrun. vm_compute. intros [= <-]. reflexivity.
Defined.

(** * snake_env.py: the step function *)

Lemma removelast_cons {A} (a : A) (l : list A) :
  l ≠ [] → removelast (a :: l) = a :: removelast l.
Proof. by destruct l. Qed.

Lemma removelast_sub {A} (l : list A) x : x ∈ removelast l → x ∈ l.
Proof.
  intros (front & tail & -> & Hx)%elem_of_removelast. set_solver.
Qed.

Lemma NoDup_removelast {A} (l : list A) : NoDup l → NoDup (removelast l).
Proof.
  destruct l as [|t front _] using rev_ind; [done|].
  rewrite removelast_snoc. by intros [? _]%NoDup_app.
Qed.

Lemma Forall_removelast {A} (P : A → Prop) (l : list A) :
  Forall P l → Forall P (removelast l).
Proof.
  destruct l as [|t front _] using rev_ind; [done|].
  rewrite removelast_snoc. by intros [? _]%Forall_app.
Qed.

Lemma linked_app_l (l1 l2 : list cell) : linked (l1 ++ l2) → linked l1.
Proof.
  induction l1 as [|a l1 IH]; [done|].
  destruct l1 as [|b l1]; [done|].
  intros [Hadj Hrest]. split; [done|]. by apply IH.
Qed.

Lemma linked_removelast (l : list cell) : linked l → linked (removelast l).
Proof.
  destruct l as [|t front _] using rev_ind; [done|].
  rewrite removelast_snoc. apply linked_app_l.
Qed.

Lemma food_loop_spec snake draws food rest :
  food_loop snake draws = Return (food, rest) →
  (food ∉ snake)
  ∧ ∃ skipped, draws = skipped ++ food :: rest
               ∧ Forall (λ c, c ∈ snake) skipped.
Proof.
  induction draws as [|c draws IH]; [done|]. simpl.
  case_bool_decide as Hc.
  - intros [= -> ->]. split; [done|]. exists []. split; [done|constructor].
  - intros (Hfood & skipped & -> & Hskipped)%IH. split; [done|].
    exists (c :: skipped). split; [done|]. constructor; [|done].
    destruct (decide (c ∈ snake)); [done|]. first [by destruct Hc|done].
Qed.

Lemma food_loop_full snake draws :
  Forall (λ c, c ∈ snake) draws → food_loop snake draws = Pending.
Proof.
  induction 1 as [|c draws Hc _ IH]; [done|]. simpl.
  rewrite bool_decide_eq_false_2; [done|]. by intros ?.
Qed.

Lemma in_range_app size l1 l2 :
  in_range size (l1 ++ l2) → in_range size l2.
Proof. unfold in_range. by intros [_ ?]%Forall_app. Qed.

(** The paths through [step] for a running game with a non-empty snake. *)
Lemma step_env_cases env action draws head tail :
  env_done env = false →
  env_snake env = head :: tail →
  let new_head := move head action in
  (in_bounds (env_size env) new_head = false
   ∧ step_env env action draws
     = Return (set_done (turned env action), -10, true,
               Some "Wall collision"%string, draws))
  ∨ (in_bounds (env_size env) new_head = true
     ∧ new_head ∈ removelast (env_snake env)
     ∧ step_env env action draws
       = Return (set_done (turned env action), -10, true,
                 Some "Self collision"%string, draws))
  ∨ (in_bounds (env_size env) new_head = true
     ∧ (new_head ∉ removelast (env_snake env))
     ∧ new_head = env_food env
     ∧ step_env env action draws
       = match generate_food (env_size env) (new_head :: env_snake env)
                             draws with
         | Return (food, rest) =>
             finish (fed (turned env action) new_head food) 10 rest
         | Fail e => Fail e
         | Pending => Pending
         end)
  ∨ (in_bounds (env_size env) new_head = true
     ∧ (new_head ∉ removelast (env_snake env))
     ∧ new_head ≠ env_food env
     ∧ step_env env action draws
       = finish (crawled (turned env action) new_head) (-1) draws).
Proof.
  intros Hdone Hsnake new_head.
  unfold step_env, finish, fed, crawled, turned, set_done. rewrite Hdone.
  cbn [env_snake env_size env_direction env_food env_score env_done].
  rewrite Hsnake. fold new_head.
  destruct (in_bounds (env_size env) new_head) eqn:Hb; cbn [negb].
  2:{ left. split; reflexivity. }
  right.
  destruct (decide (new_head ∈ removelast (head :: tail))) as [Hself|Hself].
  { left. rewrite (bool_decide_eq_true_2 _ Hself).
    split; [reflexivity|]. split; [exact Hself|reflexivity]. }
  right. rewrite (bool_decide_eq_false_2 _ Hself).
  destruct (decide (new_head = env_food env)) as [Hfood|Hfood].
  - left. rewrite (bool_decide_eq_true_2 _ Hfood).
    split; [reflexivity|]. split; [exact Hself|]. split; [exact Hfood|].
    destruct (generate_food _ _ _) as [[food rest]| |]; reflexivity.
  - right. rewrite (bool_decide_eq_false_2 _ Hfood).
    split; [reflexivity|]. split; [exact Hself|]. split; [exact Hfood|].
    reflexivity.
Qed.

Lemma finish_flag env reward draws env' reward' flag info rest :
  finish env reward draws = Return (env', reward', flag, info, rest) →
  env_done env = false →
  rest = draws
  ∧ ((info = Some "Game completed successfully"%string
      ∧ Z.of_nat (length (env_snake env)) = env_size env * env_size env
      ∧ env' = set_done env ∧ reward' = 100 ∧ flag = true)
     ∨ (info = None
        ∧ Z.of_nat (length (env_snake env)) ≠ env_size env * env_size env
        ∧ env' = env ∧ reward' = reward ∧ flag = false)).
Proof.
  unfold finish. intros Hfinish Hdone. revert Hfinish.
  destruct (Z.eqb_spec (Z.of_nat (length (env_snake env)))
              (env_size env * env_size env)) as [Heq|Hne].
  - intros [= <- <- <- <- <-]. split; [done|]. by left.
  - intros [= <- <- <- <- <-]. split; [done|]. right. by rewrite Hdone.
Qed.

(** X15.  [step] refuses a finished game with [ValueError], and every step
    that reports [done] leaves the environment finished, so the next step
    is refused. *)
Theorem step_env_refuses_after_done env action draws :
  (env_done env = true →
   step_env env action draws
   = Fail (ValueError "Game is over, cannot take further steps."))
  ∧ (∀ env' reward info rest,
       step_env env action draws = Return (env', reward, true, info, rest) →
       ∀ action' draws',
         step_env env' action' draws'
         = Fail (ValueError "Game is over, cannot take further steps.")).
Proof.
  split.
  - intros Hdone. unfold step_env. by rewrite Hdone.
  - intros env' reward info rest Hstep action' draws'.
    assert (env_done env' = true) as Hdone';
      [|unfold step_env; by rewrite Hdone'].
    destruct (env_done env) eqn:Hdone.
    { unfold step_env in Hstep. by rewrite Hdone in Hstep. }
    destruct (env_snake env) as [|head tail] eqn:Hsnake.
    { unfold step_env in Hstep. rewrite Hdone in Hstep.
      cbn [env_snake] in Hstep. by rewrite Hsnake in Hstep. }
    destruct (step_env_cases env action draws head tail Hdone Hsnake)
      as [[_ Hs]|[(_ & _ & Hs)|[(_ & _ & _ & Hs)|(_ & _ & _ & Hs)]]];
      rewrite Hs in Hstep.
    + by injection Hstep as <-.
    + by injection Hstep as <-.
    + destruct (generate_food _ _ _) as [[food rest']| |]; [|done..].
      apply finish_flag in Hstep as [_ [(_ & _ & -> & _)|(_ & _ & _ & _ & ?)]];
        done.
    + apply finish_flag in Hstep as [_ [(_ & _ & -> & _)|(_ & _ & _ & _ & ?)]];
        done.
Qed.

Lemma step_env_refuses_after_done_witness :
  step_env {| env_size := 10; env_snake := [(0, 0); (0, 1)];
              env_direction := UP; env_food := (5, 5); env_score := 0;
              env_done := true |} LEFT []
  = Fail (ValueError "Game is over, cannot take further steps.").
Proof.
  apply (proj1 (step_env_refuses_after_done
           {| env_size := 10; env_snake := [(0, 0); (0, 1)];
              env_direction := UP; env_food := (5, 5); env_score := 0;
              env_done := true |} LEFT [])).
  reflexivity.
Defined.

(** X16.  The environment and the safety predicate agree: in a running game
    [step] ends with reward -10 (wall or self collision, snake unchanged)
    exactly when [is_collision] holds of the next head, that is exactly when
    the action is not one of [get_safe_actions]. *)
Theorem step_env_collision_iff env action draws head tail :
  env_done env = false →
  env_snake env = head :: tail →
  (is_collision (move head action) (env_size env) (env_snake env) = true
   ↔ ∃ env' info,
       step_env env action draws = Return (env', -10, true, Some info, draws)
       ∧ (info = "Wall collision"%string ∨ info = "Self collision"%string)
       ∧ env_snake env' = env_snake env)
  ∧ (action ∈ get_safe_actions (env_size env) head (env_snake env)
     ↔ ∀ env' reward flag info rest,
         step_env env action draws = Return (env', reward, flag, info, rest) →
         reward ≠ -10).
Proof.
  intros Hdone Hsnake.
  assert (action ∈ get_safe_actions (env_size env) head (env_snake env)
          ↔ is_collision (move head action) (env_size env) (env_snake env)
            = false) as ->.
  { rewrite get_safe_actions_filter, list_elem_of_filter.
    pose proof (all_directions_all action). tauto. }
  assert (∀ new_head,
            is_collision new_head (env_size env) (env_snake env) = true
            ↔ in_bounds (env_size env) new_head = false
              ∨ new_head ∈ removelast (env_snake env)) as Hcoll.
  { intros new_head. unfold is_collision.
    destruct (in_bounds (env_size env) new_head); simpl; [|by intuition].
    destruct (decide (new_head ∈ removelast (env_snake env))) as [Hin|Hout].
    - rewrite (bool_decide_eq_true_2 _ Hin). by intuition.
    - rewrite (bool_decide_eq_false_2 _ Hout). by intuition. }
  assert (is_collision (move head action) (env_size env) (env_snake env)
          = false
          ↔ in_bounds (env_size env) (move head action) = true
            ∧ move head action ∉ removelast (env_snake env)) as Hfree.
  { destruct (is_collision _ _ _) eqn:Hc.
    - apply Hcoll in Hc. split; [done|]. intros [Hb Hout].
      destruct Hc; [congruence|done].
    - split; [|done]. intros _.
      destruct (in_bounds (env_size env) (move head action)) eqn:Hb.
      + split; [done|]. intros Hin.
        assert (is_collision (move head action) (env_size env)
                             (env_snake env) = true) by (apply Hcoll; by right).
        congruence.
      + assert (is_collision (move head action) (env_size env)
                             (env_snake env) = true) by (apply Hcoll; by left).
        congruence. }
  rewrite Hcoll, Hfree.
  destruct (step_env_cases env action draws head tail Hdone Hsnake)
    as [[Hb Hs]|[(Hb & Hin & Hs)|[(Hb & Hout & Hfood & Hs)
                                 |(Hb & Hout & Hfood & Hs)]]];
    rewrite Hs.
  - split.
    + split; [|by left]. intros _. eexists _, _.
      split; [done|]. by split; [left|].
    + split; [intros [? _]; congruence|].
      intros Hall. by destruct (Hall _ _ _ _ _ eq_refl).
  - split.
    + split; [|by right]. intros _. eexists _, _.
      split; [done|]. by split; [right|].
    + split; [by intros [_ ?]|].
      intros Hall. by destruct (Hall _ _ _ _ _ eq_refl).
  - split.
    + split; [intros [?|?]; [congruence|done]|].
      intros (env' & info & Hret & _).
      destruct (generate_food _ _ _) as [[food rest']| |]; [|done..].
      apply finish_flag in Hret as [_ [(_ & _ & _ & ? & _)|(? & _)]]; done.
    + split; [|done]. intros _ env' reward flag info rest Hret.
      destruct (generate_food _ _ _) as [[food rest']| |]; [|done..].
      apply finish_flag in Hret
        as [_ [(_ & _ & _ & -> & _)|(_ & _ & _ & -> & _)]]; done.
  - split.
    + split; [intros [?|?]; [congruence|done]|].
      intros (env' & info & Hret & _).
      apply finish_flag in Hret as [_ [(_ & _ & _ & ? & _)|(? & _)]]; done.
    + split; [|done]. intros _ env' reward flag info rest Hret.
      apply finish_flag in Hret
        as [_ [(_ & _ & _ & -> & _)|(_ & _ & _ & -> & _)]]; done.
Qed.

Lemma step_env_collision_iff_witness :
  ∃ env' info,
    step_env {| env_size := 3; env_snake := [(0, 1); (1, 1)];
                env_direction := LEFT; env_food := (2, 2); env_score := 0;
                env_done := false |} LEFT []
    = Return (env', -10, true, Some info, []).
Proof.
  destruct (proj1 (proj1 (step_env_collision_iff
              {| env_size := 3; env_snake := [(0, 1); (1, 1)];
                 env_direction := LEFT; env_food := (2, 2); env_score := 0;
                 env_done := false |} LEFT [] (0, 1) [(1, 1)]
              eq_refl eq_refl)) eq_refl) as (env' & info & Hstep & _).
  exists env', info. exact Hstep.
Defined.

(** * snake_env.py: what a step preserves *)

Lemma env_ok_set_done env : env_ok env → env_ok (set_done env).
Proof. done. Qed.

Lemma generate_food_spec size snake draws food rest :
  generate_food size snake draws = Return (food, rest) →
  0 < size
  ∧ (food ∉ snake)
  ∧ ∃ skipped, draws = skipped ++ food :: rest
               ∧ Forall (λ c, c ∈ snake) skipped.
Proof.
  unfold generate_food. destruct (Z.leb_spec size 0); [done|].
  intros Hloop%food_loop_spec. split; [lia|done].
Qed.

Lemma in_range_generate_food size snake draws food rest :
  generate_food size snake draws = Return (food, rest) →
  in_range size draws →
  in_bounds size food = true ∧ in_range size rest.
Proof.
  intros (_ & _ & skipped & -> & _)%generate_food_spec Hrange.
  apply in_range_app in Hrange. unfold in_range in *.
  by apply Forall_cons in Hrange.
Qed.

Lemma env_ok_fed env action head tail food :
  env_ok env → env_snake env = head :: tail →
  in_bounds (env_size env) (move head action) = true →
  move head action = env_food env →
  in_bounds (env_size env) food = true →
  food ∉ move head action :: env_snake env →
  env_ok (fed (turned env action) (move head action) food).
Proof.
  intros (Hne & Hnd & Hin & Hlinked & Hfb & Hfood) Hsnake Hb Heq Hb' Hfood'.
  unfold env_ok, fed, turned.
  cbn [env_snake env_size env_food].
  split_and!; [done| | | |done|done].
  - apply NoDup_cons. split; [by rewrite Heq|done].
  - by constructor.
  - rewrite Hsnake in *. split; [by exists action|done].
Qed.

Lemma env_ok_crawled env action head tail :
  env_ok env → env_snake env = head :: tail →
  in_bounds (env_size env) (move head action) = true →
  move head action ∉ removelast (env_snake env) →
  move head action ≠ env_food env →
  env_ok (crawled (turned env action) (move head action)).
Proof.
  intros (Hne & Hnd & Hin & Hlinked & Hfb & Hfood) Hsnake Hb Hout Hneq.
  unfold env_ok, crawled, turned.
  cbn [env_snake env_size env_food].
  rewrite removelast_cons by done.
  split_and!; [done| | | |done|].
  - apply NoDup_cons. split; [done|]. by apply NoDup_removelast.
  - constructor; [done|]. by apply Forall_removelast.
  - rewrite Hsnake in *. destruct tail as [|b tail]; [done|].
    rewrite removelast_cons by done.
    split; [by exists action|].
    apply (linked_removelast (head :: b :: tail)) in Hlinked.
    by rewrite removelast_cons in Hlinked.
  - intros [?|Hin']%elem_of_cons; [done|].
    by apply removelast_sub in Hin'.
Qed.

(** X17.  [step] keeps the game state well formed: if the snake lies on the
    board, is connected and does not touch itself, and the food is on a free
    cell of the board, the same holds after any step that returns, the board
    size is unchanged, and the snake has either moved or grown by the food
    cell. *)
Theorem step_env_keeps_ok env action draws env' reward flag info rest :
  env_ok env →
  in_range (env_size env) draws →
  step_env env action draws = Return (env', reward, flag, info, rest) →
  env_ok env'
  ∧ env_size env' = env_size env
  ∧ in_range (env_size env') rest.
Proof.
  intros Hok Hrange Hstep.
  destruct (env_done env) eqn:Hdone.
  { unfold step_env in Hstep. by rewrite Hdone in Hstep. }
  destruct (env_snake env) as [|head tail] eqn:Hsnake.
  { by destruct Hok as [? _]. }
  destruct (step_env_cases env action draws head tail Hdone Hsnake)
    as [[Hb Hs]|[(Hb & Hin & Hs)|[(Hb & Hout & Hfood & Hs)
                                 |(Hb & Hout & Hfood & Hs)]]];
    rewrite Hs in Hstep.
  - injection Hstep as <- _ _ _ <-. done.
  - injection Hstep as <- _ _ _ <-. done.
  - destruct (generate_food _ _ _) as [[food rest']| |] eqn:Hgen; [|done..].
    destruct (in_range_generate_food _ _ _ _ _ Hgen Hrange) as [Hfb Hrest].
    apply generate_food_spec in Hgen as (_ & Hfresh & _).
    assert (env_ok (fed (turned env action) (move head action) food)) as Hok'.
    { by apply (env_ok_fed env action head tail). }
    apply finish_flag in Hstep as [-> [(_ & _ & -> & _)|(_ & _ & -> & _)]];
      done.
  - assert (env_ok (crawled (turned env action) (move head action))) as Hok'.
    { by apply (env_ok_crawled env action head tail). }
    apply finish_flag in Hstep as [-> [(_ & _ & -> & _)|(_ & _ & -> & _)]];
      done.
Qed.

Lemma step_env_keeps_ok_witness :
  env_ok {| env_size := 10; env_snake := [(4, 5); (5, 5)];
            env_direction := LEFT; env_food := (0, 0); env_score := 0;
            env_done := false |}.
Proof.
  apply (step_env_keeps_ok
           {| env_size := 10; env_snake := [(5, 5); (5, 6)];
              env_direction := UP; env_food := (0, 0); env_score := 0;
              env_done := false |} LEFT []
           {| env_size := 10; env_snake := [(4, 5); (5, 5)];
              env_direction := LEFT; env_food := (0, 0); env_score := 0;
              env_done := false |} (-1) false None []).
  - unfold env_ok. cbn [env_snake env_size env_food]. split_and!.
    + done.
    + apply NoDup_cons. split; [set_solver|]. apply NoDup_singleton.
    + repeat constructor.
    + split; [by exists UP|done].
    + reflexivity.
    + set_solver.
  - constructor.
  - reflexivity.
Defined.

Lemma length_removelast_cons {A} (a : A) (l : list A) :
  length (removelast (a :: l)) = length l.
Proof.
  revert a. induction l as [|b l IH]; intros a; [done|].
  rewrite removelast_cons by done. cbn [length]. by rewrite IH.
Qed.

(** What a returning step does to the length, the score and the food. *)
Lemma step_env_growth env action draws env' reward flag info rest :
  step_env env action draws = Return (env', reward, flag, info, rest) →
  (length (env_snake env') = length (env_snake env)
   ∧ env_score env' = env_score env ∧ env_food env' = env_food env)
  ∨ (length (env_snake env') = S (length (env_snake env))
     ∧ env_score env' = env_score env + 1
     ∧ head (env_snake env') = Some (env_food env)).
Proof.
  intros Hstep.
  destruct (env_done env) eqn:Hdone.
  { unfold step_env in Hstep. by rewrite Hdone in Hstep. }
  destruct (env_snake env) as [|front tail] eqn:Hsnake.
  { unfold step_env in Hstep. rewrite Hdone in Hstep.
    cbn [env_snake] in Hstep. by rewrite Hsnake in Hstep. }
  assert (∀ e, ((length (env_snake e) = length (front :: tail)
                 ∧ env_score e = env_score env
                 ∧ env_food e = env_food env)
                ∨ (length (env_snake e) = S (length (front :: tail))
                   ∧ env_score e = env_score env + 1
                   ∧ head (env_snake e) = Some (env_food env))) →
               (e = env' ∨ set_done e = env') →
               (length (env_snake env') = length (front :: tail)
                ∧ env_score env' = env_score env
                ∧ env_food env' = env_food env)
               ∨ (length (env_snake env') = S (length (front :: tail))
                  ∧ env_score env' = env_score env + 1
                  ∧ head (env_snake env') = Some (env_food env)))
    as Hclose.
  { intros e He [<-|<-]; done. }
  destruct (step_env_cases env action draws front tail Hdone Hsnake)
    as [[Hb Hs]|[(Hb & Hin & Hs)|[(Hb & Hout & Hfood & Hs)
                                 |(Hb & Hout & Hfood & Hs)]]];
    rewrite Hs in Hstep.
  - injection Hstep as <- _ _ _ _.
    apply (Hclose (turned env action)); [|by right].
    unfold turned. cbn [env_snake env_score env_food]. rewrite Hsnake.
    by left.
  - injection Hstep as <- _ _ _ _.
    apply (Hclose (turned env action)); [|by right].
    unfold turned. cbn [env_snake env_score env_food]. rewrite Hsnake.
    by left.
  - destruct (generate_food _ _ _) as [[food rest']| |]; [|done..].
    apply (Hclose (fed (turned env action) (move front action) food)).
    + unfold fed, turned. cbn [env_snake env_score env_food]. rewrite Hsnake.
      right. split_and!; [done..|].
      simpl. by rewrite Hfood.
    + apply finish_flag in Hstep as [_ [(_ & _ & -> & _)|(_ & _ & -> & _)]];
        [by right|by left|done].
  - apply (Hclose (crawled (turned env action) (move front action))).
    + unfold crawled, turned. cbn [env_snake env_score env_food].
      rewrite Hsnake, length_removelast_cons.
      by left.
    + apply finish_flag in Hstep as [_ [(_ & _ & -> & _)|(_ & _ & -> & _)]];
        [by right|by left|done].
Qed.

(** X18.  Score and length move together.  A step that returns either keeps
    both, or (when the new head is the food cell) adds one to each and puts
    the old food cell at the head; so score minus length never changes. *)
Theorem step_env_score_length env action draws env' reward flag info rest :
  step_env env action draws = Return (env', reward, flag, info, rest) →
  env_score env' - Z.of_nat (length (env_snake env'))
  = env_score env - Z.of_nat (length (env_snake env))
  ∧ ((length (env_snake env') = length (env_snake env)
      ∧ env_score env' = env_score env ∧ env_food env' = env_food env)
     ∨ (length (env_snake env') = S (length (env_snake env))
        ∧ env_score env' = env_score env + 1
        ∧ head (env_snake env') = Some (env_food env))).
Proof.
  intros Hstep. pose proof (step_env_growth _ _ _ _ _ _ _ _ Hstep) as Hgrow.
  split; [|done].
  destruct Hgrow as [(-> & -> & _)|(-> & -> & _)]; lia.
Qed.

Lemma step_env_score_length_witness :
  env_score {| env_size := 10; env_snake := [(4, 5); (5, 5)];
               env_direction := LEFT; env_food := (0, 0); env_score := 0;
               env_done := false |}
  - Z.of_nat (length [(4, 5); (5, 5)])
  = 0 - Z.of_nat (length [(5, 5); (5, 6)]).
Proof.
  apply (step_env_score_length
           {| env_size := 10; env_snake := [(5, 5); (5, 6)];
              env_direction := UP; env_food := (0, 0); env_score := 0;
              env_done := false |} LEFT []
           {| env_size := 10; env_snake := [(4, 5); (5, 5)];
              env_direction := LEFT; env_food := (0, 0); env_score := 0;
              env_done := false |} (-1) false None []).
  reflexivity.
Defined.

(** * snake_env.py: the board-full branch *)

Lemma board_room size (l : list cell) :
  NoDup l → Forall (λ c, in_bounds size c = true) l →
  (length l ≤ Z.to_nat (size * size))%nat.
Proof.
  intros Hnd Hin.
  assert (l ⊆+ board_cells size) as Hsub.
  { apply NoDup_submseteq; [done|]. intros c Hc.
    apply elem_of_board_cells. by apply (proj1 (Forall_forall _ _) Hin). }
  apply submseteq_length in Hsub.
  pose proof (length_board_cells size). lia.
Qed.

Lemma board_full size (l : list cell) (c : cell) :
  NoDup l → Forall (λ c, in_bounds size c = true) l →
  (Z.to_nat (size * size) ≤ length l)%nat →
  in_bounds size c = true → c ∈ l.
Proof.
  intros Hnd Hin Hlen Hc.
  assert (l ⊆+ board_cells size) as Hsub.
  { apply NoDup_submseteq; [done|]. intros c' Hc'.
    apply elem_of_board_cells. by apply (proj1 (Forall_forall _ _) Hin). }
  apply submseteq_length_Permutation in Hsub.
  - rewrite Hsub. by apply elem_of_board_cells.
  - pose proof (length_board_cells size). lia.
Qed.

(** X19.  From a well-formed state, with draws on the board, [step] never
    takes its "Game completed successfully" branch: the reward is -10, -1 or
    10, never 100, and the done flag is set exactly on a collision.  When the
    snake eats the food on the last free cell, [_generate_food] is called
    before the board-full test and no draw can be accepted, so the step does
    not return. *)
Theorem step_env_never_completes env action draws :
  env_ok env →
  in_range (env_size env) draws →
  (∀ env' reward flag info rest,
     step_env env action draws = Return (env', reward, flag, info, rest) →
     info ≠ Some "Game completed successfully"%string
     ∧ (reward = -10 ∨ reward = -1 ∨ reward = 10)
     ∧ (flag = true ↔ reward = -10)
     ∧ env_done env' = flag)
  ∧ (∀ front tail,
       env_done env = false →
       env_snake env = front :: tail →
       move front action = env_food env →
       Z.of_nat (length (env_snake env)) + 1 = env_size env * env_size env →
       step_env env action draws = Pending).
Proof.
  intros Hok Hrange.
  pose proof Hok as (Hne & Hnd & Hin & Hlinked & Hfb & Hfood).
  assert (NoDup (env_food env :: env_snake env)) as Hnd'.
  { by apply NoDup_cons. }
  assert (Forall (λ c, in_bounds (env_size env) c = true)
                 (env_food env :: env_snake env)) as Hin'.
  { by constructor. }
  pose proof (board_room _ _ Hnd' Hin') as Hroom. cbn [length] in Hroom.
  split.
  - intros env' reward flag info rest Hstep.
    destruct (env_done env) eqn:Hdone.
    { unfold step_env in Hstep. by rewrite Hdone in Hstep. }
    destruct (env_snake env) as [|front tail] eqn:Hsnake; [done|].
    destruct (step_env_cases env action draws front tail Hdone Hsnake)
      as [[Hb Hs]|[(Hb & Hself & Hs)|[(Hb & Hout & Heat & Hs)
                                     |(Hb & Hout & Heat & Hs)]]];
      rewrite Hs in Hstep; rewrite ?Hsnake in *.
    + injection Hstep as <- <- <- <- _. split_and!; [done|by left|done|done].
    + injection Hstep as <- <- <- <- _. split_and!; [done|by left|done|done].
    + destruct (generate_food _ _ _) as [[food rest']| |] eqn:Hgen; [|done..].
      destruct (in_range_generate_food _ _ _ _ _ Hgen Hrange) as [Hfb' _].
      apply generate_food_spec in Hgen as (_ & Hfresh & _).
      apply finish_flag in Hstep
          as [_ [(_ & Hlen & _)|(-> & _ & -> & -> & ->)]]; [| |done].
      * exfalso. apply Hfresh. rewrite Heat.
        apply (board_full (env_size env)); [done|done| |done].
        revert Hlen. unfold fed, turned. cbn [env_snake env_size length].
        rewrite ?Hsnake. cbn [length]. lia.
      * split_and!; [done|by right; right|done|done].
    + apply finish_flag in Hstep
          as [_ [(_ & Hlen & _)|(-> & _ & -> & -> & ->)]]; [| |done].
      * exfalso. revert Hlen. unfold crawled, turned.
        cbn [env_snake env_size]. rewrite length_removelast_cons, ?Hsnake.
        cbn [length] in Hroom |- *. lia.
      * split_and!; [done|by right; left|done|done].
  - intros front tail Hdone Hsnake Heat Hlen.
    assert (in_bounds (env_size env) (move front action) = true) as Hb.
    { by rewrite Heat. }
    destruct (step_env_cases env action draws front tail Hdone Hsnake)
      as [[Hb' Hs]|[(_ & Hself & Hs)|[(_ & Hout & _ & Hs)
                                     |(_ & _ & Hne' & Hs)]]].
    + congruence.
    + exfalso. apply Hfood. rewrite <- Heat.
      by apply removelast_sub in Hself.
    + rewrite Hs. unfold generate_food.
      destruct (Z.leb_spec (env_size env) 0) as [Hsize|_].
      { apply in_bounds_spec in Hfb. lia. }
      rewrite food_loop_full; [done|].
      unfold in_range in Hrange.
      eapply Forall_impl; [exact Hrange|].
      intros c Hc. cbn beta in Hc |- *. rewrite Heat.
      apply (board_full (env_size env)); [done|done| |done].
      cbn [length]. lia.
    + done.
Qed.

Lemma step_env_never_completes_witness :
  step_env {| env_size := 2; env_snake := [(0, 0); (0, 1); (1, 1)];
              env_direction := UP; env_food := (1, 0); env_score := 1;
              env_done := false |} RIGHT [(0, 0); (1, 1); (1, 0)]
  = Pending.
Proof.
  assert (env_ok {| env_size := 2; env_snake := [(0, 0); (0, 1); (1, 1)];
                    env_direction := UP; env_food := (1, 0); env_score := 1;
                    env_done := false |}) as Hok.
  { unfold env_ok. cbn [env_snake env_size env_food]. split_and!.
    - discriminate.
    - repeat (apply NoDup_cons; split; [set_solver|]). apply NoDup_nil_2.
    - repeat constructor.
    - split; [by exists UP|]. split; [by exists LEFT|exact I].
    - reflexivity.
    - set_solver. }
  assert (in_range 2 [(0, 0); (1, 1); (1, 0)]) as Hrange.
  { repeat constructor. }
  apply (proj2 (step_env_never_completes _ RIGHT _ Hok Hrange)
           (0, 0) [(0, 1); (1, 1)]); reflexivity.
Defined.

(** * snake_env.py: the initial state *)

(** X20.  [SnakeEnv(size)] puts the snake on (5,5),(5,6) whatever the size.
    With no cell to draw from (size below 1) construction fails with a
    ValueError.  On a board of side 7 or more the state built is well formed
    and running.  On a board of side 1 to 5 the snake starts off the board
    and every first step is a wall collision. *)
Theorem new_env_spec size draws :
  (size ≤ 0 → ∃ msg, new_env size draws = Fail (ValueError msg))
  ∧ (∀ env rest,
       new_env size draws = Return (env, rest) →
       env_size env = size ∧ env_snake env = [(5, 5); (5, 6)]
       ∧ env_direction env = UP ∧ env_score env = 0
       ∧ env_done env = false
       ∧ (env_food env ∉ env_snake env)
       ∧ (7 ≤ size → in_range size draws →
          env_ok env ∧ in_range size rest)
       ∧ (size ≤ 5 → ∀ action draws',
            step_env env action draws'
            = Return (set_done (turned env action), -10, true,
                      Some "Wall collision"%string, draws'))).
Proof.
  split.
  - intros Hsize. unfold new_env, generate_food.
    destruct (Z.leb_spec size 0); [|lia]. by eexists.
  - intros env rest. unfold new_env.
    destruct (generate_food size [(5, 5); (5, 6)] draws)
      as [[food rest']| |] eqn:Hgen; [|done..].
    intros [= <- <-].
    cbn [env_size env_snake env_direction env_score env_done env_food].
    pose proof (generate_food_spec _ _ _ _ _ Hgen) as (Hpos & Hfresh & _).
    split_and!; [done..| |].
    + intros Hsize Hrange.
      destruct (in_range_generate_food _ _ _ _ _ Hgen Hrange) as [Hfb Hrest].
      split; [|done].
      unfold env_ok. cbn [env_snake env_size env_food]. split_and!.
      * done.
      * apply NoDup_cons. split; [set_solver|]. apply NoDup_singleton.
      * repeat constructor; apply in_bounds_spec; simpl; lia.
      * split; [by exists UP|done].
      * done.
      * done.
    + intros Hsize action draws'.
      set (env := {| env_size := size; env_snake := [(5, 5); (5, 6)];
                     env_direction := UP; env_food := food; env_score := 0;
                     env_done := false |}).
      destruct (step_env_cases env action draws' (5, 5) [(5, 6)])
        as [[_ Hs]|[(Hb & _)|[(Hb & _)|(Hb & _)]]]; [done|done|done|..];
        apply in_bounds_spec in Hb; destruct action; simpl in Hb; lia.
Qed.

Lemma new_env_spec_witness :
  ∃ msg, new_env 0 [(0, 0)] = Fail (ValueError msg).
Proof. apply (proj1 (new_env_spec 0 [(0, 0)])). lia. Defined.

(** * safety_logic.py: simulate_n_steps *)

Lemma simulate_loop_spec (steps : nat) :
  ∀ (i : nat) (acts : list Direction) (size : Z) (body : list cell)
    (dir : Direction) (food : option cell) (reward : Z),
    body ≠ [] →
    ∃ body' dir' food' reward' flag bonus,
      simulate_loop steps i acts size body dir food reward
      = Ok (body', dir', food', reward', flag)
      ∧ body' ≠ []
      ∧ ((bonus = 0 ∧ food' = food ∧ length body' = length body)
         ∨ (bonus = 10 ∧ is_Some food ∧ food' = None
            ∧ length body' = S (length body)))
      ∧ (flag = false → reward' = reward - Z.of_nat steps + bonus)
      ∧ (flag = true →
         reward - Z.of_nat steps + bonus - 100 < reward'
         ∧ reward' ≤ reward + bonus - 100).
Proof.
  induction steps as [|steps IH]; intros i acts size body dir food reward Hne.
  { exists body, dir, food, reward, false, 0. cbn [simulate_loop].
    split_and!; [done|done|by left|intros _; simpl; lia|done]. }
  destruct body as [|front tail]; [done|].
  cbn [simulate_loop].
  set (action := default dir (acts !! i)).
  set (new_head := move front action).
  destruct (is_collision new_head size (front :: tail)).
  { exists (front :: tail), dir, food, (reward - 100), true, 0.
    split_and!; [done|done|by left|done|intros _; lia]. }
  case_bool_decide as Hfood.
  - rewrite removelast_cons by done.
    destruct (IH (S i) acts size (new_head :: removelast (front :: tail))
                 action food (reward + -1))
      as (body' & dir' & food' & reward' & flag & bonus
          & -> & Hne' & Hshape & Hrun & Hend); [done|].
    exists body', dir', food', reward', flag, bonus.
    split_and!; [done|done| |intros Hf; rewrite (Hrun Hf); lia
                |intros Hf; specialize (Hend Hf); lia].
    destruct Hshape as [(-> & -> & ->)|(-> & ? & -> & ->)]; [left|right];
      cbn [length]; rewrite length_removelast_cons; done.
  - assert (food = Some new_head) as ->.
    { destruct (decide (Some new_head = food)); [done|]. by destruct Hfood. }
    destruct (IH (S i) acts size (new_head :: front :: tail) action None
                 (reward + 10 + -1))
      as (body' & dir' & food' & reward' & flag & bonus
          & -> & Hne' & Hshape & Hrun & Hend); [done|].
    destruct Hshape as [(-> & -> & Hlen)|(_ & [? [=]] & _)].
    exists body', dir', None, reward', flag, 10.
    split_and!; [done|done| |intros Hf; rewrite (Hrun Hf); lia
                |intros Hf; specialize (Hend Hf); lia].
    right. by split_and!.
Qed.

(** X21.  [simulate_n_steps] fails with IndexError exactly when it is asked
    for at least one step on an empty body.  Otherwise it returns a non-empty
    body that kept its length, or grew by one cell with the food gone and a
    bonus of 10; when no collision was met the reward is the bonus minus the
    number of steps, and when one was met the reward lies in the 100-penalty
    band below that. *)
Theorem simulate_n_steps_spec (body : list cell) (dir : Direction)
    (food : option cell) (size : Z) (acts : list Direction) (n : Z) :
  (body = [] → 0 < n →
   simulate_n_steps body dir food size acts n = Raise IndexError)
  ∧ (body = [] → n ≤ 0 →
     simulate_n_steps body dir food size acts n
     = Ok ([], dir, food, 0, false))
  ∧ (body ≠ [] →
     ∃ body' dir' food' reward flag bonus,
       simulate_n_steps body dir food size acts n
       = Ok (body', dir', food', reward, flag)
       ∧ body' ≠ []
       ∧ ((bonus = 0 ∧ food' = food ∧ length body' = length body)
          ∨ (bonus = 10 ∧ is_Some food ∧ food' = None
             ∧ length body' = S (length body)))
       ∧ (flag = false → reward = bonus - Z.max 0 n)
       ∧ (flag = true →
          bonus - Z.max 0 n - 100 < reward ∧ reward ≤ bonus - 100)).
Proof.
  unfold simulate_n_steps. split_and!.
  - intros -> Hn. destruct (Z.to_nat n) as [|steps] eqn:Hsteps; [lia|done].
  - intros -> Hn. by replace (Z.to_nat n) with 0%nat by lia.
  - intros Hne.
    destruct (simulate_loop_spec (Z.to_nat n) 0 acts size body dir food 0 Hne)
      as (body' & dir' & food' & reward & flag & bonus
          & Hrun & Hne' & Hshape & Hfalse & Htrue).
    exists body', dir', food', reward, flag, bonus.
    split_and!; [done|done|done| |].
    + intros Hf. rewrite (Hfalse Hf). lia.
    + intros Hf. specialize (Htrue Hf). lia.
Qed.

Lemma simulate_n_steps_spec_witness :
  simulate_n_steps [] UP None 10 [] 3 = Raise IndexError.
Proof.
  apply (proj1 (simulate_n_steps_spec [] UP None 10 [] 3)); [reflexivity|lia].
Defined.

(** X22.  One simulated step agrees with one step of the environment on the
    snake and on whether the move collides.  The rewards differ: a collision
    costs 10 in the environment and 100 in the simulation, and eating pays 10
    in the environment and 9 in the simulation, which takes the time penalty
    off as well. *)
Theorem simulate_one_step_matches_env env action draws env' reward flag info
    rest :
  step_env env action draws = Return (env', reward, flag, info, rest) →
  ∃ dir' food' reward' flag',
    simulate_n_steps (env_snake env) (env_direction env)
                     (Some (env_food env)) (env_size env) [action] 1
    = Ok (env_snake env', dir', food', reward', flag')
    ∧ (flag' = true ↔ reward = -10)
    ∧ (flag' = true → reward' = -100 ∧ dir' = env_direction env)
    ∧ (flag' = false → dir' = action)
    ∧ (reward = -1 → reward' = -1 ∧ food' = Some (env_food env))
    ∧ (reward = 10 → reward' = 9 ∧ food' = None).
Proof.
  intros Hstep.
  destruct (env_done env) eqn:Hdone.
  { unfold step_env in Hstep. by rewrite Hdone in Hstep. }
  destruct (env_snake env) as [|front tail] eqn:Hsnake.
  { unfold step_env in Hstep. rewrite Hdone in Hstep.
    cbn [env_snake] in Hstep. by rewrite Hsnake in Hstep. }
  unfold simulate_n_steps.
  change (Z.to_nat 1) with 1%nat.
  cbn [simulate_loop lookup list_lookup default].
  unfold is_collision, id.
  destruct (step_env_cases env action draws front tail Hdone Hsnake)
    as [[Hb Hs]|[(Hb & Hself & Hs)|[(Hb & Hout & Heat & Hs)
                                   |(Hb & Hout & Heat & Hs)]]];
    rewrite Hs in Hstep; rewrite ?Hsnake in *; rewrite Hb; cbn [negb].
  - injection Hstep as <- <- _ _ _.
    exists (env_direction env), (Some (env_food env)), (0 - 100), true.
    unfold turned. cbn [set_done env_snake]. rewrite Hsnake.
    split_and!; done.
  - injection Hstep as <- <- _ _ _.
    rewrite (bool_decide_eq_true_2 _ Hself).
    exists (env_direction env), (Some (env_food env)), (0 - 100), true.
    unfold turned. cbn [set_done env_snake]. rewrite Hsnake.
    split_and!; done.
  - rewrite (bool_decide_eq_false_2 _ Hout).
    rewrite bool_decide_eq_false_2 by (rewrite Heat; by intros []).
    destruct (generate_food _ _ _) as [[food rest']| |]; [|done..].
    exists action, None, (0 + 10 + -1), false.
    apply finish_flag in Hstep
        as [_ [(_ & _ & -> & -> & _)|(_ & _ & -> & -> & _)]]; [| |done];
      unfold fed, crawled, turned, set_done; cbn [env_snake];
      rewrite ?Hsnake; split_and!; done.
  - rewrite (bool_decide_eq_false_2 _ Hout).
    rewrite bool_decide_eq_true_2 by congruence.
    exists action, (Some (env_food env)), (0 + -1), false.
    apply finish_flag in Hstep
        as [_ [(_ & _ & -> & -> & _)|(_ & _ & -> & -> & _)]]; [| |done];
      unfold fed, crawled, turned, set_done; cbn [env_snake];
      rewrite ?Hsnake; split_and!; done.
Qed.

Lemma simulate_one_step_matches_env_witness :
  ∃ dir' food' reward' flag',
    simulate_n_steps [(5, 5); (5, 6)] UP (Some (0, 0)) 10 [LEFT] 1
    = Ok ([(4, 5); (5, 5)], dir', food', reward', flag')
    ∧ (flag' = true ↔ -1 = -10)
    ∧ (flag' = true → reward' = -100 ∧ dir' = UP)
    ∧ (flag' = false → dir' = LEFT)
    ∧ (-1 = -1 → reward' = -1 ∧ food' = Some (0, 0))
    ∧ (-1 = 10 → reward' = 9 ∧ food' = None).
Proof.
  apply (simulate_one_step_matches_env
           {| env_size := 10; env_snake := [(5, 5); (5, 6)];
              env_direction := UP; env_food := (0, 0); env_score := 0;
              env_done := false |} LEFT []
           {| env_size := 10; env_snake := [(4, 5); (5, 5)];
              env_direction := LEFT; env_food := (0, 0); env_score := 0;
              env_done := false |} (-1) false None []).
  reflexivity.
Defined.

(** * game_rules.py *)

Lemma direction_map_lookup (current : string) :
  (current ∈ get_all_actions ∧ is_Some (direction_map !! current))
  ∨ ((current ∉ get_all_actions) ∧ direction_map !! current = None).
Proof.
  unfold direction_map, get_all_actions.
  destruct (decide (current = "UP")) as [->|Hup].
  { left. split; [set_solver|]. by rewrite lookup_insert_eq. }
  destruct (decide (current = "DOWN")) as [->|Hdown].
  { left. split; [set_solver|].
    rewrite lookup_insert_ne by done. by rewrite lookup_insert_eq. }
  destruct (decide (current = "LEFT")) as [->|Hleft].
  { left. split; [set_solver|].
    rewrite !lookup_insert_ne by done. by rewrite lookup_insert_eq. }
  destruct (decide (current = "RIGHT")) as [->|Hright].
  { left. split; [set_solver|].
    rewrite !lookup_insert_ne by done. by rewrite lookup_singleton_eq. }
  right. split; [set_solver|].
  rewrite !lookup_insert_ne by done. by rewrite lookup_singleton_ne.
Qed.

Lemma turns_lookup (straight left right : string) (relative : string) :
  let turns : gmap string string :=
    {[ "STRAIGHT" := straight; "LEFT_TURN" := left; "RIGHT_TURN" := right ]} in
  (relative = "STRAIGHT" ∧ turns !! relative = Some straight)
  ∨ (relative = "LEFT_TURN" ∧ turns !! relative = Some left)
  ∨ (relative = "RIGHT_TURN" ∧ turns !! relative = Some right)
  ∨ ((relative ∉ get_relative_actions) ∧ turns !! relative = None).
Proof.
  intros turns. unfold turns, get_relative_actions.
  destruct (decide (relative = "STRAIGHT")) as [->|Hs].
  { left. split; [done|]. by rewrite lookup_insert_eq. }
  destruct (decide (relative = "LEFT_TURN")) as [->|Hl].
  { right. left. split; [done|].
    rewrite lookup_insert_ne by done. by rewrite lookup_insert_eq. }
  destruct (decide (relative = "RIGHT_TURN")) as [->|Hr].
  { right. right. left. split; [done|].
    rewrite !lookup_insert_ne by done. by rewrite lookup_singleton_eq. }
  right. right. right. split; [set_solver|].
  rewrite !lookup_insert_ne by done. by rewrite lookup_singleton_ne.
Qed.

(** The rows of the table of [get_absolute_direction]. *)
Lemma get_absolute_direction_cases (current relative : string) :
  ((current ∉ get_all_actions)
   ∧ get_absolute_direction current relative
     = Fail (ValueError ("Invalid current_direction: " +:+ current)))
  ∨ (current ∈ get_all_actions ∧ (relative ∉ get_relative_actions)
     ∧ get_absolute_direction current relative
       = Fail (ValueError ("Invalid relative_action: " +:+ relative)))
  ∨ (∃ absolute,
       (current, relative, absolute)
       ∈ [("UP", "STRAIGHT", "UP"); ("UP", "LEFT_TURN", "LEFT");
          ("UP", "RIGHT_TURN", "RIGHT"); ("DOWN", "STRAIGHT", "DOWN");
          ("DOWN", "LEFT_TURN", "RIGHT"); ("DOWN", "RIGHT_TURN", "LEFT");
          ("LEFT", "STRAIGHT", "LEFT"); ("LEFT", "LEFT_TURN", "DOWN");
          ("LEFT", "RIGHT_TURN", "UP"); ("RIGHT", "STRAIGHT", "RIGHT");
          ("RIGHT", "LEFT_TURN", "UP"); ("RIGHT", "RIGHT_TURN", "DOWN")]
       ∧ get_absolute_direction current relative = Return absolute).
Proof.
  unfold get_absolute_direction.
  destruct (direction_map_lookup current) as [[Hin _] | [Hout Hnone]];
    [|left; by rewrite Hnone].
  right. unfold get_all_actions in Hin.
  assert (current = "UP" ∨ current = "DOWN" ∨ current = "LEFT"
          ∨ current = "RIGHT") as [-> | [-> | [-> | ->]]] by set_solver.
  - unfold direction_map. rewrite lookup_insert_eq.
    destruct (turns_lookup "UP" "LEFT" "RIGHT" relative)
      as [[-> ->] | [[-> ->] | [[-> ->] | [Hrel ->]]]];
      [right; eexists; split; [|done]; set_solver..|left; split; [set_solver|done]].
  - unfold direction_map. rewrite lookup_insert_ne by done.
    rewrite lookup_insert_eq.
    destruct (turns_lookup "DOWN" "RIGHT" "LEFT" relative)
      as [[-> ->] | [[-> ->] | [[-> ->] | [Hrel ->]]]];
      [right; eexists; split; [|done]; set_solver..|left; split; [set_solver|done]].
  - unfold direction_map. rewrite !lookup_insert_ne by done.
    rewrite lookup_insert_eq.
    destruct (turns_lookup "LEFT" "DOWN" "UP" relative)
      as [[-> ->] | [[-> ->] | [[-> ->] | [Hrel ->]]]];
      [right; eexists; split; [|done]; set_solver..|left; split; [set_solver|done]].
  - unfold direction_map. rewrite !lookup_insert_ne by done.
    rewrite lookup_singleton_eq.
    destruct (turns_lookup "RIGHT" "UP" "DOWN" relative)
      as [[-> ->] | [[-> ->] | [[-> ->] | [Hrel ->]]]];
      [right; eexists; split; [|done]; set_solver..|left; split; [set_solver|done]].
Qed.

(** X23.  [get_absolute_direction] returns exactly when the current direction
    is one of [get_all_actions] and the relative action one of
    [get_relative_actions]; otherwise it raises a ValueError that names the
    first bad argument.  The direction returned is the current one turned the
    way the relative action says, in the vectors of [get_movement_rules]: it
    is never the reverse of the current direction. *)
Theorem get_absolute_direction_spec (current relative : string) :
  (current ∈ get_all_actions ∧ relative ∈ get_relative_actions
   ↔ ∃ absolute, get_absolute_direction current relative = Return absolute)
  ∧ (∀ absolute,
       get_absolute_direction current relative = Return absolute →
       absolute ∈ get_all_actions
       ∧ ∃ v, get_movement_rules !! current = Some v
              ∧ get_movement_rules !! absolute
                = Some (turn_vector relative v)
              ∧ turn_vector relative v ≠ (- v.1, - v.2))
  ∧ ((current ∉ get_all_actions) →
     get_absolute_direction current relative
     = Fail (ValueError ("Invalid current_direction: " +:+ current)))
  ∧ (current ∈ get_all_actions → (relative ∉ get_relative_actions) →
     get_absolute_direction current relative
     = Fail (ValueError ("Invalid relative_action: " +:+ relative))).
Proof.
  destruct (get_absolute_direction_cases current relative)
    as [[Hcur ->] | [(Hcur & Hrel & ->) | (absolute & Hrow & ->)]].
  - split_and!; [|done|done|done].
    split; [by intros [? _]|by intros [? ?]].
  - split_and!; [|done|done|done].
    split; [by intros [_ ?]|by intros [? ?]].
  - assert (current ∈ get_all_actions ∧ relative ∈ get_relative_actions
            ∧ absolute ∈ get_all_actions
            ∧ ∃ v, get_movement_rules !! current = Some v
                   ∧ get_movement_rules !! absolute
                     = Some (turn_vector relative v)
                   ∧ turn_vector relative v ≠ (- v.1, - v.2))
      as (Hcur & Hrel & Habs & Hvec).
    { unfold get_all_actions, get_relative_actions.
      repeat match goal with
             | H : _ ∈ _ :: _ |- _ => apply elem_of_cons in H as [H|H]
             | H : _ ∈ [] |- _ => by apply elem_of_nil in H
             end;
        injection Hrow as -> -> ->;
        (split_and!; [set_solver|set_solver|set_solver|]);
        eexists; (split_and!; [reflexivity|reflexivity|done]). }
    split_and!.
    + split; [by eexists|done].
    + by intros ? [= <-].
    + done.
    + done.
Qed.

(** * game_rules.py and snake_env.py: the two scores *)

Lemma plays_score size env :
  plays size env →
  env_score env = Z.of_nat (length (env_snake env)) - 2.
Proof.
  induction 1 as [draws env rest Hnew
                 |env action draws env' reward flag info rest _ IH Hstep].
  - unfold new_env in Hnew.
    destruct (generate_food _ _ _) as [[food rest']| |]; [|done..].
    by injection Hnew as <- _.
  - destruct (step_env_growth _ _ _ _ _ _ _ _ Hstep)
      as [(-> & -> & _)|(-> & -> & _)]; lia.
Qed.

(** X24.  The two scores never agree.  In every state of a game the score of
    the environment is the length of the snake minus 2 (it starts at 0 with
    two cells), while a [GameState] built from that state takes the length
    minus 3: it is always one less than the score of the environment. *)
Theorem game_state_score_one_less size env :
  plays size env →
  env_score env = Z.of_nat (length (env_snake env)) - 2
  ∧ ∃ state,
      new_game_state (env_snake env) (env_food env)
                     (name (env_direction env)) (env_size env) (env_size env)
      = Return state
      ∧ gs_score state = env_score env - 1.
Proof.
  intros Hplays. pose proof (plays_score _ _ Hplays) as Hscore.
  split; [done|].
  unfold new_game_state.
  rewrite bool_decide_eq_false_2.
  - eexists. split; [done|]. cbn [gs_score]. lia.
  - intros Hout. apply Hout. destruct (env_direction env); set_solver.
Qed.

Lemma game_state_score_one_less_witness :
  ∃ state,
    new_game_state [(5, 5); (5, 6)] (0, 0) "UP" 10 10 = Return state
    ∧ gs_score state = 0 - 1.
Proof.
  apply (proj2 (game_state_score_one_less 10
           {| env_size := 10; env_snake := [(5, 5); (5, 6)];
              env_direction := UP; env_food := (0, 0); env_score := 0;
              env_done := false |}
           (plays_new 10 [(0, 0)] _ [] eq_refl))).
Defined.

(** * evaluation_logger.py *)

(** X25.  On every logger a program can hold: the game id of the logs is the
    current game id; the steps are numbered 0, 1, 2, ... in the order they
    were logged; once a game has been started the survival time is the number
    of steps; and [log_step] raises only on a logger on which no game was
    ever started ([end_game] does not close it). *)
Theorem logged_invariant logger :
  logged logger →
  game_id (logs logger) = current_game_id logger
  ∧ step_number <$> log_steps (logs logger)
    = seqZ 0 (Z.of_nat (length (log_steps (logs logger))))
  ∧ (is_Some (current_game_id logger) →
     survival_time (logs logger)
     = Some (Z.of_nat (length (log_steps (logs logger)))))
  ∧ (current_game_id logger = None ↔ logger = new_logger (log_dir logger))
  ∧ (∀ before action reward after flag info,
       (∃ logger', log_step logger before action reward after flag info
                   = Return logger')
       ↔ logger ≠ new_logger (log_dir logger)).
Proof.
  intros Hlogged.
  assert (game_id (logs logger) = current_game_id logger
          ∧ step_number <$> log_steps (logs logger)
            = seqZ 0 (Z.of_nat (length (log_steps (logs logger))))
          ∧ (is_Some (current_game_id logger) →
             survival_time (logs logger)
             = Some (Z.of_nat (length (log_steps (logs logger)))))
          ∧ (current_game_id logger = None
             ↔ logger = new_logger (log_dir logger)))
    as (Hid & Hnum & Htime & Hfresh).
  { induction Hlogged
      as [dir|logger size stamp now _ _
         |logger before action reward after flag info logger' _ IH Hstep
         |logger score cause now logger' _ IH Hend].
    - split_and!; [done|done|by intros [? ?]|done].
    - split_and!; [done|done|done|].
      split; [done|]. intros Heq.
      by apply (f_equal current_game_id) in Heq.
    - destruct IH as (Hid & Hnum & Htime & Hfresh).
      unfold log_step in Hstep.
      destruct (current_game_id logger) as [id|] eqn:Hcur; [|done].
      injection Hstep as <-.
      cbn [logs log_dir current_game_id game_id log_steps survival_time].
      split_and!; [done| |done|].
      + rewrite fmap_app, length_app, Hnum. cbn [fmap list_fmap length].
        rewrite Nat.add_1_r, seqZ_S. cbn [step_number]. done.
      + split; [done|]. intros Heq.
        by apply (f_equal current_game_id) in Heq.
    - destruct IH as (Hid & Hnum & Htime & Hfresh).
      unfold end_game in Hend.
      destruct (current_game_id logger) as [id|] eqn:Hcur; [|done].
      injection Hend as <-.
      cbn [logs log_dir current_game_id game_id log_steps survival_time].
      split_and!; [done|done|intros _; by apply Htime|].
      split; [done|]. intros Heq.
      by apply (f_equal current_game_id) in Heq. }
  split_and!; [done..|].
  intros before action reward after flag info. rewrite <- Hfresh.
  unfold log_step. destruct (current_game_id logger) as [id|].
  - split; [done|]. intros _. by eexists.
  - split; [by intros [? ?]|done].
Qed.

Lemma logged_invariant_witness :
  survival_time (logs (start_new_game (new_logger ".") 5 "1" "2"))
  = Some 0.
Proof.
  apply (logged_invariant (start_new_game (new_logger ".") 5 "1" "2")).
  - apply logged_start, logged_new.
  - by eexists.
Defined.

